(** * git-blog: the post index of package [router]

    A shallow embedding of [router/post.go] and of the push hook and the
    image paths of [router/router.go], and the properties of the post
    index proved on it.

    Conventions of the embedding:
    - a Go [string] is a Rocq [string] (a sequence of bytes);
    - [-1] returned by [strings.Index] is [None];
    - a post id is one path component: [dataDir + name] and [repoDir + name]
      are the entries [name] of the two directory maps of the file system;
    - a Go slice is a pointer into a heap of backing arrays together with a
      length and a capacity, so that the in-place writes of [append],
      [sort.Slice] and [posts[i] = post] are seen through every alias;
    - [log.Fatalf] ends the run ([Fatal]); a loop that never exits is
      [Hang];
    - of the system calls, [git clone], [git log] and the write of the
      index file may fail; [os.RemoveAll] and [os.ReadDir] of the two
      roots succeed, and [json.MarshalIndent] of the posts has no error,
      so that the two returns of [checkAllPosts] on these errors are not
      taken;
    - the index file is kept as the posts it serializes, apart from the
      directory map of [data/]: it lies under the entry [.pages], and what
      the removal or the extraction of that one entry does to it is not
      part of the embedding;
    - what [json.Unmarshal] reads back from the index file, and
      [filepath.Join], are taken from the libraries as they are;
    - [sort.Slice] is taken by its contract, and where a run of it is
      shown, as the library has it ([GoSort]). *)

From Stdlib Require Import Ascii OrderedTypeEx.
From stdpp Require Import base option list sorting gmap strings.

Local Open Scope nat_scope.

(** ** The part of Go's [strings] package the program uses *)

Module GoStrings.

(** The one-character strings that cannot be written as literals. *)
Definition dq : string := String (ascii_of_nat 34) EmptyString.
Definition nl : string := String (ascii_of_nat 10) EmptyString.

Definition bytes (l : list nat) : string :=
  foldr (fun n s => String (ascii_of_nat n) s) EmptyString l.

(** [s[lo:hi]] and [s[lo:]]. *)
Definition substr (s : string) (lo hi : nat) : string :=
  String.substring lo (hi - lo) s.
Definition from (lo : nat) (s : string) : string :=
  String.substring lo (String.length s - lo) s.

(** [strings.Index(s, sub)]: the first occurrence, [None] for [-1]. *)
Definition Index (s sub : string) : option nat := String.index 0 sub s.

Definition Contains (s sub : string) : bool :=
  match Index s sub with Some _ => true | None => false end.

Definition HasPrefix (s pre : string) : bool := String.prefix pre s.

Definition HasSuffix (s suf : string) : bool :=
  (String.length suf <=? String.length s) &&
  String.eqb (from (String.length s - String.length suf) s) suf.

(** [strings.Split(s, sep)] for a non-empty [sep] (every call of the
    program passes a literal one): the pieces between the successive
    non-overlapping occurrences of [sep].  Each round consumes at least one
    byte, so [length s] rounds are enough. *)
Fixpoint Split_from (fuel : nat) (s sep : string) : list string :=
  match fuel with
  | 0 => [s]
  | S fuel' =>
      match Index s sep with
      | None => [s]
      | Some i =>
          substr s 0 i :: Split_from fuel' (from (i + String.length sep) s) sep
      end
  end.

Definition Split (s sep : string) : list string :=
  Split_from (String.length s) s sep.

(** [unicode.IsSpace], as the UTF-8 encodings of the white space runes. *)
Definition spaces : list string :=
  bytes [9] :: bytes [10] :: bytes [11] :: bytes [12] :: bytes [13] ::
  bytes [32] :: bytes [194; 133] :: bytes [194; 160] ::
  bytes [225; 154; 128] ::
  ((fun b => bytes [226; 128; b]) <$> seq 128 11) ++
  [bytes [226; 128; 168]; bytes [226; 128; 169]; bytes [226; 128; 175];
   bytes [226; 129; 159]; bytes [227; 128; 128]].

Definition strip_prefix (pre s : string) : option string :=
  if String.prefix pre s then Some (from (String.length pre) s) else None.

Definition strip_space (sps : list string) (s : string) : option string :=
  list_find (fun sp => String.prefix sp s = true) sps
    ≫= fun '(_, sp) => strip_prefix sp s.

Fixpoint TrimLeft_go (fuel : nat) (sps : list string) (s : string) : string :=
  match fuel with
  | 0 => s
  | S fuel' =>
      match strip_space sps s with
      | Some s' => TrimLeft_go fuel' sps s'
      | None => s
      end
  end.

(** [strings.TrimSpace(s)]: leading and trailing white space removed. *)
Definition TrimSpace (s : string) : string :=
  let l := TrimLeft_go (String.length s) spaces s in
  String.rev (TrimLeft_go (String.length l) (String.rev <$> spaces) (String.rev l)).

End GoStrings.

Import GoStrings.

(** ** Posts *)

(** [type Post struct]; [Body] is a [template.HTML], a string. *)
Record Post := mkPost {
  Name : string;
  Title : string;
  Body : string;
  Banner : string;
  Mtime : string;
  State : string;
}.

(** The zero value [Post{}]. *)
Definition Post_zero : Post := mkPost "" "" "" "" "" "".

Global Instance Post_eq_dec : EqDecision Post.
Proof. solve_decision. Defined.

Definition dataDir : string := "data/".
Definition repoDir : string := "git/".

(** ** State classification ([getPostInfo], the first line of the document) *)

(** [strings.Split(string(mdContent), "\n")[0]] *)
Definition firstLine (mdContent : string) : string :=
  hd "" (Split mdContent nl).

(** The state [getPostInfo] computes from the raw document and
    [config.PostDefaultState]. *)
Definition postState (mdContent PostDefaultState : string) : string :=
  let firstLine := firstLine mdContent in
  let state := PostDefaultState in
  if HasPrefix firstLine "<!--" then
    if Contains firstLine "public" then "public"
    else if Contains firstLine "private" then "private"
    else if Contains firstLine "delete" then "delete"
    else state
  else state.

(** ** Metadata extraction from the rendered HTML *)

Definition extractH1Title (htmlContent : string) : string :=
  match Index htmlContent "<h1>" with
  | Some index =>
      match Index (from index htmlContent) "</h1>" with
      | Some endIndex =>
          TrimSpace (substr htmlContent (index + 4) (index + endIndex))
      | None => ""
      end
  | None => ""
  end.

(** The loop of [extractFirstParagraph], from the state [(index, body)].
    When a [<p>] is found with no [</p>] after it the Go loop changes
    nothing and runs again: it never exits, which is [None].  Otherwise
    [index] grows by at least four in every round that continues, so the
    rounds are bounded by the length of the document. *)
Fixpoint extractFirstParagraph_loop (rounds : nat) (htmlContent : string)
    (index : nat) (body : string) : option string :=
  match Index (from index htmlContent) "<p>" with
  | None => Some body
  | Some paragraphIndex =>
      match Index (from (index + paragraphIndex) htmlContent) "</p>" with
      | None => None
      | Some paragraphEndIndex =>
          let body :=
            TrimSpace (substr htmlContent (index + paragraphIndex)
                         (index + paragraphIndex + paragraphEndIndex + 4)) in
          if Contains body "<img" then
            match rounds with
            | 0 => None
            | S rounds' =>
                extractFirstParagraph_loop rounds' htmlContent
                  (index + paragraphEndIndex + 4) body
            end
          else Some body
      end
  end.

Definition extractFirstParagraph (htmlContent : string) : option string :=
  extractFirstParagraph_loop (String.length htmlContent) htmlContent 0 "".

Definition extractFirstImage (htmlContent : string) : string :=
  let imgTagStart := "<img" in
  let imgTags := Split htmlContent imgTagStart in
  if length imgTags <? 2 then ""
  else
    let tag1 := nth 1 imgTags "" in
    match Index tag1 ">" with
    | Some imgTagEnd =>
        let imgTag := substr tag1 0 imgTagEnd in
        match Index imgTag ("src=" +:+ dq) with
        | Some srcIndex =>
            let imgSrc := from (srcIndex + 5) imgTag in
            match Index imgSrc dq with
            | Some imgSrcEnd => substr imgSrc 0 imgSrcEnd
            | None => ""
            end
        | None => ""
        end
    | None => ""
    end.

(** [extractTitleAndBody]; [None] when the paragraph scan never returns. *)
Definition extractTitleAndBody (html : string)
    : option (string * string * string) :=
  let htmlContent := html in
  let title := extractH1Title htmlContent in
  body ← extractFirstParagraph htmlContent;
  let src := extractFirstImage htmlContent in
  Some (title, body, src).

(** What blackfriday renders for
    [# Title\n\n![img](a.png)\n\nFirst real paragraph.] (common extensions,
    XHTML output: the renderer [blackfriday.Run] uses by default). *)
Definition example_markdown : string :=
  "# Title" +:+ nl +:+ nl +:+ "![img](a.png)" +:+ nl +:+ nl +:+
  "First real paragraph.".

Definition example_html : string :=
  "<h1>Title</h1>" +:+ nl +:+ nl +:+
  "<p><img src=" +:+ dq +:+ "a.png" +:+ dq +:+ " alt=" +:+ dq +:+ "img" +:+ dq +:+
  " /></p>" +:+ nl +:+ nl +:+
  "<p>First real paragraph.</p>" +:+ nl.

(** ** What the program takes from outside the repository *)

(** The requirement [sort.Slice] puts on [less]. *)
Record StrictWeakOrder {A} (less : A → A → bool) : Prop := {
  less_asym x y : less x y = true → less y x = false;
  less_incomp_trans x y z :
    less y x = false → less z y = false → less z x = false;
}.

(** The Go runtime and the libraries, by what their documentation promises.
    - [sort.Slice(x, less)] reorders [x] in place so that no element is
      [less] than one before it; it "is not guaranteed to be stable".
      [less] gets indices and reads the slice being sorted, which is a
      comparison of elements.
    - [append] on a full slice moves to an array of a capacity the runtime
      picks, at least the length needed.
    - [blackfriday.Run] renders markdown to HTML. *)
Class GoLibs := {
  sort_Slice : ∀ {A}, (A → A → bool) → list A → list A;
  sort_Slice_perm : ∀ A (less : A → A → bool) l, sort_Slice less l ≡ₚ l;
  sort_Slice_sorted : ∀ A (less : A → A → bool) l,
    StrictWeakOrder less →
    StronglySorted (λ x y, less y x = false) (sort_Slice less l);
  growslice : nat → nat → nat;
  growslice_enough : ∀ oldCap needed, needed ≤ growslice oldCap needed;
  blackfriday_Run : string → string;
}.

(** ** The file system, the clock and the program's globals *)

(** An entry of [data/]: a regular file, or a directory with the content of
    its [README.md] when there is one to read. *)
Inductive dentry :=
  | DFile
  | DDir (readme : option string).

(** An entry of [git/]: a regular file, or a directory.  [clone] is what
    [git clone] of it gives: [None] when it fails, else the [README.md] of
    the checked-out tree when there is one.  [lastCommit] is the output of
    [git log -1 --format=%cd], [None] when the command fails. *)
Inductive gentry :=
  | GFile
  | GDir (clone : option (option string)) (lastCommit : option string).

Inductive error := ErrNotExist | ErrExitStatus | ErrWrite.

Global Instance error_eq_dec : EqDecision error.
Proof. solve_decision. Defined.

(** Everything outside the process.  [clock n] is the formatted
    [time.Now()] of the [n]-th reading; [writable] says whether
    [os.WriteFile(postListJson, ...)] succeeds. *)
Record World := mkWorld {
  dataFS : gmap string dentry;
  gitFS : gmap string gentry;
  clock : nat → string;
  ticks : nat;
  writable : bool;
}.

Record Config := mkConfig {
  AnaylzePostsOnStart : bool;
  PostDefaultState : string;
}.

(** A slice header [posts]: the backing array it points to, [len(posts)]
    and [cap(posts)]. *)
Record slice := Slice { s_ptr : nat; s_len : nat; s_cap : nat }.

(** The process: the world, the file [data/.pages/postsList.json] (the
    posts it serializes), [config], the heap of backing arrays, and the
    globals [posts] and [publicPosts].  [publicPosts] is rebuilt from
    [[]Post{}] each time and shares no array, so it is kept by value. *)
Record GoState := mkState {
  world : World;
  postListJson : option (list Post);
  config : Config;
  heap : list (list Post);
  posts : slice;
  publicPosts : list Post;
}.

Definition set_world (f : World → World) (σ : GoState) : GoState :=
  mkState (f (world σ)) (postListJson σ) (config σ) (heap σ) (posts σ)
    (publicPosts σ).
Definition set_dataFS (f : gmap string dentry → gmap string dentry)
    (w : World) : World :=
  mkWorld (f (dataFS w)) (gitFS w) (clock w) (ticks w) (writable w).
Definition set_gitFS (f : gmap string gentry → gmap string gentry)
    (w : World) : World :=
  mkWorld (dataFS w) (f (gitFS w)) (clock w) (ticks w) (writable w).
Definition tick (w : World) : World :=
  mkWorld (dataFS w) (gitFS w) (clock w) (S (ticks w)) (writable w).
Definition set_postListJson (l : list Post) (σ : GoState) : GoState :=
  mkState (world σ) (Some l) (config σ) (heap σ) (posts σ) (publicPosts σ).
Definition set_heap (h : list (list Post)) (σ : GoState) : GoState :=
  mkState (world σ) (postListJson σ) (config σ) h (posts σ) (publicPosts σ).
Definition set_posts (s : slice) (σ : GoState) : GoState :=
  mkState (world σ) (postListJson σ) (config σ) (heap σ) s (publicPosts σ).
Definition set_publicPosts (l : list Post) (σ : GoState) : GoState :=
  mkState (world σ) (postListJson σ) (config σ) (heap σ) (posts σ) l.

(** The nil slice, and the heap at program start: location 0 holds the
    array of length zero that nil and [[]Post{}] stand on. *)
Definition nil_slice : slice := Slice 0 0 0.

Definition boot (w : World) (cfg : Config) : GoState :=
  mkState w None cfg [[]] nil_slice [].

(** ** Runs of the program *)

(** A call returns ([Done]), ends the process through [log.Fatalf]
    ([Fatal], with the state it leaves behind), or never returns
    ([Hang]). *)
Inductive outcome (A : Type) :=
  | Done (a : A) (σ : GoState)
  | Fatal (msg : string) (σ : GoState)
  | Hang.
Global Arguments Done {A} a σ.
Global Arguments Fatal {A} msg σ.
Global Arguments Hang {A}.

Definition Run (A : Type) : Type := GoState → outcome A.

Definition ret {A} (a : A) : Run A := λ σ, Done a σ.
Definition bind {A B} (m : Run A) (k : A → Run B) : Run B :=
  λ σ, match m σ with
       | Done a σ' => k a σ'
       | Fatal msg σ' => Fatal msg σ'
       | Hang => Hang
       end.
Definition log_Fatalf {A} (msg : string) : Run A := λ σ, Fatal msg σ.
Definition hang {A} : Run A := λ _, Hang.
Definition gets {A} (f : GoState → A) : Run A := λ σ, Done (f σ) σ.
Definition modify (f : GoState → GoState) : Run unit := λ σ, Done tt (f σ).

Notation "'do' x ← m ; k" := (bind m (λ x, k))
  (at level 10, x name, m at level 100, k at level 200,
   format "'[v' 'do'  x  ←  m ; '/' k ']'").
Notation "'do' ' p ← m ; k" := (bind m (λ x, match x with p => k end))
  (at level 10, p pattern, m at level 100, k at level 200,
   format "'[v' 'do'  ' p  ←  m ; '/' k ']'").
Notation "m ;; k" := (bind m (λ _, k))
  (at level 100, k at level 200, right associativity).

(** [for _, x := range l { body x }] *)
Fixpoint for_range {A} (l : list A) (body : A → Run unit) : Run unit :=
  match l with
  | [] => ret tt
  | x :: l' => body x ;; for_range l' body
  end.

(** ** The system calls *)

(** [os.Stat(dataDir + name)]: its error. *)
Definition os_Stat_data (name : string) : Run (option error) :=
  gets (λ σ, match dataFS (world σ) !! name with
             | Some _ => None
             | None => Some ErrNotExist
             end).

(** [os.ReadFile(dataDir + name + "/README.md")]: the content, [None] for
    an error. *)
Definition os_ReadFile_README (name : string) : Run (option string) :=
  gets (λ σ, match dataFS (world σ) !! name with
             | Some (DDir (Some md)) => Some md
             | _ => None
             end).

(** [os.RemoveAll]: the tree is gone afterwards (removing what is not
    there is no error).  The index file is not in the map: [name] is
    not [.pages]. *)
Definition os_RemoveAll_data (name : string) : Run (option error) :=
  modify (set_world (set_dataFS (delete name))) ;; ret None.
Definition os_RemoveAll_repo (name : string) : Run (option error) :=
  modify (set_world (set_gitFS (delete name))) ;; ret None.

(** [os.RemoveAll(filepath.Join(targetDir, ".git"))]: the snapshot keeps
    its documents. *)
Definition os_RemoveAll_dotgit (name : string) : Run (option error) :=
  ret None.

(** [exec.Command("git", "clone", repoDir+name, targetDir).Run()], called
    once the target is removed. *)
Definition git_clone (name : string) : Run (option error) :=
  do w ← gets world;
  match gitFS w !! name with
  | Some (GDir (Some readme) _) =>
      modify (set_world (set_dataFS <[name := DDir readme]>)) ;; ret None
  | _ => ret (Some ErrExitStatus)
  end.

(** [exec.Command("git", "-C", repoDir+name, "log", ...).Output()] *)
Definition git_log_date (name : string) : Run (option string) :=
  gets (λ σ, match gitFS (world σ) !! name with
             | Some (GDir _ (Some out)) => Some out
             | _ => None
             end).

(** [time.Now().Format("2006-01-02 15:04:05")] *)
Definition time_Now : Run string :=
  do w ← gets world;
  modify (set_world tick) ;; ret (clock w (ticks w)).

(** [os.ReadDir]: the entries sorted by file name, each with [Name()] and
    [IsDir()].  The two roots exist. *)
Definition by_name {A} (x y : string * A) : Prop := String.le x.1 y.1.

Global Instance by_name_dec {A} : RelDecision (@by_name A).
Proof. intros x y. unfold by_name. apply _. Defined.

Definition dentry_IsDir (e : dentry) : bool :=
  match e with DDir _ => true | DFile => false end.
Definition gentry_IsDir (e : gentry) : bool :=
  match e with GDir _ _ => true | GFile => false end.

Definition os_ReadDir_data : Run (list (string * bool)) :=
  gets (λ σ, prod_map id dentry_IsDir
               <$> merge_sort by_name (map_to_list (dataFS (world σ)))).
Definition os_ReadDir_repo : Run (list (string * bool)) :=
  gets (λ σ, prod_map id gentry_IsDir
               <$> merge_sort by_name (map_to_list (gitFS (world σ)))).

(** [os.WriteFile(postListJson, jsonData, 0644)] of the serialized
    [posts]; [json.MarshalIndent] has no error on a [[]Post]. *)
Definition os_WriteFile_postList (l : list Post) : Run (option error) :=
  do w ← gets world;
  if writable w then modify (set_postListJson l) ;; ret None
  else ret (Some ErrWrite).

(** ** Slices *)

Definition backing (h : list (list Post)) (s : slice) : list Post :=
  default [] (h !! s_ptr s).

(** The elements [posts[0]], ..., [posts[len(posts)-1]]. *)
Definition elems (h : list (list Post)) (s : slice) : list Post :=
  take (s_len s) (backing h s).

Definition slice_elems (s : slice) : Run (list Post) :=
  gets (λ σ, elems (heap σ) s).

(** [posts[:i]] *)
Definition reslice (s : slice) (i : nat) : slice :=
  Slice (s_ptr s) i (s_cap s).

(** [posts[i] = x] *)
Definition heap_set (h : list (list Post)) (s : slice) (i : nat) (x : Post)
    : list (list Post) :=
  <[s_ptr s := <[i := x]> (backing h s)]> h.

Definition slice_set (s : slice) (i : nat) (x : Post) : Run unit :=
  modify (λ σ, set_heap (heap_set (heap σ) s i x) σ).

(** [posts[i].Mtime > posts[j].Mtime] *)
Definition Mtime_less (x y : Post) : bool := String.ltb (Mtime y) (Mtime x).

Section with_libs.
Context `{GoLibs}.

(** [append(s, xs...)]: in place when the capacity allows, else into a new
    array.  [xs] has been read before the write, as [memmove] does. *)
Definition heap_append (h : list (list Post)) (s : slice) (xs : list Post)
    : list (list Post) * slice :=
  let n := s_len s + length xs in
  if n <=? s_cap s then
    let a := backing h s in
    (<[s_ptr s := take (s_len s) a ++ xs ++ drop n a]> h,
     Slice (s_ptr s) n (s_cap s))
  else
    let c := growslice (s_cap s) n in
    (h ++ [elems h s ++ xs ++ replicate (c - n) Post_zero],
     Slice (length h) n c).

Definition go_append (s : slice) (xs : list Post) : Run slice :=
  do h ← gets heap;
  let r := heap_append h s xs in
  modify (set_heap r.1) ;;
  ret r.2.

(** [sort.Slice(posts, less)]: the elements are reordered where they
    stand. *)
Definition heap_sort (h : list (list Post)) (s : slice)
    (less : Post → Post → bool) : list (list Post) :=
  let a := backing h s in
  <[s_ptr s := sort_Slice less (take (s_len s) a) ++ drop (s_len s) a]> h.

Definition sort_in_place (s : slice) (less : Post → Post → bool) : Run unit :=
  modify (λ σ, set_heap (heap_sort (heap σ) s less) σ).

End with_libs.
(** ** The program: [router/post.go] *)

Section program.
Context `{GoLibs}.

Definition is_public (p : Post) : bool := String.eqb (State p) "public".

(** [func sortPosts(posts []Post) []Post] *)
Definition sortPosts (posts : slice) : Run slice :=
  sort_in_place posts Mtime_less ;;
  ret posts.

(** [func getLatestCommitDate(repoDir string) string], called on
    [repoDir + name]. *)
Definition getLatestCommitDate (name : string) : Run string :=
  do output ← git_log_date name;
  match output with
  | None => time_Now
  | Some output => ret (TrimSpace output)
  end.

(** [func getPostInfo(name string) (Post, error)] *)
Definition getPostInfo (name : string) : Run (Post * option error) :=
  let post := Post_zero in
  do err ← os_Stat_data name;
  match err with
  | Some err => ret (post, Some err)
  | None =>
      do mdContent ← os_ReadFile_README name;
      match mdContent with
      | None =>
          do mtime ← getLatestCommitDate name;
          ret (mkPost name "" "" "" mtime "private", None)
      | Some mdContent =>
          do cfg ← gets config;
          let state := postState mdContent (PostDefaultState cfg) in
          let htmlContent := blackfriday_Run mdContent in
          match extractTitleAndBody htmlContent with
          | None => hang
          | Some (title, body, banner) =>
              do mtime ← getLatestCommitDate name;
              ret (mkPost name title body
                     (dataDir +:+ name +:+ "/" +:+ banner) mtime state,
                   None)
          end
      end
  end.

(** The first [i] with [posts[i].Name == name], as the two [range] loops
    that [break] at the first match find it. *)
Definition find_name (name : string) (l : list Post) : option nat :=
  fst <$> list_find (λ p, Name p = name) l.

(** [func deletePost(name string, posts []Post) []Post] *)
Definition deletePost (name : string) (posts : slice) : Run slice :=
  do l ← slice_elems posts;
  do posts ← match find_name name l with
             | Some i => go_append (reslice posts i) (drop (S i) l)
             | None => ret posts
             end;
  os_RemoveAll_data name ;;
  os_RemoveAll_repo name ;;
  ret posts.

(** [publicPosts = []Post{}] and the loop that appends the public posts. *)
Definition derive_publicPosts (posts : slice) : Run unit :=
  do l ← slice_elems posts;
  modify (set_publicPosts (filter (λ p, is_public p = true) l)).

(** [func updatePost(name string, posts []Post) []Post].  The result of
    [os.WriteFile] is dropped. *)
Definition updatePost (name : string) (posts : slice) : Run slice :=
  do '(post, err) ← getPostInfo name;
  do posts ←
    (if bool_decide (err ≠ None) || String.eqb (State post) "delete" then
       deletePost name posts
     else
       do l ← slice_elems posts;
       match find_name name l with
       | Some i => slice_set posts i post ;; ret posts
       | None => go_append posts [post]
       end);
  do posts ← sortPosts posts;
  derive_publicPosts posts ;;
  do jsonData ← slice_elems posts;
  os_WriteFile_postList jsonData ;;
  ret posts.

(** [func checkAllPosts() error].  [os.ReadDir(dataDir)] and
    [json.MarshalIndent] have no error here, and the returns on their
    errors are left out; the error returned is that of [os.WriteFile]. *)
Definition checkAllPosts : Run (option error) :=
  do files ← os_ReadDir_data;
  for_range files (λ file,
    if file.2 then
      do ps ← gets posts;
      do ps ← updatePost file.1 ps;
      modify (set_posts ps)
    else ret tt) ;;
  for_range files (λ file,
    do '(post, err) ← getPostInfo file.1;
    if bool_decide (err ≠ None) then
      do ps ← gets posts;
      do ps ← go_append ps [post];
      modify (set_posts ps)
    else ret tt) ;;
  do ps ← gets posts;
  do ps ← sortPosts ps;
  modify (set_posts ps) ;;
  do ps ← gets posts;
  derive_publicPosts ps ;;
  do jsonData ← slice_elems ps;
  do err ← os_WriteFile_postList jsonData;
  match err with
  | Some err => ret (Some err)
  | None => ret None
  end.

(** [func extractGitData(name string)] *)
Definition extractGitData (name : string) : Run unit :=
  do err ← os_Stat_data name;
  (if bool_decide (err ≠ Some ErrNotExist) then
     do err ← os_RemoveAll_data name;
     match err with
     | Some _ => log_Fatalf "Failed to remove existing directory"
     | None => ret tt
     end
   else ret tt) ;;
  do err ← git_clone name;
  match err with
  | Some _ => log_Fatalf "Failed to clone the repository"
  | None =>
      do err ← os_RemoveAll_dotgit name;
      match err with
      | Some _ => log_Fatalf "Failed to remove .git directory"
      | None => ret tt
      end
  end.

(** [func extractAllGitData()] *)
Definition extractAllGitData : Run unit :=
  do files ← os_ReadDir_repo;
  for_range files (λ file,
    if file.2 then extractGitData file.1 else ret tt).

(** ** The push hook: [gitUpdate] of [router/router.go]

    [urlPath] is [r.URL.Path] and [gitName] is
    [chi.URLParam(r, "gitName")].  The slice [updatePost] returns is not
    assigned to [posts]. *)
Definition gitUpdate (urlPath gitName : string) : Run unit :=
  if HasSuffix urlPath "git-receive-pack" then
    extractGitData gitName ;;
    do ps ← gets posts;
    updatePost gitName ps ;;
    ret tt
  else ret tt.

(** The request a push of [X] ends with. *)
Definition push (X : string) : Run unit :=
  gitUpdate ("/" +:+ X +:+ "/git-receive-pack") X.

(** ** Sequences of operations *)

(** What changes the index, and what happens around it: the full rebuild,
    a push, the batch extraction that precedes a rebuild at start, and any
    change of the world between two of them (pushes received by the git
    server, edits, the clock, the disk). *)
Inductive Op :=
  | OpCheckAllPosts
  | OpGitUpdate (urlPath gitName : string)
  | OpExtractAllGitData
  | OpWorld (w : World).

Definition exec_op (op : Op) : Run unit :=
  match op with
  | OpCheckAllPosts => checkAllPosts ;; ret tt
  | OpGitUpdate urlPath gitName => gitUpdate urlPath gitName
  | OpExtractAllGitData => extractAllGitData
  | OpWorld w => modify (set_world (λ _, w))
  end.

Definition exec (ops : list Op) : Run unit := for_range ops exec_op.

(** The index as the rest of the program reads it: the elements of the
    global [posts]. *)
Definition index (σ : GoState) : list Post := elems (heap σ) (posts σ).

End program.

(** ** The start of the program: [AnaylzePosts] of [router/post.go] *)

(** [encoding/json] on the way back.  [json_Unmarshal l] is what
    [json.Unmarshal] makes of the bytes [json.MarshalIndent] wrote for the
    posts [l] ([None] for an error), and [decoded_cap n] is the capacity
    of the slice it has grown to hold [n] elements. *)
Class GoJson := {
  json_Unmarshal : list Post → option (list Post);
  decoded_cap : nat → nat;
  decoded_cap_enough : ∀ n, n ≤ decoded_cap n;
}.

(** The state a process starts in, with the index file a former run has
    left. *)
Definition start (w : World) (file : option (list Post)) (cfg : Config)
    : GoState :=
  mkState w file cfg [[]] nil_slice [].

(** [os.ReadFile(postListPath)]: the path is that of [postListJson]. *)
Definition os_ReadFile_postList : Run (option (list Post)) :=
  gets postListJson.

(** A slice on an array of its own, as [json.Unmarshal] leaves one in
    [posts]. *)
Definition new_slice (l : list Post) (c : nat) : Run slice :=
  do h ← gets heap;
  modify (set_heap (h ++ [l ++ replicate (c - length l) Post_zero])) ;;
  ret (Slice (length h) (length l) c).

Section startup.
Context `{GoLibs} `{GoJson}.

(** [func GetPostsFromJson() ([]Post, []Post)].  The two [[]Post{}] of
    the error returns stand on the array of length zero. *)
Definition GetPostsFromJson : Run (slice * list Post) :=
  do postList ← os_ReadFile_postList;
  match postList with
  | None => ret (Slice 0 0 0, [])
  | Some postList =>
      match json_Unmarshal postList with
      | None => ret (Slice 0 0 0, [])
      | Some decoded =>
          do posts ← new_slice decoded (decoded_cap (length decoded));
          derive_publicPosts posts ;;
          do pub ← gets publicPosts;
          ret (posts, pub)
      end
  end.

(** [func AnaylzePosts()].  What [checkAllPosts] returns is dropped. *)
Definition AnaylzePosts : Run unit :=
  do cfg ← gets config;
  if AnaylzePostsOnStart cfg then
    extractAllGitData ;;
    checkAllPosts ;;
    ret tt
  else
    do '(ps, pub) ← GetPostsFromJson;
    modify (set_posts ps) ;;
    modify (set_publicPosts pub).

End startup.

(** ** Pages served: [replaceImagePaths] of [router/router.go] *)

(** [strings.Replace(s, old, new, 1)]: the first occurrence of [old]
    replaced (an empty [old] matches at the start); [s] itself when
    [old == new] or [old] does not occur. *)
Definition Replace1 (s old new : string) : string :=
  if String.eqb old new then s
  else match Index s old with
       | None => s
       | Some j => substr s 0 j +:+ new +:+ from (j + String.length old) s
       end.

(** [filepath.Join(dirPath, src)], from the standard library. *)
Class GoPath := { filepath_Join : string → string → string }.

Section pages.
Context `{GoPath}.

(** One round of the loop, for [imgTags[i] = tag]; a [continue] leaves
    [htmlContent] as it is. *)
Definition replaceImagePaths_round (dirPath : string)
    (htmlContent tag : string) : string :=
  let imgTag := "<img" +:+ tag in
  match Index imgTag ("src=" +:+ dq) with
  | None => htmlContent
  | Some srcStartIndex =>
      match Index (from (srcStartIndex + 5) imgTag) dq with
      | None => htmlContent
      | Some srcEndIndex =>
          let src := substr imgTag (srcStartIndex + 5)
                       (srcStartIndex + 5 + srcEndIndex) in
          if HasPrefix src "http" then htmlContent
          else
            let relImagePath := filepath_Join dirPath src in
            let updatedImgTag := Replace1 imgTag src relImagePath in
            Replace1 htmlContent ("<img" +:+ tag) updatedImgTag
      end
  end.

(** [func replaceImagePaths(htmlContent string, dirPath string) string] *)
Definition replaceImagePaths (htmlContent dirPath : string) : string :=
  let imgTags := Split htmlContent "<img" in
  foldl (replaceImagePaths_round dirPath) htmlContent (tail imgTags).

End pages.
(** ** [sort.Slice] of Go's standard library

    The package [sort] is not part of the repository.  This is its
    [Slice] as the library has it since go1.19 ([sort/slice.go] and the
    generated [sort/zsortfunc.go]): a pattern-defeating quicksort that
    sees the slice through [Less(i, j)], the closure of the caller on the
    elements at [i] and [j], and [Swap(i, j)].  The functions keep the
    names they have there.

    - [data] is the slice under the sort; the indices the library passes
      are within it (out of it, [Less] is [false] and [Swap] does
      nothing).
    - [xorshift_Next] is the step of the generator [xorshift] of the
      library, which [breakPatterns_func] reads; it is taken as it is.
    - A loop that runs between two indices is a recursion on the number
      of elements left between them; [pdqsort_func] takes a bound on the
      depth of its calls and is [None] when the bound is too small. *)

Module GoSort.

Inductive sortedHint := unknownHint | increasingHint | decreasingHint.

Global Instance sortedHint_eq_dec : EqDecision sortedHint.
Proof. solve_decision. Defined.

(** [bits.Len(uint(n))]: the number of bits of [n]. *)
Definition bits_Len (n : nat) : nat := N.size_nat (N.of_nat n).

(** [nextPowerOfTwo(length)] *)
Definition nextPowerOfTwo (length : nat) : N :=
  N.shiftl 1 (N.of_nat (bits_Len length)).

Section sort.
Context {A : Type} (less : A → A → bool) (xorshift_Next : N → N).

Implicit Types data : list A.

Definition Less data (i j : nat) : bool :=
  match data !! i, data !! j with
  | Some x, Some y => less x y
  | _, _ => false
  end.

Definition Swap data (i j : nat) : list A :=
  match data !! i, data !! j with
  | Some x, Some y => <[j := x]> (<[i := y]> data)
  | _, _ => data
  end.

(** [for j := i; j > a && data.Less(j, j-1); j-- { data.Swap(j, j-1) }] *)
Fixpoint insertionSort_inner data (a j : nat) : list A :=
  match j with
  | 0 => data
  | S j' =>
      if (a <? j) && Less data j j'
      then insertionSort_inner (Swap data j j') a j'
      else data
  end.

(** [func insertionSort_func(data lessSwap, a, b int)] *)
Definition insertionSort_func data (a b : nat) : list A :=
  foldl (λ data i, insertionSort_inner data a i) data
    (seq (a + 1) (b - (a + 1))).

(** The loop of [siftDown_func]; the root goes down a level each round,
    so [hi] rounds are enough. *)
Fixpoint siftDown_loop (rounds : nat) data (root hi first : nat) : list A :=
  match rounds with
  | 0 => data
  | S rounds =>
      let child := 2 * root + 1 in
      if hi <=? child then data
      else
        let child :=
          if (child + 1 <? hi) && Less data (first + child) (first + child + 1)
          then child + 1 else child in
        if negb (Less data (first + root) (first + child)) then data
        else siftDown_loop rounds (Swap data (first + root) (first + child))
               child hi first
  end.

(** [func siftDown_func(data lessSwap, lo, hi, first int)] *)
Definition siftDown_func data (lo hi first : nat) : list A :=
  siftDown_loop hi data lo hi first.

(** [func heapSort_func(data lessSwap, a, b int)]: the two loops count
    [i] down to [0]. *)
Definition heapSort_func data (a b : nat) : list A :=
  let first := a in
  let lo := 0 in
  let hi := b - a in
  let data :=
    foldl (λ data i, siftDown_func data i hi first) data
      (reverse (seq 0 ((hi - 1) / 2 + 1))) in
  foldl (λ data i, siftDown_func (Swap data first (first + i)) lo i first)
    data (reverse (seq 0 hi)).

(** [for i <= j && test(i) { i++ }] and [for i <= j && test(j) { j-- }],
    with [rest] the [j + 1 - i] elements between the two indices. *)
Fixpoint scan_up (test : nat → bool) (i rest : nat) : nat :=
  match rest with
  | 0 => i
  | S rest => if test i then scan_up test (S i) rest else i
  end.

Fixpoint scan_down (test : nat → bool) (j rest : nat) : nat :=
  match rest with
  | 0 => j
  | S rest => if test j then scan_down test (j - 1) rest else j
  end.

(** The loop the two partitions share:
[[
  for {
    for i <= j && up(i) { i++ }
    for i <= j && down(j) { j-- }
    if i > j { break }
    data.Swap(i, j); i++; j--
  }
]]
    [up] and [down] compare with the pivot at [a], which the swaps leave
    where it is.  A round that goes on takes two of the elements between
    [i] and [j], so as many rounds as there are elements are enough. *)
Fixpoint partition_loop (rounds : nat) (up down : list A → nat → bool)
    data (i j : nat) : list A * nat * nat :=
  match rounds with
  | 0 => (data, i, j)
  | S rounds =>
      let i := scan_up (up data) i (j + 1 - i) in
      let j := scan_down (down data) j (j + 1 - i) in
      if j <? i then (data, i, j)
      else partition_loop rounds up down (Swap data i j) (i + 1) (j - 1)
  end.

(** [func partitionEqual_func(data lessSwap, a, b, pivot int) (newpivot int)] *)
Definition partitionEqual_func data (a b pivot : nat) : list A * nat :=
  let data := Swap data a pivot in
  let i := a + 1 in
  let j := b - 1 in
  let '(data, i, j) :=
    partition_loop (j + 1 - i)
      (λ data i, negb (Less data a i)) (λ data j, Less data a j) data i j in
  (data, i).

(** [func partition_func(data lessSwap, a, b, pivot int)
      (newpivot int, alreadyPartitioned bool)] *)
Definition partition_func data (a b pivot : nat) : list A * nat * bool :=
  let data := Swap data a pivot in
  let i := a + 1 in
  let j := b - 1 in
  let i := scan_up (λ i, Less data i a) i (j + 1 - i) in
  let j := scan_down (λ j, negb (Less data j a)) j (j + 1 - i) in
  if j <? i then (Swap data j a, j, true)
  else
    let data := Swap data i j in
    let i := i + 1 in
    let j := j - 1 in
    let '(data, i, j) :=
      partition_loop (j + 1 - i)
        (λ data i, Less data i a) (λ data j, negb (Less data j a)) data i j in
    (Swap data j a, j, false).

(** [for j := i - 1; j >= 1; j-- {
       if !data.Less(j, j-1) { break }; data.Swap(j, j-1) }] *)
Fixpoint shift_left data (j : nat) : list A :=
  match j with
  | 0 => data
  | S j' =>
      if negb (Less data j j') then data else shift_left (Swap data j j') j'
  end.

(** [for j := i + 1; j < b; j++ {
       if !data.Less(j, j-1) { break }; data.Swap(j, j-1) }],
    with [rest] the [b - j] elements from [j] on. *)
Fixpoint shift_right data (j rest : nat) : list A :=
  match rest with
  | 0 => data
  | S rest =>
      if negb (Less data j (j - 1)) then data
      else shift_right (Swap data j (j - 1)) (S j) rest
  end.

(** The loop of [partialInsertionSort_func], for [steps] of its
    [maxSteps] rounds. *)
Fixpoint partialInsertionSort_loop (steps : nat) data (a b i : nat)
    : list A * bool :=
  match steps with
  | 0 => (data, false)
  | S steps =>
      let i := scan_up (λ i, negb (Less data i (i - 1))) i (b - i) in
      if i =? b then (data, true)
      else if b - a <? 50 then (data, false)
      else
        let data := Swap data i (i - 1) in
        let data := if 2 <=? i - a then shift_left data (i - 1) else data in
        let data :=
          if 2 <=? b - i then shift_right data (i + 1) (b - (i + 1))
          else data in
        partialInsertionSort_loop steps data a b i
  end.

(** [func partialInsertionSort_func(data lessSwap, a, b int) bool] *)
Definition partialInsertionSort_func data (a b : nat) : list A * bool :=
  partialInsertionSort_loop 5 data a b (a + 1).

(** [func breakPatterns_func(data lessSwap, a, b int)] *)
Definition breakPatterns_func data (a b : nat) : list A :=
  let length := b - a in
  if 8 <=? length then
    let modulus := nextPowerOfTwo length in
    let idx := a + (length / 4) * 2 - 1 in
    (foldl (λ '(data, random) i,
              let random := xorshift_Next random in
              let other := N.to_nat (N.land random (modulus - 1)) in
              let other := if length <=? other then other - length else other in
              (Swap data (idx - 1 + i) (a + other), random))
       (data, N.of_nat length) [0; 1; 2]).1
  else data.

(** [func order2_func(data lessSwap, a, b int, swaps *int) (int, int)] *)
Definition order2_func data (a b swaps : nat) : nat * nat * nat :=
  if Less data b a then (b, a, S swaps) else (a, b, swaps).

(** [func median_func(data lessSwap, a, b, c int, swaps *int) int] *)
Definition median_func data (a b c swaps : nat) : nat * nat :=
  let '(a, b, swaps) := order2_func data a b swaps in
  let '(b, c, swaps) := order2_func data b c swaps in
  let '(a, b, swaps) := order2_func data a b swaps in
  (b, swaps).

(** [func medianAdjacent_func(data lessSwap, a int, swaps *int) int] *)
Definition medianAdjacent_func data (a swaps : nat) : nat * nat :=
  median_func data (a - 1) a (a + 1) swaps.

(** [func choosePivot_func(data lessSwap, a, b int)
      (pivot int, hint sortedHint)] *)
Definition choosePivot_func data (a b : nat) : nat * sortedHint :=
  let l := b - a in
  let swaps := 0 in
  let i := a + l / 4 * 1 in
  let j := a + l / 4 * 2 in
  let k := a + l / 4 * 3 in
  let '(j, swaps) :=
    if 8 <=? l then
      let '(i, j, k, swaps) :=
        if 50 <=? l then
          let '(i, swaps) := medianAdjacent_func data i swaps in
          let '(j, swaps) := medianAdjacent_func data j swaps in
          let '(k, swaps) := medianAdjacent_func data k swaps in
          (i, j, k, swaps)
        else (i, j, k, swaps) in
      median_func data i j k swaps
    else (j, swaps) in
  if swaps =? 0 then (j, increasingHint)
  else if swaps =? 4 * 3 then (j, decreasingHint)
  else (j, unknownHint).

(** [func reverseRange_func(data lessSwap, a, b int)] *)
Fixpoint reverseRange_loop (rounds : nat) data (i j : nat) : list A :=
  match rounds with
  | 0 => data
  | S rounds =>
      if i <? j then reverseRange_loop rounds (Swap data i j) (i + 1) (j - 1)
      else data
  end.

Definition reverseRange_func data (a b : nat) : list A :=
  reverseRange_loop (b - a) data a (b - 1).

(** [func pdqsort_func(data lessSwap, a, b, limit int)], from a round of
    its loop on: [wasBalanced] and [wasPartitioned] are its two locals,
    [true] when the function is entered.  [depth] bounds the rounds and
    calls that follow one another; each works on fewer elements than the
    one before. *)
Fixpoint pdqsort_loop (depth : nat) data (a b limit : nat)
    (wasBalanced wasPartitioned : bool) : option (list A) :=
  match depth with
  | 0 => None
  | S depth =>
      let length := b - a in
      if length <=? 12 then Some (insertionSort_func data a b)
      else if limit =? 0 then Some (heapSort_func data a b)
      else
        let '(data, limit) :=
          if negb wasBalanced then (breakPatterns_func data a b, limit - 1)
          else (data, limit) in
        let '(pivot, hint) := choosePivot_func data a b in
        let '(data, pivot, hint) :=
          if decide (hint = decreasingHint)
          then (reverseRange_func data a b, (b - 1) - (pivot - a),
                increasingHint)
          else (data, pivot, hint) in
        let '(data, sorted) :=
          if wasBalanced && wasPartitioned
             && bool_decide (hint = increasingHint)
          then partialInsertionSort_func data a b
          else (data, false) in
        if sorted then Some data
        else if (0 <? a) && negb (Less data (a - 1) pivot) then
          let '(data, mid) := partitionEqual_func data a b pivot in
          pdqsort_loop depth data mid b limit wasBalanced wasPartitioned
        else
          let '(data, mid, alreadyPartitioned) :=
            partition_func data a b pivot in
          let wasPartitioned := alreadyPartitioned in
          let leftLen := mid - a in
          let rightLen := b - mid in
          let balanceThreshold := length / 8 in
          if leftLen <? rightLen then
            let wasBalanced := balanceThreshold <=? leftLen in
            match pdqsort_loop depth data a mid limit true true with
            | None => None
            | Some data =>
                pdqsort_loop depth data (mid + 1) b limit
                  wasBalanced wasPartitioned
            end
          else
            let wasBalanced := balanceThreshold <=? rightLen in
            match pdqsort_loop depth data (mid + 1) b limit true true with
            | None => None
            | Some data =>
                pdqsort_loop depth data a mid limit wasBalanced wasPartitioned
            end
  end.

Definition pdqsort_func (depth : nat) data (a b limit : nat)
    : option (list A) :=
  pdqsort_loop depth data a b limit true true.

(** [func Slice(x any, less func(i, j int) bool)] *)
Definition Slice (x : list A) : option (list A) :=
  let length := length x in
  let limit := bits_Len length in
  pdqsort_func (S length) x 0 length limit.

End sort.
End GoSort.

(** ** Two runtimes that meet the documented contracts

    The concrete runs below need a concrete runtime.  [stable_libs] sorts
    by insertion, which keeps equal elements in their order, and is what
    [sort.Slice] does on a slice of at most twelve elements; [go_libs]
    sorts as [sort.Slice] does on every slice ([GoSort.Slice]).  Both
    double the capacity on growth, and render the documents of
    [rendered_examples] as blackfriday does (any other document as the
    empty page). *)

Definition not_less {A} (less : A → A → bool) (x y : A) : Prop :=
  less y x = false.

(** Insertion sort: an element moves left past the elements it is [less]
    than, and stops at the first one it is not. *)
Fixpoint insert_by {A} (less : A → A → bool) (x : A) (l : list A) : list A :=
  match l with
  | [] => [x]
  | y :: l' => if less x y then x :: y :: l' else y :: insert_by less x l'
  end.

Definition insertion_sort {A} (less : A → A → bool) (l : list A) : list A :=
  foldl (λ acc x, insert_by less x acc) [] l.

Definition rendered_examples : list (string * string) :=
  [ (example_markdown, example_html);
    ("<!-- delete -->" +:+ nl, "<!-- delete -->" +:+ nl);
    ("<!-- public -->" +:+ nl, "<!-- public -->" +:+ nl);
    ("hello" +:+ nl, "<p>hello</p>" +:+ nl) ].

Definition render_examples (md : string) : string :=
  default "" ((λ r, r.2.2) <$> list_find (λ e, e.1 = md) rendered_examples).

Definition double_cap (oldCap needed : nat) : nat := max needed (2 * oldCap).

(** [sort.Slice] as a total function with the contract of [GoLibs]: the
    result of [GoSort.Slice], tested to be in order.  (Where the test
    fails or the depth bound of [GoSort.Slice] is too small, which does
    not happen on the runs below, it is the insertion sort.) *)
Definition Slice_in_order {A} (xorshift_Next : N → N) (less : A → A → bool)
    (l : list A) : list A :=
  match GoSort.Slice less xorshift_Next l with
  | Some r =>
      if decide (StronglySorted (λ x y, less y x = false) r) then r
      else insertion_sort less l
  | None => insertion_sort less l
  end.

(** ** The vocabulary of the properties *)

(** [sub] occurs in [s]. *)
Definition occurs (sub s : string) : Prop := ∃ a b, s = a +:+ sub +:+ b.

(** [fl] is the first line of [md]: everything before the first line feed. *)
Definition is_first_line (md fl : string) : Prop :=
  ¬ occurs nl fl ∧ (md = fl ∨ ∃ r, md = fl +:+ nl +:+ r).

(** A comment-style annotation: the line opens an HTML comment. *)
Definition is_annotation (line : string) : Prop := ∃ r, line = "<!--" +:+ r.

(** [x] may stand before [y] in the index: it is not older. *)
Definition not_older (x y : Post) : Prop := String.le (Mtime y) (Mtime x).

(** Ordered by [Mtime], latest first: no post is older than one after it. *)
Definition sorted_by_Mtime_desc (l : list Post) : Prop :=
  ∀ i j x y, i < j → l !! i = Some x → l !! j = Some y → not_older x y.

(** A slice header that fits the heap: it points to an array of its
    capacity and its length is within it. *)
Definition slice_wf (h : list (list Post)) (s : slice) : Prop :=
  ∃ a, h !! s_ptr s = Some a ∧ length a = s_cap s ∧ s_len s ≤ s_cap s.

Section summaries.
Context `{GoLibs}.

(** What [deletePost], the upsert of [updatePost] and [updatePost] as a
    whole do to the heap, given the slice they are called on.  The
    decision of [updatePost] is [None] for a removal and [Some post] for
    an upsert of [post]. *)
Definition heap_delete (name : string) (h : list (list Post)) (s : slice)
    : list (list Post) * slice :=
  match find_name name (elems h s) with
  | Some i => heap_append h (reslice s i) (drop (S i) (elems h s))
  | None => (h, s)
  end.

Definition heap_upsert (name : string) (post : Post) (h : list (list Post))
    (s : slice) : list (list Post) * slice :=
  match find_name name (elems h s) with
  | Some i => (heap_set h s i post, s)
  | None => heap_append h s [post]
  end.

Definition heap_update (d : option Post) (name : string)
    (h : list (list Post)) (s : slice) : list (list Post) * slice :=
  let r := match d with
           | None => heap_delete name h s
           | Some post => heap_upsert name post h s
           end in
  (heap_sort r.1 r.2 Mtime_less, r.2).

Definition sortM : list Post → list Post := sort_Slice Mtime_less.

(** The decision [updatePost] takes on the result of [getPostInfo], and
    what the removal does to the two directories. *)
Definition decision (post : Post) (err : option error) : option Post :=
  if bool_decide (err ≠ None) || String.eqb (State post) "delete"
  then None else Some post.

Definition after_decision (d : option Post) (name : string) (w : World)
    : World :=
  match d with
  | None => set_gitFS (delete name) (set_dataFS (delete name) w)
  | Some _ => w
  end.

(** [getLatestCommitDate] as a function of the world: the date and the
    world after the call (the clock has been read when git gave none). *)
Definition latestCommitDate (name : string) (w : World) : string * World :=
  match gitFS w !! name with
  | Some (GDir _ (Some out)) => (TrimSpace out, w)
  | _ => (clock w (ticks w), tick w)
  end.

(** A record [updatePost] may store for [name] under the configuration
    [cfg]: it carries the name, and its state is [public], [private] or
    the default one, and not [delete]. *)
Definition storable (cfg : Config) (name : string) (post : Post) : Prop :=
  Name post = name ∧ State post ≠ "delete" ∧
  State post ∈ ["public"; "private"; PostDefaultState cfg].

(** The elements of the slice [updatePost] returns ([vr]) and the elements
    seen afterwards through the header it was called with ([vs]), from
    the elements [v] before the call. *)
Inductive update_views (d : option Post) (name : string) (v : list Post)
    : list Post → list Post → Prop :=
  | uv_delete_found i x :
      d = None → find_name name v = Some i → last v = Some x →
      update_views d name v (sortM (delete i v)) (sortM (delete i v) ++ [x])
  | uv_delete_absent :
      d = None → find_name name v = None →
      update_views d name v (sortM v) (sortM v)
  | uv_replace post i :
      d = Some post → find_name name v = Some i →
      update_views d name v (sortM (<[i := post]> v)) (sortM (<[i := post]> v))
  | uv_append_in_place post :
      d = Some post → find_name name v = None →
      update_views d name v (sortM (v ++ [post]))
        (take (length v) (sortM (v ++ [post])))
  | uv_append_moved post :
      d = Some post → find_name name v = None →
      update_views d name v (sortM (v ++ [post])) v.

End summaries.

(** A state an index record may have under [cfg] by the rules of
    [updatePost]. *)
Definition state_ok (cfg : Config) (p : Post) : Prop :=
  State p ∈ ["public"; "private"; PostDefaultState cfg].

(** [git clone] of [git/name] succeeds. *)
Definition clonable (g : gmap string gentry) (name : string) : Prop :=
  ∃ readme date, g !! name = Some (GDir (Some readme) date).

(** The body of the loop of [extractAllGitData]. *)
Definition extract_body (file : string * bool) : Run unit :=
  if file.2 then extractGitData file.1 else ret tt.


(** ** The vocabulary of the properties of the rebuild, of the pages and
    of the start *)

(** [c] is one of the bytes of [s]. *)
Fixpoint has_char (c : ascii) (s : string) : bool :=
  match s with
  | EmptyString => false
  | String d s' => Ascii.eqb c d || has_char c s'
  end.

Section rebuild_defs.
Context `{GoLibs}.

(** The bodies of the two loops of [checkAllPosts], and the listing of
    [data/] they range over. *)
Definition reconcile_body (file : string * bool) : Run unit :=
  if file.2 then
    do ps ← gets posts;
    do ps ← updatePost file.1 ps;
    modify (set_posts ps)
  else ret tt.

Definition discover_body (file : string * bool) : Run unit :=
  do '(post, err) ← getPostInfo file.1;
  if bool_decide (err ≠ None) then
    do ps ← gets posts;
    do ps ← go_append ps [post];
    modify (set_posts ps)
  else ret tt.

Definition data_listing (w : World) : list (string * bool) :=
  prod_map id dentry_IsDir <$> merge_sort by_name (map_to_list (dataFS w)).

(** The state of the record [getPostInfo] makes for a directory whose
    [README.md] is [readme]. *)
Definition state_of (cfg : Config) (readme : option string) : string :=
  match readme with
  | Some md => postState md (PostDefaultState cfg)
  | None => "private"
  end.

End rebuild_defs.

(** The records a full rebuild may leave in the index: those that were
    there, the zero post, and a record that carries the name of a
    directory of [data/] and the state of its document. *)
Definition rebuilt_from (σ : GoState) (p : Post) : Prop :=
  p ∈ index σ ∨ p = Post_zero ∨
  ∃ readme, dataFS (world σ) !! Name p = Some (DDir readme) ∧
            State p = state_of (config σ) readme ∧ State p ≠ "delete".

(** The paragraph of text [t]. *)
Definition paragraph (t : string) : string := "<p>" +:+ t +:+ "</p>".

(** A page from its first [<p>] on: the paragraphs in their order, each
    given by its text and by what stands between it and the next one (or
    the end of the page). *)
Fixpoint paragraphs (ps : list (string * string)) : string :=
  match ps with
  | [] => ""
  | (t, g) :: ps' => paragraph t +:+ g +:+ paragraphs ps'
  end.

(** The text of a paragraph runs to the first [</p>], and no [<p>] opens
    before the next paragraph. *)
Definition paragraph_ok (p : string * string) : Prop :=
  ¬ occurs "</p>" p.1 ∧ ¬ occurs "<p>" (p.1 +:+ "</p>" +:+ p.2).

Definition has_image (p : string * string) : bool :=
  Contains (paragraph p.1) "<img".

(** The excerpt of a page: its first paragraph with no image; the last
    paragraph when each one has an image; nothing when there is no
    paragraph. *)
Definition excerpt (ps : list (string * string)) : string :=
  match list_find (λ p, has_image p = false) ps with
  | Some (_, p) => paragraph p.1
  | None => default "" ((λ p, paragraph p.1) <$> last ps)
  end.

(** What the loop of [extractFirstParagraph] ends with on the paragraphs
    [ps], entered with [body]. *)
Fixpoint chosen (ps : list (string * string)) (body : string) : string :=
  match ps with
  | [] => body
  | p :: ps' => if has_image p then chosen ps' (paragraph p.1)
                else paragraph p.1
  end.

(** The source the loop of [replaceImagePaths] reads in the tag
    [<img] + [tag]: what stands between the quote that opens the [src]
    attribute and the next one. *)
Definition img_src (tag : string) : option string :=
  let imgTag := "<img" +:+ tag in
  match Index imgTag ("src=" +:+ dq) with
  | None => None
  | Some srcStartIndex =>
      match Index (from (srcStartIndex + 5) imgTag) dq with
      | None => None
      | Some srcEndIndex =>
          Some (substr imgTag (srcStartIndex + 5)
                  (srcStartIndex + 5 + srcEndIndex))
      end
  end.

(** The source of an image is left alone: an absolute URL, or a path
    [filepath.Join] gives back as it is. *)
Definition src_kept `{GoPath} (dirPath : string) (tag : string) : Prop :=
  ∀ src, img_src tag = Some src →
         HasPrefix src "http" = true ∨ filepath_Join dirPath src = src.
(** ** Concrete worlds for the runs below *)

Definition repo (readme : string) (date : string) : gentry :=
  GDir (Some (Some readme)) (Some date).

Definition example_world : World :=
  mkWorld
    (<["a" := DDir (Some ("<!-- public -->" +:+ nl))]>
     (<["b" := DDir (Some ("hello" +:+ nl))]> ∅))
    (<["a" := repo ("<!-- public -->" +:+ nl) "2024-01-01 10:00:00"]>
     (<["b" := repo ("hello" +:+ nl) "2024-01-02 10:00:00"]> ∅))
    (λ _, "2024-03-01 00:00:00") 0 true.

Definition example_config : Config := mkConfig true "private".

Definition example_ops : list Op :=
  [OpExtractAllGitData; OpCheckAllPosts;
   OpWorld (set_gitFS <["c" := repo ("<!-- public -->" +:+ nl) "2024-01-03 10:00:00"]> example_world);
   OpGitUpdate "/c/git-receive-pack" "c";
   OpGitUpdate "/a/git-receive-pack" "a"].


Definition draft_config : Config := mkConfig true "draft".

(** Three repositories, the second of which cannot be cloned. *)
Definition broken_world : World :=
  mkWorld ∅
    (<["a" := repo ("hello" +:+ nl) "2024-01-01 10:00:00"]>
     (<["b" := GDir None None]>
      (<["c" := repo ("hello" +:+ nl) "2024-01-03 10:00:00"]> ∅)))
    (λ _, "2024-03-01 00:00:00") 0 true.

(** Two posts of the same second. *)
Definition tie_a : Post := mkPost "a" "" "" "data/a/" "2024-01-01 10:00:00" "public".
Definition tie_b : Post := mkPost "b" "" "" "data/b/" "2024-01-01 10:00:00" "public".

Definition tie_state : GoState :=
  mkState example_world None example_config [[]; [tie_a; tie_b]]
    (Slice 1 2 2) [tie_a; tie_b].

(** Thirteen posts: [b] is of the next day, the twelve others are of the
    same second. *)
Definition same_second (name : string) : Post :=
  mkPost name "" "" ("data/" +:+ name +:+ "/") "2024-01-01 10:00:00" "public".
Definition next_day (name : string) : Post :=
  mkPost name "" "" ("data/" +:+ name +:+ "/") "2024-01-02 10:00:00" "public".

Definition thirteen : list Post :=
  [same_second "a"; next_day "b"; same_second "c"; same_second "d";
   same_second "e"; same_second "f"; same_second "g"; same_second "h";
   same_second "i"; same_second "j"; same_second "k"; same_second "l";
   same_second "m"].

Definition thirteen_state : GoState :=
  mkState example_world None example_config [[]; thirteen]
    (Slice 1 13 13) thirteen.

(** What [sort.Slice] makes of them. *)
Definition thirteen_sorted : list Post :=
  [next_day "b"; same_second "g"; same_second "c"; same_second "d";
   same_second "e"; same_second "f"; same_second "a"; same_second "h";
   same_second "i"; same_second "j"; same_second "k"; same_second "l";
   same_second "m"].


(** One post, extracted and public; then its author pushes a first line
    that asks for its removal. *)
Definition single_world : World :=
  mkWorld
    (<["a" := DDir (Some ("<!-- public -->" +:+ nl))]> ∅)
    (<["a" := repo ("<!-- public -->" +:+ nl) "2024-01-01 10:00:00"]> ∅)
    (λ _, "2024-03-01 00:00:00") 0 true.

Definition single_world_delete : World :=
  set_gitFS <["a" := repo ("<!-- delete -->" +:+ nl) "2024-02-01 10:00:00"]>
    single_world.

Definition delete_ops : list Op :=
  [OpCheckAllPosts; OpWorld single_world_delete; OpGitUpdate "/a/git-receive-pack" "a"].

(** The disk refuses the write of the index file. *)
Definition readonly_world : World :=
  mkWorld (dataFS single_world) (gitFS single_world) (clock single_world) 0 false.


(** An index of two posts, and the document of the first one changed to
    ask for its removal. *)
Definition delete_state : GoState :=
  mkState
    (set_dataFS <["a" := DDir (Some ("<!-- delete -->" +:+ nl))]> example_world)
    None example_config [[]; [tie_a; tie_b]] (Slice 1 2 2) [tie_a; tie_b].


(** ** The two runtimes meet the contracts *)

Lemma not_less_total {A} (less : A → A → bool) :
  StrictWeakOrder less → Total (not_less less).
Proof.
  intros Hs x y. unfold not_less.
  destruct (less y x) eqn:E; [right; by apply Hs|by left].
Qed.

Lemma not_less_trans {A} (less : A → A → bool) :
  StrictWeakOrder less → Transitive (not_less less).
Proof. intros Hs x y z. unfold not_less. apply Hs. Qed.

Lemma insert_by_perm {A} (less : A → A → bool) x l :
  insert_by less x l ≡ₚ x :: l.
Proof.
  induction l as [|y l IH]; simpl; [done|].
  destruct (less x y); [done|]. by rewrite IH, Permutation_swap.
Qed.

Lemma insert_by_sorted {A} (less : A → A → bool) x l :
  StrictWeakOrder less →
  StronglySorted (not_less less) l →
  StronglySorted (not_less less) (insert_by less x l).
Proof.
  intros Hs. induction 1 as [|y l Hl IH Hy]; simpl.
  - repeat constructor.
  - destruct (less x y) eqn:E.
    + constructor; [by constructor|]. constructor.
      * by apply Hs.
      * eapply Forall_impl; [exact Hy|]. intros z Hz.
        eapply (not_less_trans less Hs); [|exact Hz]. by apply Hs.
    + constructor; [done|].
      rewrite (insert_by_perm less x l). by constructor.
Qed.

Lemma insertion_sort_perm {A} (less : A → A → bool) l :
  insertion_sort less l ≡ₚ l.
Proof.
  unfold insertion_sort. rewrite <-(app_nil_l l) at 2.
  generalize (@nil A). induction l as [|x l IH]; intros acc; simpl.
  - by rewrite app_nil_r.
  - rewrite IH, insert_by_perm. simpl. apply Permutation_middle.
Qed.

Lemma insertion_sort_sorted {A} (less : A → A → bool) l :
  StrictWeakOrder less → StronglySorted (not_less less) (insertion_sort less l).
Proof.
  intros Hs. unfold insertion_sort.
  assert (StronglySorted (not_less less) (@nil A)) as Hnil by constructor.
  revert Hnil. generalize (@nil A).
  induction l as [|x l IH]; intros acc Hacc; simpl; [done|].
  apply IH. by apply insert_by_sorted.
Qed.

Global Program Instance stable_libs : GoLibs := {|
  sort_Slice A less l := insertion_sort less l;
  growslice := double_cap;
  blackfriday_Run := render_examples;
|}.
Next Obligation. intros. apply insertion_sort_perm. Qed.
Next Obligation. intros. by apply insertion_sort_sorted. Qed.
Next Obligation. intros. unfold double_cap. lia. Qed.

(** *** [GoSort.Slice] moves the elements by [Swap] only *)

Section GoSort_perm.
Context {A : Type} (less : A → A → bool) (xorshift_Next : N → N).
Implicit Types data : list A.

Lemma insert_head_perm (l : list A) j x y :
  l !! j = Some y → y :: <[j := x]> l ≡ₚ x :: l.
Proof.
  revert j. induction l as [|z l IH]; intros [|j] Hj; simplify_eq/=.
  - apply Permutation_swap.
  - rewrite Permutation_swap, (IH j Hj). apply Permutation_swap.
Qed.

Lemma Swap_perm data i j : GoSort.Swap data i j ≡ₚ data.
Proof.
  unfold GoSort.Swap.
  destruct (data !! i) as [x|] eqn:Hi; [|done].
  destruct (data !! j) as [y|] eqn:Hj; [|done].
  revert i j Hi Hj. induction data as [|z l IH]; intros [|i] [|j] Hi Hj;
    simplify_eq/=; [done| | |].
  - by apply insert_head_perm.
  - by apply insert_head_perm.
  - by rewrite (IH i j).
Qed.

Lemma foldl_perm {B} (f : list A → B → list A) (l : list B) data :
  (∀ d b, f d b ≡ₚ d) → foldl f data l ≡ₚ data.
Proof.
  intros Hf. revert data. induction l as [|b l IH]; intros data; [done|].
  simpl. by rewrite IH.
Qed.

Lemma insertionSort_inner_perm data a j :
  GoSort.insertionSort_inner less data a j ≡ₚ data.
Proof.
  revert data. induction j as [|j IH]; intros data; [done|]. simpl.
  destruct (_ && _); [|done]. by rewrite IH, Swap_perm.
Qed.

Lemma insertionSort_func_perm data a b :
  GoSort.insertionSort_func less data a b ≡ₚ data.
Proof. apply foldl_perm. intros. apply insertionSort_inner_perm. Qed.

Lemma siftDown_loop_perm rounds data root hi first :
  GoSort.siftDown_loop less rounds data root hi first ≡ₚ data.
Proof.
  revert data root. induction rounds as [|n IH]; intros data root; [done|].
  simpl. destruct (hi <=? _); [done|]. destruct (negb _); [done|].
  by rewrite IH, Swap_perm.
Qed.

Lemma heapSort_func_perm data a b :
  GoSort.heapSort_func less data a b ≡ₚ data.
Proof.
  unfold GoSort.heapSort_func. cbv zeta.
  rewrite foldl_perm.
  - apply foldl_perm. intros. apply siftDown_loop_perm.
  - intros. unfold GoSort.siftDown_func.
    by rewrite siftDown_loop_perm, Swap_perm.
Qed.

Lemma partition_loop_perm rounds up down data i j :
  (GoSort.partition_loop rounds up down data i j).1.1 ≡ₚ data.
Proof.
  revert data i j. induction rounds as [|n IH]; intros data i j; [done|].
  simpl. destruct (_ <? _); [done|]. by rewrite IH, Swap_perm.
Qed.

Lemma partitionEqual_func_perm data a b pivot :
  (GoSort.partitionEqual_func less data a b pivot).1 ≡ₚ data.
Proof.
  unfold GoSort.partitionEqual_func. cbv zeta.
  match goal with |- context [GoSort.partition_loop ?r ?u ?d ?x ?i ?j] =>
    pose proof (partition_loop_perm r u d x i j) as Hp;
    destruct (GoSort.partition_loop r u d x i j) as [[d' i'] j'] end.
  simpl in *. by rewrite Hp, Swap_perm.
Qed.

Lemma partition_func_perm data a b pivot :
  (GoSort.partition_func less data a b pivot).1.1 ≡ₚ data.
Proof.
  unfold GoSort.partition_func. cbv zeta.
  destruct (_ <? _); simpl; [by rewrite !Swap_perm|].
  match goal with |- context [GoSort.partition_loop ?r ?u ?d ?x ?i ?j] =>
    pose proof (partition_loop_perm r u d x i j) as Hp;
    destruct (GoSort.partition_loop r u d x i j) as [[d' i'] j'] end.
  simpl in *. by rewrite Swap_perm, Hp, !Swap_perm.
Qed.

Lemma shift_left_perm data j : GoSort.shift_left less data j ≡ₚ data.
Proof.
  revert data. induction j as [|j IH]; intros data; [done|]. simpl.
  destruct (negb _); [done|]. by rewrite IH, Swap_perm.
Qed.

Lemma shift_right_perm data j rest :
  GoSort.shift_right less data j rest ≡ₚ data.
Proof.
  revert data j. induction rest as [|n IH]; intros data j; [done|]. simpl.
  destruct (negb _); [done|]. by rewrite IH, Swap_perm.
Qed.

Lemma partialInsertionSort_loop_perm steps data a b i :
  (GoSort.partialInsertionSort_loop less steps data a b i).1 ≡ₚ data.
Proof.
  revert data i. induction steps as [|n IH]; intros data i; [done|]. simpl.
  set (i' := GoSort.scan_up _ _ _).
  destruct (i' =? b); [done|]. destruct (b - a <? 50); [done|].
  rewrite IH.
  repeat match goal with |- context [if ?c then _ else _] => destruct c end;
    repeat first [etrans; [apply shift_right_perm|]
                 |etrans; [apply shift_left_perm|]];
    apply Swap_perm.
Qed.

Lemma breakPatterns_func_perm data a b :
  GoSort.breakPatterns_func xorshift_Next data a b ≡ₚ data.
Proof.
  unfold GoSort.breakPatterns_func. cbv zeta.
  destruct (8 <=? _); [|done]. simpl. by rewrite !Swap_perm.
Qed.

Lemma reverseRange_loop_perm rounds data i j :
  GoSort.reverseRange_loop rounds data i j ≡ₚ data.
Proof.
  revert data i j. induction rounds as [|n IH]; intros data i j; [done|].
  simpl. destruct (_ <? _); [|done]. by rewrite IH, Swap_perm.
Qed.

Lemma pdqsort_loop_perm depth data a b limit wb wp r :
  GoSort.pdqsort_loop less xorshift_Next depth data a b limit wb wp = Some r →
  r ≡ₚ data.
Proof.
  revert data a b limit wb wp r.
  induction depth as [|n IH]; intros data a b limit wb wp r; [done|].
  simpl.
  destruct (_ <=? 12); [intros [= <-]; apply insertionSort_func_perm|].
  destruct (limit =? 0); [intros [= <-]; apply heapSort_func_perm|].
  set (d1 := if negb wb then _ else _).
  assert (d1.1 ≡ₚ data) as H1.
  { unfold d1. destruct (negb wb); [apply breakPatterns_func_perm|done]. }
  destruct d1 as [data1 limit1]. simpl in H1.
  destruct (GoSort.choosePivot_func less data1 a b) as [pivot hint].
  set (d2 := if decide (hint = GoSort.decreasingHint) then _ else _).
  assert (d2.1.1 ≡ₚ data) as H2.
  { unfold d2. destruct (decide _); simpl; [|done].
    unfold GoSort.reverseRange_func. by rewrite reverseRange_loop_perm. }
  destruct d2 as [[data2 pivot2] hint2]. simpl in H2.
  set (d3 := if _ && _ && _ then _ else _).
  assert (d3.1 ≡ₚ data) as H3.
  { unfold d3. destruct (_ && _ && _); simpl; [|done].
    unfold GoSort.partialInsertionSort_func.
    by rewrite partialInsertionSort_loop_perm. }
  destruct d3 as [data3 sorted]. simpl in H3.
  destruct sorted; [by intros [= <-]|].
  destruct (_ && _).
  - pose proof (partitionEqual_func_perm data3 a b pivot2) as H4.
    destruct (GoSort.partitionEqual_func less data3 a b pivot2) as [data4 mid].
    simpl in H4. intros Hr%IH. by rewrite Hr, H4.
  - pose proof (partition_func_perm data3 a b pivot2) as H4.
    destruct (GoSort.partition_func less data3 a b pivot2)
      as [[data4 mid] already].
    simpl in H4.
    destruct (_ <? _).
    + destruct (GoSort.pdqsort_loop _ _ n data4 a mid limit1 true true)
        as [data5|] eqn:H5; [|done].
      apply IH in H5. intros Hr%IH. by rewrite Hr, H5, H4.
    + destruct (GoSort.pdqsort_loop _ _ n data4 (mid + 1) b limit1 true true)
        as [data5|] eqn:H5; [|done].
      apply IH in H5. intros Hr%IH. by rewrite Hr, H5, H4.
Qed.

Lemma Slice_perm (x r : list A) :
  GoSort.Slice less xorshift_Next x = Some r → r ≡ₚ x.
Proof. apply pdqsort_loop_perm. Qed.

End GoSort_perm.

Lemma Slice_in_order_perm {A} next (less : A → A → bool) l :
  Slice_in_order next less l ≡ₚ l.
Proof.
  unfold Slice_in_order.
  destruct (GoSort.Slice less next l) as [r|] eqn:Hr;
    [|apply insertion_sort_perm].
  destruct (decide _); [by eapply Slice_perm|apply insertion_sort_perm].
Qed.

Lemma Slice_in_order_sorted {A} next (less : A → A → bool) l :
  StrictWeakOrder less →
  StronglySorted (λ x y, less y x = false) (Slice_in_order next less l).
Proof.
  intros Hs. unfold Slice_in_order.
  destruct (GoSort.Slice less next l) as [r|];
    [|by apply insertion_sort_sorted].
  destruct (decide _); [done|by apply insertion_sort_sorted].
Qed.

Program Definition go_libs (xorshift_Next : N → N) : GoLibs := {|
  sort_Slice A less l := Slice_in_order xorshift_Next less l;
  growslice := double_cap;
  blackfriday_Run := render_examples;
|}.
Next Obligation. intros. apply Slice_in_order_perm. Qed.
Next Obligation. intros. by apply Slice_in_order_sorted. Qed.
Next Obligation. intros. unfold double_cap. lia. Qed.

(** ** More concrete inputs *)

(** An index that still holds the post [b], whose directory is gone. *)
Definition stale_state : GoState :=
  mkState single_world None example_config [[]; [tie_a; tie_b]]
    (Slice 1 2 2) [tie_a; tie_b].

(** A decoder that gives back the posts that were written, in a slice
    with room for four posts at least. *)
Global Program Instance plain_json : GoJson := {|
  json_Unmarshal l := Some l;
  decoded_cap n := Nat.max n 4;
|}.
Next Obligation. intros. apply Nat.le_max_l. Qed.

(** [filepath.Join] on the paths of the examples: nothing to clean. *)
Global Instance plain_path : GoPath := {|
  filepath_Join dirPath src :=
    if String.eqb dirPath "" then src else dirPath +:+ "/" +:+ src;
|}.

(** A document that is one block of HTML, which the renderer passes
    through; its paragraph is not closed. *)
Definition block_markdown : string := "<div><p>text</div>" +:+ nl.

Program Definition block_libs : GoLibs := {|
  sort_Slice A less l := insertion_sort less l;
  growslice := double_cap;
  blackfriday_Run md :=
    if String.eqb md block_markdown then block_markdown
    else render_examples md;
|}.
Next Obligation. intros. apply insertion_sort_perm. Qed.
Next Obligation. intros. by apply insertion_sort_sorted. Qed.
Next Obligation. intros. unfold double_cap. lia. Qed.

Definition block_world : World :=
  mkWorld ∅ (<["a" := repo block_markdown "2024-01-01 10:00:00"]> ∅)
    (λ _, "2024-03-01 00:00:00") 0 true.

(** The text of the image of [example_html]. *)
Definition example_image : string :=
  "<img src=" +:+ dq +:+ "a.png" +:+ dq +:+ " alt=" +:+ dq +:+ "img" +:+ dq +:+
  " />".
(** ** Facts about the string functions *)

Section string_facts.

Implicit Types s a b sub : string.

Lemma string_app_cons c a b : String c a +:+ b = String c (a +:+ b).
Proof. done. Qed.

Lemma string_app_nil_l s : "" +:+ s = s.
Proof. done. Qed.

Lemma string_app_nil_r s : s +:+ "" = s.
Proof.
  induction s as [|c s IH]; [done|]. by rewrite string_app_cons, IH.
Qed.

Lemma string_app_assoc a b c : (a +:+ b) +:+ c = a +:+ b +:+ c.
Proof.
  induction a as [|x a IH]; [done|]. by rewrite !string_app_cons, IH.
Qed.

Lemma string_app_length a b :
  String.length (a +:+ b) = String.length a + String.length b.
Proof.
  induction a as [|x a IH]; [done|]. rewrite string_app_cons. simpl.
  by rewrite IH.
Qed.

Lemma prefix_app pre r : String.prefix pre (pre +:+ r) = true.
Proof.
  induction pre as [|c pre IH]; [by destruct r|].
  rewrite string_app_cons. simpl.
  destruct (ascii_dec c c); [done|congruence].
Qed.

Lemma prefix_split pre s : String.prefix pre s = true → ∃ r, s = pre +:+ r.
Proof.
  revert s; induction pre as [|c pre IH]; intros s H.
  - by exists s.
  - destruct s as [|d s]; simpl in H; [done|].
    destruct (ascii_dec c d) as [->|]; [|done].
    destruct (IH _ H) as [r ->]. by exists r.
Qed.

Lemma HasPrefix_iff s pre : HasPrefix s pre = true ↔ ∃ r, s = pre +:+ r.
Proof.
  split; [apply prefix_split|]. intros [r ->]. apply prefix_app.
Qed.

Lemma substring_0_app a b : String.substring 0 (String.length a) (a +:+ b) = a.
Proof.
  induction a as [|c a IH]; [by destruct b|].
  rewrite string_app_cons. simpl. by rewrite IH.
Qed.

Lemma substring_skip a s n :
  String.substring (String.length a) n (a +:+ s) = String.substring 0 n s.
Proof.
  induction a as [|c a IH]; [done|]. rewrite string_app_cons. apply IH.
Qed.

Lemma substring_app_mid a sub b :
  String.substring (String.length a) (String.length sub) (a +:+ sub +:+ b) = sub.
Proof. rewrite substring_skip. apply substring_0_app. Qed.

Lemma substring_0_split n s sub :
  String.substring 0 n s = sub → String.length sub = n → ∃ b, s = sub +:+ b.
Proof.
  revert s sub; induction n as [|n IHn]; intros s sub Hs Hn.
  - destruct sub; [|done]. by exists s.
  - destruct s as [|c s]; simpl in Hs; [by subst|].
    destruct sub as [|d sub]; [done|]. simplify_eq/=.
    destruct (IHn s sub H eq_refl) as [b Hb].
    exists b. rewrite string_app_cons. by f_equal.
Qed.

Lemma substring_split m n s sub :
  String.substring m n s = sub → String.length sub = n → occurs sub s.
Proof.
  revert s n sub; induction m as [|m IH]; intros s n sub Hs Hn.
  - destruct (substring_0_split _ _ _ Hs Hn) as [b ->]. by exists "", b.
  - destruct s as [|c s]; simpl in Hs.
    + subst sub. by exists "", "".
    + destruct (IH s n sub Hs Hn) as (a & b & ->).
      by exists (String c a), b.
Qed.

(** [strings.Contains] decides the occurrence of a non-empty string. *)
Lemma Contains_occurs s sub :
  sub ≠ "" → Contains s sub = true ↔ occurs sub s.
Proof.
  intros Hne. unfold Contains, Index. split.
  - destruct (String.index 0 sub s) as [m|] eqn:Hi; [intros _|done].
    apply String.index_correct1 in Hi.
    by apply (substring_split _ _ _ _ Hi).
  - intros (a & b & ->).
    destruct (String.index 0 sub (a +:+ sub +:+ b)) eqn:Hi; [done|].
    exfalso. eapply (String.index_correct3 0 (String.length a)); eauto.
    + lia.
    + apply substring_app_mid.
Qed.

Lemma Contains_not_occurs s sub :
  sub ≠ "" → Contains s sub = false ↔ ¬ occurs sub s.
Proof.
  intros Hne. rewrite <-(Contains_occurs s sub Hne).
  by destruct (Contains s sub).
Qed.

Lemma occurs_cons_inv c s x :
  ¬ occurs (String x "") (String c s) → c ≠ x ∧ ¬ occurs (String x "") s.
Proof.
  intros H. split.
  - intros ->. apply H. by exists "", s.
  - intros (a & b & ->). apply H. by exists (String c a), b.
Qed.

Lemma Index_char_absent s x : ¬ occurs (String x "") s → Index s (String x "") = None.
Proof.
  intros H. apply (Contains_not_occurs s (String x "")) in H; [|done].
  unfold Contains in H. by destruct (Index s (String x "")).
Qed.

Lemma Index_char_first a b x :
  ¬ occurs (String x "") a →
  Index (a +:+ String x b) (String x "") = Some (String.length a).
Proof.
  unfold Index. induction a as [|c a IH]; intros H.
  - rewrite string_app_nil_l. simpl.
    destruct (ascii_dec x x); [|done]. by destruct b.
  - apply occurs_cons_inv in H as [Hc H].
    rewrite string_app_cons. simpl.
    destruct (ascii_dec x c) as [->|]; [done|].
    by rewrite IH.
Qed.

Lemma firstLine_spec md fl : is_first_line md fl → firstLine md = fl.
Proof.
  intros [Hno [->|[r ->]]]; unfold firstLine, Split.
  - destruct (String.length fl); simpl; [done|].
    unfold nl in *. by rewrite Index_char_absent.
  - rewrite string_app_length. unfold nl in *.
    rewrite string_app_cons, string_app_nil_l. simpl String.length.
    replace (String.length fl + S (String.length r))
      with (S (String.length fl + String.length r)) by lia.
    simpl. rewrite Index_char_first by done. simpl.
    unfold substr. rewrite Nat.sub_0_r. apply substring_0_app.
Qed.

End string_facts.

(** ** Reasoning about runs *)

Section run_facts.

Lemma bind_Done {A B} (m : Run A) (k : A → Run B) σ b σ' :
  bind m k σ = Done b σ' ↔ ∃ a σ1, m σ = Done a σ1 ∧ k a σ1 = Done b σ'.
Proof.
  unfold bind. split.
  - destruct (m σ) as [a σ1| |]; [|done..]. intros Hk. by exists a, σ1.
  - intros (a & σ1 & -> & Hk). done.
Qed.

Lemma for_range_nil {A} (body : A → Run unit) σ :
  for_range [] body σ = Done tt σ.
Proof. done. Qed.

Lemma for_range_cons {A} (body : A → Run unit) x l :
  for_range (x :: l) body = (body x ;; for_range l body).
Proof. done. Qed.

(** An invariant of the body of a loop is one of the loop. *)
Lemma for_range_invariant {A} (I : GoState → Prop) (body : A → Run unit) l :
  (∀ x σ σ', I σ → body x σ = Done tt σ' → I σ') →
  ∀ σ σ', I σ → for_range l body σ = Done tt σ' → I σ'.
Proof.
  intros Hbody. induction l as [|x l IH]; intros σ σ' HI Hrun.
  - rewrite for_range_nil in Hrun. by simplify_eq.
  - rewrite for_range_cons in Hrun.
    apply bind_Done in Hrun as ([] & σ1 & Hx & Hl). eauto.
Qed.

(** A run that touches the world only: the heap, the globals, the
    configuration and the index file are as before, however it ends. *)
Definition world_only {A} (m : Run A) : Prop :=
  ∀ σ, match m σ with
       | Done _ σ' | Fatal _ σ' => ∃ w, σ' = set_world (λ _, w) σ
       | Hang => True
       end.

Lemma set_world_id σ : σ = set_world (λ _, world σ) σ.
Proof. by destruct σ. Qed.

Lemma set_world_set_world f g σ :
  set_world f (set_world g σ) = set_world (f ∘ g) σ.
Proof. done. Qed.

Lemma world_only_ret {A} (a : A) : world_only (ret a).
Proof. intros σ. exists (world σ). apply set_world_id. Qed.

Lemma world_only_gets {A} (f : GoState → A) : world_only (gets f).
Proof. intros σ. exists (world σ). apply set_world_id. Qed.

Lemma world_only_modify f : world_only (modify (set_world f)).
Proof. intros σ. by exists (f (world σ)). Qed.

Lemma world_only_Fatalf {A} msg : world_only (@log_Fatalf A msg).
Proof. intros σ. exists (world σ). apply set_world_id. Qed.

Lemma world_only_hang {A} : world_only (@hang A).
Proof. by intros σ. Qed.

Lemma world_only_bind {A B} (m : Run A) (k : A → Run B) :
  world_only m → (∀ a, world_only (k a)) → world_only (bind m k).
Proof.
  intros Hm Hk σ. unfold bind. specialize (Hm σ).
  destruct (m σ) as [a σ1|msg σ1|]; [|done..].
  destruct Hm as [w ->]. specialize (Hk a (set_world (λ _, w) σ)).
  destruct (k a _) as [b σ2|msg σ2|]; [| |done];
    destruct Hk as [w' ->]; by exists w'.
Qed.

Lemma world_only_for_range {A} (l : list A) (body : A → Run unit) :
  (∀ x, world_only (body x)) → world_only (for_range l body).
Proof.
  intros Hbody. induction l as [|x l IH]; simpl.
  - apply world_only_ret.
  - apply world_only_bind; [apply Hbody|]. by intros _.
Qed.

End run_facts.

Create HintDb world_only.
#[export] Hint Resolve world_only_ret world_only_gets world_only_modify
  world_only_Fatalf world_only_hang : world_only.

(** Splits a goal [world_only m] along the structure of [m]. *)
Ltac world_only_tac :=
  repeat first
    [ progress eauto with world_only
    | apply world_only_bind; [|intros]
    | apply world_only_for_range; intros
    | match goal with
      | |- world_only (match ?x with _ => _ end) => destruct x
      | |- world_only (if ?b then _ else _) => destruct b
      | |- world_only (let _ := _ in _) => cbv zeta
      end ].

Section world_only_calls.
Context `{GoLibs}.

Lemma world_only_getPostInfo name : world_only (getPostInfo name).
Proof.
  unfold getPostInfo, getLatestCommitDate, os_Stat_data, os_ReadFile_README,
    git_log_date, time_Now.
  world_only_tac.
Qed.

Lemma world_only_extractGitData name : world_only (extractGitData name).
Proof.
  unfold extractGitData, os_Stat_data, os_RemoveAll_data, git_clone,
    os_RemoveAll_dotgit.
  world_only_tac.
Qed.

Lemma world_only_extractAllGitData : world_only extractAllGitData.
Proof.
  unfold extractAllGitData, os_ReadDir_repo.
  world_only_tac.
Qed.

End world_only_calls.

(** ** Slices and their aliases *)

Section heap_facts.
Context `{GoLibs}.

Implicit Types (h : list (list Post)) (s : slice) (a v t xs : list Post).

Lemma backing_lookup h s a : h !! s_ptr s = Some a → backing h s = a.
Proof. unfold backing. by intros ->. Qed.

Lemma elems_insert h p a' m c :
  p < length h → elems (<[p := a']> h) (Slice p m c) = take m a'.
Proof.
  intros Hp. unfold elems, backing. simpl.
  by rewrite list_lookup_insert_eq.
Qed.

Lemma slice_wf_insert h p a' m c :
  p < length h → length a' = c → m ≤ c → slice_wf (<[p := a']> h) (Slice p m c).
Proof.
  intros Hp Ha Hm. exists a'. simpl. by rewrite list_lookup_insert_eq.
Qed.

Lemma slice_wf_elems_length h s : slice_wf h s → length (elems h s) = s_len s.
Proof.
  intros (a & Ha & Hc & Hn). unfold elems.
  rewrite (backing_lookup _ _ _ Ha), length_take. lia.
Qed.

Lemma sortM_length v : length (sortM v) = length v.
Proof. unfold sortM. by rewrite sort_Slice_perm. Qed.

Lemma find_name_Some name v i :
  find_name name v = Some i →
  ∃ x, v !! i = Some x ∧ Name x = name ∧ i < length v.
Proof.
  unfold find_name. destruct (list_find _ v) as [[j x]|] eqn:E; [|done].
  intros [= <-]. apply list_find_Some in E as (Hx & Hn & _).
  exists x. split_and!; [done..|]. by eapply lookup_lt_Some.
Qed.

Lemma find_name_None name v :
  find_name name v = None → Forall (λ x, Name x ≠ name) v.
Proof.
  unfold find_name. destruct (list_find _ v) as [[j x]|] eqn:E; [done|].
  intros _. by apply list_find_None in E.
Qed.

Lemma heap_append_in_place h s xs a :
  h !! s_ptr s = Some a → s_len s + length xs ≤ s_cap s →
  heap_append h s xs =
    (<[s_ptr s := take (s_len s) a ++ xs ++ drop (s_len s + length xs) a]> h,
     Slice (s_ptr s) (s_len s + length xs) (s_cap s)).
Proof.
  intros Ha Hn. unfold heap_append.
  rewrite (backing_lookup _ _ _ Ha).
  by destruct (Nat.leb_spec (s_len s + length xs) (s_cap s)); [|lia].
Qed.

Lemma heap_append_moved h s xs :
  s_cap s < s_len s + length xs →
  heap_append h s xs =
    (h ++ [elems h s ++ xs
           ++ replicate (growslice (s_cap s) (s_len s + length xs)
                         - (s_len s + length xs)) Post_zero],
     Slice (length h) (s_len s + length xs)
       (growslice (s_cap s) (s_len s + length xs))).
Proof.
  intros Hn. unfold heap_append.
  by destruct (Nat.leb_spec (s_len s + length xs) (s_cap s)); [lia|].
Qed.

Lemma heap_sort_at h p n c a less :
  h !! p = Some a →
  heap_sort h (Slice p n c) less
  = <[p := sort_Slice less (take n a) ++ drop n a]> h.
Proof.
  intros Ha. unfold heap_sort.
  by rewrite (backing_lookup h (Slice p n c) a Ha).
Qed.

Lemma heap_set_at h p n c a i x :
  h !! p = Some a → heap_set h (Slice p n c) i x = <[p := <[i := x]> a]> h.
Proof.
  intros Ha. unfold heap_set.
  by rewrite (backing_lookup h (Slice p n c) a Ha).
Qed.

Lemma take_sortM_app v t k : k = length v → take k (sortM v ++ t) = sortM v.
Proof. intros ->. rewrite <-(sortM_length v). apply take_app_length. Qed.

Lemma drop_sortM_app v t k : k = length v → drop k (sortM v ++ t) = t.
Proof. intros ->. rewrite <-(sortM_length v). apply drop_app_length. Qed.

Lemma drop_pred_last v x : last v = Some x → drop (length v - 1) v = [x].
Proof.
  rewrite last_lookup. intros Hx.
  replace (length v - 1) with (pred (length v)) by lia.
  rewrite (drop_S _ _ _ Hx).
  rewrite drop_ge; [done|]. apply lookup_lt_Some in Hx. lia.
Qed.

Lemma heap_update_views d name h s :
  slice_wf h s →
  slice_wf (heap_update d name h s).1 (heap_update d name h s).2 ∧
  slice_wf (heap_update d name h s).1 s ∧
  update_views d name (elems h s)
    (elems (heap_update d name h s).1 (heap_update d name h s).2)
    (elems (heap_update d name h s).1 s).
Proof.
  destruct s as [p n c]. intros (a & Ha & Hc & Hn). simpl in *.
  assert (p < length h) as Hp by (by eapply lookup_lt_Some).
  unfold heap_update.
  assert (elems h (Slice p n c) = take n a) as Hv.
  { unfold elems. by rewrite (backing_lookup h (Slice p n c) a Ha). }
  pose proof (take_drop n a) as Hvt.
  assert (length (take n a) = n) as Hlv by (rewrite length_take; lia).
  assert (length (drop n a) = c - n) as Hlt by (rewrite length_drop; lia).
  revert Hv Hvt Hlv Hlt. generalize (take n a) (drop n a).
  intros v t Hv <- <- Hlt.
  fold sortM.
  destruct d as [post|].
  - (* upsert *)
    unfold heap_upsert. rewrite Hv.
    destruct (find_name name v) as [i|] eqn:Hf.
    + (* replaced where it stands *)
      destruct (find_name_Some _ _ _ Hf) as (x & Hx & _ & Hi).
      cbn [fst snd].
      rewrite (heap_set_at h p (length v) c _ i post Ha).
      erewrite heap_sort_at by (by apply list_lookup_insert_eq).
      rewrite list_insert_insert_eq.
      rewrite insert_app_l by lia.
      rewrite take_app_length', drop_app_length' by (by rewrite length_insert).
      rewrite !elems_insert by done. fold sortM.
      rewrite take_sortM_app by (by rewrite length_insert).
      split_and!.
      * apply slice_wf_insert; [done| |done].
        rewrite length_app, sortM_length, length_insert in *. lia.
      * apply slice_wf_insert; [done| |done].
        rewrite length_app, sortM_length, length_insert in *. lia.
      * by eapply uv_replace.
    + destruct (decide (length v + 1 ≤ c)) as [Hfit|Hfull].
      * (* appended in place *)
        rewrite (heap_append_in_place h (Slice p (length v) c) [post] _ Ha) by done.
        cbn [fst snd s_ptr s_len s_cap length].
        erewrite heap_sort_at by (by apply list_lookup_insert_eq).
        rewrite list_insert_insert_eq.
        rewrite take_app_length.
        rewrite drop_app_ge by lia.
        replace (length v + 1 - length v) with 1 by lia.
        rewrite (assoc_L (++) v [post]).
        rewrite take_app_length', drop_app_length'
          by (rewrite length_app; simpl; lia).
        rewrite !elems_insert by done. fold sortM.
        rewrite take_sortM_app by (rewrite length_app; simpl; lia).
        rewrite take_app_le by (rewrite sortM_length, length_app; simpl; lia).
        split_and!.
        -- apply slice_wf_insert; [done| |done].
           rewrite length_app, sortM_length, length_app, length_drop in *.
           simpl. lia.
        -- apply slice_wf_insert; [done| |lia].
           rewrite length_app, sortM_length, length_app, length_drop in *.
           simpl. lia.
        -- by eapply uv_append_in_place.
      * (* moved to a new array *)
        rewrite heap_append_moved by (simpl; lia).
        cbn [fst snd s_ptr s_len s_cap length]. rewrite Hv.
        set (c' := growslice c (length v + 1)).
        assert (length v + 1 ≤ c') as Hc' by apply growslice_enough.
        erewrite heap_sort_at by (by apply list_lookup_middle).
        rewrite (assoc_L (++) v [post]).
        rewrite take_app_length', drop_app_length'
          by (rewrite length_app; simpl; lia).
        fold sortM.
        assert (length h < length (h ++ [(v ++ [post])
                  ++ replicate (c' - (length v + 1)) Post_zero])) as Hp'.
        { rewrite length_app. simpl. lia. }
        rewrite elems_insert by done.
        rewrite take_sortM_app by (rewrite length_app; simpl; lia).
        assert (elems (<[length h := sortM (v ++ [post])
                   ++ replicate (c' - (length v + 1)) Post_zero]>
                 (h ++ [(v ++ [post])
                   ++ replicate (c' - (length v + 1)) Post_zero]))
                 (Slice p (length v) c) = v) as Hs.
        { unfold elems, backing. simpl.
          rewrite list_lookup_insert_ne by lia.
          rewrite lookup_app_l by done. rewrite Ha. simpl.
          by rewrite take_app_length. }
        rewrite Hs. split_and!.
        -- apply slice_wf_insert; [done| |done].
           rewrite length_app, sortM_length, length_app, length_replicate.
           simpl. lia.
        -- exists (v ++ t). simpl.
           rewrite list_lookup_insert_ne by lia.
           by rewrite lookup_app_l.
        -- by eapply uv_append_moved.
  - (* removal *)
    unfold heap_delete. rewrite Hv.
    destruct (find_name name v) as [i|] eqn:Hf.
    + destruct (find_name_Some _ _ _ Hf) as (x & Hx & _ & Hi).
      assert (i + length (drop (S i) v) = length v - 1) as Hlen.
      { rewrite length_drop. lia. }
      rewrite (heap_append_in_place h (reslice (Slice p (length v) c) i) _ _ Ha)
        by (simpl; lia).
      cbn [fst snd s_ptr s_len s_cap reslice]. rewrite Hlen.
      erewrite heap_sort_at by (by apply list_lookup_insert_eq).
      rewrite list_insert_insert_eq.
      rewrite (take_app_le v t i), (drop_app_le v t (length v - 1)) by lia.
      rewrite (assoc_L (++) (take i v)), <-delete_take_drop.
      assert (length (delete i v) = length v - 1) as Hld.
      { rewrite length_delete; [lia|]. by eexists. }
      rewrite take_app_length', drop_app_length' by done.
      rewrite !elems_insert by done. fold sortM.
      rewrite take_sortM_app by done.
      destruct (last v) as [y|] eqn:Hy.
      2:{ apply last_None in Hy. subst v. simpl in Hi. lia. }
      rewrite (drop_pred_last _ _ Hy).
      rewrite take_app_ge by (rewrite sortM_length; lia).
      rewrite sortM_length, Hld.
      replace (length v - (length v - 1)) with 1 by lia. simpl.
      rewrite take_0.
      split_and!.
      * apply slice_wf_insert; [done| |lia].
        rewrite !length_app, sortM_length, Hld. simpl.
        rewrite length_app in Hc. lia.
      * apply slice_wf_insert; [done| |lia].
        rewrite !length_app, sortM_length, Hld. simpl.
        rewrite length_app in Hc. lia.
      * by eapply uv_delete_found.
    + cbn [fst snd].
      erewrite heap_sort_at by done.
      rewrite take_app_length, drop_app_length.
      rewrite !elems_insert by done. fold sortM.
      rewrite take_sortM_app by done.
      split_and!.
      * apply slice_wf_insert; [done| |done].
        rewrite length_app, sortM_length in *. lia.
      * apply slice_wf_insert; [done| |done].
        rewrite length_app, sortM_length in *. lia.
      * by eapply uv_delete_absent.
Qed.

Lemma heap_append_wf h s xs :
  slice_wf h s →
  slice_wf (heap_append h s xs).1 (heap_append h s xs).2 ∧
  elems (heap_append h s xs).1 (heap_append h s xs).2 = elems h s ++ xs.
Proof.
  destruct s as [p n c]. intros (a & Ha & Hc & Hn). simpl in *.
  assert (p < length h) as Hp by (by eapply lookup_lt_Some).
  assert (elems h (Slice p n c) = take n a) as Hv.
  { unfold elems. by rewrite (backing_lookup h (Slice p n c) a Ha). }
  destruct (decide (n + length xs ≤ c)) as [Hfit|Hfull].
  - rewrite (heap_append_in_place h (Slice p n c) xs a Ha) by done.
    cbn [fst snd s_ptr s_len s_cap].
    rewrite elems_insert, Hv by done. split.
    + apply slice_wf_insert; [done| |done].
      rewrite !length_app, length_take, length_drop. lia.
    + rewrite (assoc_L (++)). apply take_app_length'.
      rewrite length_app, length_take. lia.
  - rewrite heap_append_moved by (simpl; lia).
    cbn [fst snd s_ptr s_len s_cap]. rewrite Hv.
    set (c' := growslice c (n + length xs)).
    assert (n + length xs ≤ c') as Hc' by apply growslice_enough.
    split.
    + eexists. simpl. split; [by apply list_lookup_middle|].
      rewrite !length_app, length_take, length_replicate. lia.
    + unfold elems, backing. simpl.
      rewrite list_lookup_middle by done. simpl.
      rewrite (assoc_L (++)). apply take_app_length'.
      rewrite length_app, length_take. lia.
Qed.

Lemma heap_sort_wf h s :
  slice_wf h s →
  slice_wf (heap_sort h s Mtime_less) s ∧
  elems (heap_sort h s Mtime_less) s = sortM (elems h s).
Proof.
  destruct s as [p n c]. intros (a & Ha & Hc & Hn). simpl in *.
  assert (p < length h) as Hp by (by eapply lookup_lt_Some).
  rewrite (heap_sort_at h p n c a _ Ha). fold sortM.
  rewrite elems_insert by done. unfold elems.
  rewrite (backing_lookup h (Slice p n c) a Ha). simpl. split.
  - apply slice_wf_insert; [done| |done].
    rewrite length_app, sortM_length, length_take, length_drop. lia.
  - apply take_sortM_app. rewrite length_take. lia.
Qed.

End heap_facts.

(** ** The order of the index *)

Section order_facts.
Context `{GoLibs}.

Lemma ltb_false_le (a b : string) : String.ltb a b = false ↔ String.le b a.
Proof.
  unfold String.le, String.leb, String.ltb.
  rewrite (String.compare_antisym b a).
  destruct (a ?= b)%string; simpl; naive_solver.
Qed.

Lemma Mtime_less_false x y : Mtime_less y x = false ↔ not_older x y.
Proof. apply ltb_false_le. Qed.

Global Instance not_older_refl : Reflexive not_older.
Proof. intros x. unfold not_older. reflexivity. Qed.

Global Instance not_older_trans : Transitive not_older.
Proof. intros x y z Hxy Hyz. unfold not_older in *. by etrans. Qed.

Lemma Mtime_less_swo : StrictWeakOrder Mtime_less.
Proof.
  split.
  - intros x y Hxy. apply Mtime_less_false.
    destruct (Mtime_less y x) eqn:E; [|by apply Mtime_less_false].
    unfold Mtime_less, String.ltb in *.
    rewrite (String.compare_antisym (Mtime y) (Mtime x)) in Hxy.
    by destruct (Mtime x ?= Mtime y)%string.
  - intros x y z. rewrite !Mtime_less_false. intros ??. by etrans.
Qed.

Lemma sorted_by_Mtime_desc_strongly l :
  sorted_by_Mtime_desc l ↔ StronglySorted not_older l.
Proof.
  split.
  - induction l as [|x l IH]; intros Hs; constructor.
    + apply IH. intros i j a b Hij Ha Hb. by apply (Hs (S i) (S j)); [lia|..].
    + apply Forall_lookup. intros j y Hy. by apply (Hs 0 (S j)); [lia|..].
  - induction 1 as [|x l Hl IH Hx]; intros i j a b Hij Ha Hb.
    + done.
    + destruct j as [|j]; [lia|]. simpl in Hb. destruct i as [|i].
      * simplify_eq/=. by eapply (proj1 (Forall_lookup _ _) Hx).
      * simpl in Ha. eapply (IH i j); [lia|done..].
Qed.

Lemma StronglySorted_weaken {A} (R1 R2 : relation A) l :
  (∀ x y, R1 x y → R2 x y) → StronglySorted R1 l → StronglySorted R2 l.
Proof.
  intros HR. induction 1; constructor; [done|]. eapply Forall_impl; eauto.
Qed.

Lemma sortM_sorted l : sorted_by_Mtime_desc (sortM l).
Proof.
  apply sorted_by_Mtime_desc_strongly. unfold sortM.
  eapply StronglySorted_weaken;
    [|apply sort_Slice_sorted, Mtime_less_swo].
  intros x y. apply Mtime_less_false.
Qed.

Lemma sorted_by_Mtime_desc_take l n :
  sorted_by_Mtime_desc l → sorted_by_Mtime_desc (take n l).
Proof.
  intros Hs i j x y Hij Hx Hy.
  apply lookup_take_Some in Hx as [Hx _].
  apply lookup_take_Some in Hy as [Hy _]. by eapply Hs.
Qed.

Lemma sorted_by_Mtime_desc_snoc_last l v x :
  sorted_by_Mtime_desc l → sorted_by_Mtime_desc v → last v = Some x →
  Forall (λ z, z ∈ v) l → sorted_by_Mtime_desc (l ++ [x]).
Proof.
  intros Hl Hv Hx Hsub. apply sorted_by_Mtime_desc_strongly.
  apply StronglySorted_app_2.
  - intros z ? Hz ->%list_elem_of_singleton.
    rewrite Forall_forall in Hsub.
    apply Hsub, list_elem_of_lookup in Hz as [k Hk].
    rewrite last_lookup in Hx.
    destruct (decide (k = pred (length v))) as [->|Hne].
    + by simplify_eq.
    + eapply (Hv k (pred (length v))); [|done..].
      apply lookup_lt_Some in Hk. lia.
  - by apply sorted_by_Mtime_desc_strongly.
  - repeat constructor.
Qed.

Lemma sortM_Forall (P : Post → Prop) l : Forall P l → Forall P (sortM l).
Proof. intros Hl. unfold sortM. by rewrite sort_Slice_perm. Qed.

(** The slice [updatePost] returns is ordered, and so is what the header
    it was called with shows, when it was ordered before. *)
Lemma update_views_sorted d name v vr vs :
  update_views d name v vr vs →
  sorted_by_Mtime_desc vr ∧
  (sorted_by_Mtime_desc v → sorted_by_Mtime_desc vs).
Proof.
  destruct 1; (split; [apply sortM_sorted|]); intros Hv;
    try apply sortM_sorted; try done.
  - eapply sorted_by_Mtime_desc_snoc_last; [apply sortM_sorted|done..|].
    apply sortM_Forall, Forall_delete. by apply Forall_forall.
  - apply sorted_by_Mtime_desc_take, sortM_sorted.
Qed.

(** Every element of the two views was in the slice before, or is the
    post of the upsert. *)
Lemma update_views_Forall (P : Post → Prop) d name v vr vs :
  update_views d name v vr vs →
  Forall P v → (∀ post, d = Some post → P post) →
  Forall P vr ∧ Forall P vs.
Proof.
  intros Hu Hv Hd.
  pose proof (sortM_Forall P) as Hsort.
  destruct Hu; subst d.
  - assert (Forall P (delete i v)) as Hdel by (by apply Forall_delete).
    split; [auto|]. apply Forall_app. split; [auto|].
    constructor; [|done]. rewrite last_lookup in *.
    by eapply (proj1 (Forall_lookup _ _) Hv).
  - auto.
  - assert (Forall P (<[i := post]> v)) by (apply Forall_insert; auto).
    auto.
  - assert (Forall P (v ++ [post])) by (apply Forall_app; auto).
    split; [auto|]. apply Forall_take. auto.
  - assert (Forall P (v ++ [post])) by (apply Forall_app; auto).
    auto.
Qed.

End order_facts.

(** ** What the calls of the program do *)

Section program_facts.
Context `{GoLibs}.

Lemma updatePost_Done name s σ r σ' :
  updatePost name s σ = Done r σ' →
  ∃ post err σ1,
    getPostInfo name σ = Done (post, err) σ1 ∧
    let d := decision post err in
    heap σ' = (heap_update d name (heap σ) s).1 ∧
    r = (heap_update d name (heap σ) s).2 ∧
    posts σ' = posts σ ∧
    config σ' = config σ ∧
    publicPosts σ' = filter (λ p, is_public p = true) (elems (heap σ') r) ∧
    world σ' = after_decision d name (world σ1) ∧
    postListJson σ' =
      (if writable (world σ1) then Some (elems (heap σ') r)
       else postListJson σ).
Proof.
  intros Hrun. unfold updatePost in Hrun.
  apply bind_Done in Hrun as ([post err] & σ1 & Hget & Hrun).
  exists post, err, σ1. split; [done|].
  pose proof (world_only_getPostInfo name σ) as Hw. rewrite Hget in Hw.
  destruct Hw as [w1 ->]. clear Hget.
  unfold decision, heap_update, heap_delete, heap_upsert.
  unfold deletePost, sortPosts, derive_publicPosts, go_append, slice_set,
    sort_in_place, slice_elems, os_RemoveAll_data, os_RemoveAll_repo,
    os_WriteFile_postList, bind, ret, gets, modify in Hrun.
  simpl in Hrun.
  destruct (bool_decide (err ≠ None) || String.eqb (State post) "delete");
    simpl in Hrun |- *;
    destruct (find_name name (elems (heap σ) s)); simpl in Hrun |- *;
    destruct (writable w1); by simplify_eq/=.
Qed.

Lemma postState_cases md def :
  postState md def ∈ ["public"; "private"; "delete"; def].
Proof.
  unfold postState.
  repeat match goal with |- context [if ?b then _ else _] => destruct b end;
    set_solver.
Qed.

(** What [getPostInfo] returns: the zero post with an error when
    [data/name] is not there, else a record of that name whose state is
    [private] or the classification of its document. *)
Lemma getPostInfo_eq name σ :
  getPostInfo name σ =
  match dataFS (world σ) !! name with
  | None => Done (Post_zero, Some ErrNotExist) σ
  | Some e =>
      let m := latestCommitDate name (world σ) in
      match e with
      | DDir (Some md) =>
          let html := blackfriday_Run md in
          match extractFirstParagraph html with
          | None => Hang
          | Some body =>
              Done (mkPost name (extractH1Title html) body
                      (dataDir +:+ name +:+ "/" +:+ extractFirstImage html)
                      m.1 (postState md (PostDefaultState (config σ))),
                    None)
                (set_world (λ _, m.2) σ)
          end
      | _ =>
          Done (mkPost name "" "" "" m.1 "private", None)
            (set_world (λ _, m.2) σ)
      end
  end.
Proof.
  unfold getPostInfo, getLatestCommitDate, os_Stat_data, os_ReadFile_README,
    git_log_date, time_Now, latestCommitDate, extractTitleAndBody,
    bind, ret, gets, modify, hang.
  destruct σ as [w pj cfg hp ps pub]. simpl.
  destruct (dataFS w !! name) as [[|[md|]]|] eqn:He; simpl; rewrite ?He;
    simpl; [| | |done].
  - by destruct (gitFS w !! name) as [[|? [?|]]|] eqn:Hg; simpl;
      rewrite ?Hg; destruct w.
  - destruct (extractFirstParagraph (blackfriday_Run md)); simpl; [|done].
    by destruct (gitFS w !! name) as [[|? [?|]]|] eqn:Hg; simpl;
      rewrite ?Hg; destruct w.
  - by destruct (gitFS w !! name) as [[|? [?|]]|] eqn:Hg; simpl;
      rewrite ?Hg; destruct w.
Qed.

Lemma getPostInfo_Done name σ post err σ1 :
  getPostInfo name σ = Done (post, err) σ1 →
  (err = Some ErrNotExist ∧ post = Post_zero ∧ dataFS (world σ) !! name = None)
  ∨ (err = None ∧ Name post = name ∧ is_Some (dataFS (world σ) !! name) ∧
     State post ∈ ["public"; "private"; "delete"; PostDefaultState (config σ)]).
Proof.
  rewrite getPostInfo_eq.
  destruct (dataFS (world σ) !! name) as [e|] eqn:He.
  2:{ intros; simplify_eq. by left. }
  intros Hrun. right.
  pose proof (λ md, postState_cases md (PostDefaultState (config σ))).
  destruct e as [|[md|]]; simpl in Hrun;
    [|destruct (extractFirstParagraph _); [|done]|];
    simplify_eq/=; split_and!; try done;
    rewrite !elem_of_cons; auto.
Qed.

Lemma decision_Some cfg name σ post err σ1 post' :
  getPostInfo name σ = Done (post, err) σ1 → config σ = cfg →
  decision post err = Some post' → storable cfg name post'.
Proof.
  intros Hget <- Hd. unfold decision in Hd.
  destruct (bool_decide (err ≠ None)) eqn:Herr; [done|].
  destruct (String.eqb_spec (State post) "delete") as [|Hne]; [done|].
  simplify_eq/=. apply bool_decide_eq_false in Herr.
  destruct (getPostInfo_Done _ _ _ _ _ Hget) as [(-> & _)|(_ & Hn & _ & Hs)];
    [by destruct Herr|].
  split_and!; [done..|].
  rewrite !elem_of_cons in Hs. rewrite !elem_of_cons.
  destruct Hs as [Hs|[Hs|[Hs|[Hs|Hs]]]];
    try (by apply elem_of_nil in Hs); try congruence; auto.
Qed.

(** A push: the header [posts] stays, and what it shows afterwards is the
    second view of [update_views]. *)
Lemma gitUpdate_Done urlPath name σ σ' :
  gitUpdate urlPath name σ = Done tt σ' →
  slice_wf (heap σ) (posts σ) →
  posts σ' = posts σ ∧ config σ' = config σ ∧
  slice_wf (heap σ') (posts σ') ∧
  (σ' = σ ∨
   ∃ d vr, update_views d name (index σ) vr (index σ') ∧
           (∀ post, d = Some post → storable (config σ) name post) ∧
           publicPosts σ' = filter (λ p, is_public p = true) vr).
Proof.
  unfold gitUpdate. intros Hrun Hwf.
  destruct (HasSuffix urlPath "git-receive-pack").
  2:{ unfold ret in Hrun. simplify_eq. split_and!; auto. }
  apply bind_Done in Hrun as ([] & σ1 & Hext & Hrun).
  pose proof (world_only_extractGitData name σ) as Hw. rewrite Hext in Hw.
  destruct Hw as [w1 ->]. clear Hext.
  apply bind_Done in Hrun as (ps & σ2 & Hps & Hrun).
  unfold gets in Hps. simplify_eq/=.
  apply bind_Done in Hrun as (r & σ3 & Hupd & Hrun).
  unfold ret in Hrun. simplify_eq.
  apply updatePost_Done in Hupd
    as (post & err & σ1 & Hget & Hh & Hr & Hp & Hc & Hpub & _).
  cbn [heap posts config set_world] in *.
  destruct (heap_update_views (decision post err) name (heap σ) (posts σ) Hwf)
    as (Hwfr & Hwfs & Hviews).
  unfold index. rewrite Hp, Hh, Hpub, Hh, Hr.
  split_and!; [done..|]. right.
  eexists _, _. split_and!; [exact Hviews| |done].
  intros post' Hd. by eapply decision_Some.
Qed.

(** The full rebuild, for a property [P] of the stored records that the
    zero post and every storable record have. *)
Lemma checkAllPosts_Done (P : Post → Prop) σ err σ' :
  checkAllPosts σ = Done err σ' →
  slice_wf (heap σ) (posts σ) → Forall P (index σ) → P Post_zero →
  (∀ name post, storable (config σ) name post → P post) →
  config σ' = config σ ∧ slice_wf (heap σ') (posts σ') ∧
  Forall P (index σ') ∧ sorted_by_Mtime_desc (index σ') ∧
  publicPosts σ' = filter (λ p, is_public p = true) (index σ').
Proof.
  intros Hrun Hwf HP Hzero Hstor. unfold checkAllPosts in Hrun.
  set (J := λ τ : GoState, config τ = config σ ∧
              slice_wf (heap τ) (posts τ) ∧ Forall P (index τ)).
  assert (J σ) as HJ by done.
  apply bind_Done in Hrun as (files & σ0 & Hfiles & Hrun).
  unfold os_ReadDir_data, gets in Hfiles. simplify_eq.
  apply bind_Done in Hrun as ([] & σ1 & Hloop1 & Hrun).
  eapply (for_range_invariant J) in Hloop1; [|clear HJ|exact HJ].
  2:{ intros [name isdir] τ τ' (Hc & Hw & Hp) Hbody. simpl in Hbody.
      destruct isdir; [|unfold ret in Hbody; by simplify_eq].
      apply bind_Done in Hbody as (ps & τ1 & Hps & Hbody).
      unfold gets in Hps. simplify_eq.
      apply bind_Done in Hbody as (r & τ2 & Hupd & Hbody).
      unfold modify in Hbody. simplify_eq.
      apply updatePost_Done in Hupd
        as (post & err' & τ3 & Hget & Hh & Hr & _ & Hc' & _).
      destruct (heap_update_views (decision post err') name _ _ Hw)
        as (Hwfr & _ & Hviews).
      unfold J, index. cbn [heap posts config set_posts].
      rewrite Hh, Hr, Hc'. split_and!; [done..|].
      eapply proj1, update_views_Forall; [exact Hviews|exact Hp|].
      intros post' Hd. eapply Hstor. rewrite <-Hc.
      by eapply decision_Some. }
  apply bind_Done in Hrun as ([] & σ2 & Hloop2 & Hrun).
  eapply (for_range_invariant J) in Hloop2; [|clear Hloop1|exact Hloop1].
  2:{ intros [name isdir] τ τ' (Hc & Hw & Hp) Hbody. simpl in Hbody.
      apply bind_Done in Hbody as ([post err'] & τ1 & Hget & Hbody).
      pose proof (world_only_getPostInfo name τ) as Hwo.
      rewrite Hget in Hwo. destruct Hwo as [w1 ->].
      case_bool_decide as Herr; [|unfold ret in Hbody; by simplify_eq].
      apply getPostInfo_Done in Hget as [(_ & -> & _)|(-> & _)]; [|done].
      unfold go_append, bind, gets, modify, ret in Hbody. simplify_eq/=.
      destruct (heap_append_wf (heap τ) (posts τ) [Post_zero] Hw)
        as [Hw' He].
      unfold J, index. cbn [heap posts config set_posts set_heap set_world].
      split_and!; [done..|]. rewrite He. apply Forall_app. by split;
        [|constructor]. }
  destruct Hloop2 as (Hc & Hw & Hp).
  unfold sortPosts, sort_in_place, derive_publicPosts, slice_elems,
    os_WriteFile_postList, bind, gets, modify, ret in Hrun.
  simpl in Hrun.
  destruct (heap_sort_wf (heap σ2) (posts σ2) Hw) as [Hw' He].
  assert (Forall P (sortM (index σ2))) as Hp' by (by apply sortM_Forall).
  pose proof (sortM_sorted (index σ2)) as Hs.
  unfold index in *.
  destruct (writable (world σ2)); simplify_eq/=;
    unfold index; cbn; rewrite He; split_and!; done.
Qed.
Lemma exec_op_invariant (P : Post → Prop) cfg op σ σ' :
  P Post_zero → (∀ name post, storable cfg name post → P post) →
  exec_op op σ = Done tt σ' →
  config σ = cfg ∧ slice_wf (heap σ) (posts σ) ∧ Forall P (index σ) ∧
    sorted_by_Mtime_desc (index σ) →
  config σ' = cfg ∧ slice_wf (heap σ') (posts σ') ∧ Forall P (index σ') ∧
    sorted_by_Mtime_desc (index σ').
Proof.
  intros Hzero Hstor Hrun (Hc & Hwf & HP & Hs). destruct op; simpl in Hrun.
  - apply bind_Done in Hrun as (err & σ1 & Hchk & Hret).
    unfold ret in Hret. simplify_eq.
    destruct (checkAllPosts_Done P _ _ _ Hchk Hwf HP Hzero)
      as (? & ? & ? & ? & _).
    { exact Hstor. }
    split_and!; [congruence|done..].
  - apply gitUpdate_Done in Hrun as (Hp & Hc' & Hwf' & Hcase); [|done].
    destruct Hcase as [->|(d & vr & Hviews & Hd & _)]; [done|].
    split_and!; [congruence|done|..].
    + eapply proj2, update_views_Forall; [exact Hviews|exact HP|].
      intros post ->. eapply Hstor. rewrite <-Hc. eauto.
    + by eapply update_views_sorted.
  - pose proof (world_only_extractAllGitData σ) as Hw. rewrite Hrun in Hw.
    by destruct Hw as [w1 ->].
  - unfold modify in Hrun. by simplify_eq.
Qed.

Lemma exec_invariant (P : Post → Prop) w cfg ops σ :
  P Post_zero → (∀ name post, storable cfg name post → P post) →
  exec ops (boot w cfg) = Done tt σ →
  config σ = cfg ∧ slice_wf (heap σ) (posts σ) ∧ Forall P (index σ) ∧
    sorted_by_Mtime_desc (index σ).
Proof.
  intros Hzero Hstor Hrun. unfold exec in Hrun.
  eapply (for_range_invariant _ _ _ (λ op τ τ' Hτ Hop,
            exec_op_invariant P cfg op τ τ' Hzero Hstor Hop Hτ));
    [|exact Hrun].
  split_and!; [done|by exists []|by constructor|].
  by intros i j x y _ ?.
Qed.


End program_facts.
(** ** State classification and metadata extraction *)

(** C6.  The first line of the raw document decides the state.  When it is
    an annotation (it opens an HTML comment) the keywords [public],
    [private], [delete] are looked for in this order and the first one
    that occurs wins, whatever else the line holds; when none occurs, or
    the line is no annotation, the state is the default one. *)
Theorem postState_priority (md def fl : string) :
  is_first_line md fl →
  (is_annotation fl → occurs "public" fl → postState md def = "public") ∧
  (is_annotation fl → ¬ occurs "public" fl → occurs "private" fl →
     postState md def = "private") ∧
  (is_annotation fl → ¬ occurs "public" fl → ¬ occurs "private" fl →
     occurs "delete" fl → postState md def = "delete") ∧
  (is_annotation fl → ¬ occurs "public" fl → ¬ occurs "private" fl →
     ¬ occurs "delete" fl → postState md def = def) ∧
  (¬ is_annotation fl → postState md def = def).
Proof.
  intros Hfl. unfold postState. rewrite (firstLine_spec md fl Hfl).
  unfold is_annotation. rewrite <-(HasPrefix_iff fl "<!--").
  repeat split.
  - intros -> Hpub. by apply Contains_occurs in Hpub as ->.
  - intros -> Hpub Hpriv.
    apply Contains_not_occurs in Hpub as ->; [|done].
    by apply Contains_occurs in Hpriv as ->.
  - intros -> Hpub Hpriv Hdel.
    apply Contains_not_occurs in Hpub as ->; [|done].
    apply Contains_not_occurs in Hpriv as ->; [|done].
    by apply Contains_occurs in Hdel as ->.
  - intros -> Hpub Hpriv Hdel.
    apply Contains_not_occurs in Hpub as ->; [|done].
    apply Contains_not_occurs in Hpriv as ->; [|done].
    by apply Contains_not_occurs in Hdel as ->.
  - intros Hno. by destruct (HasPrefix fl "<!--").
Qed.

(** A line with both [public] and [delete] classifies as public. *)
Lemma postState_priority_witness :
  postState ("<!-- delete public -->" +:+ nl +:+ "text") "private" = "public".
Proof.
  refine (proj1 (postState_priority _ _ "<!-- delete public -->" _) _ _).
  - split.
    + apply Contains_not_occurs; [done|]. vm_compute. reflexivity.
    + right. by exists "text".
  - by exists " delete public -->".
  - by exists "<!-- delete ", " -->".
Defined.

(** C9.  On the page rendered for
    [# Title\n\n![img](a.png)\n\nFirst real paragraph.] the extraction
    gives the title [Title], the paragraph [First real paragraph.] as the
    excerpt (the paragraph that holds the image is passed over) and
    [a.png] as the banner source. *)
Theorem extractTitleAndBody_example :
  extractH1Title example_html = "Title" ∧
  extractFirstParagraph example_html = Some "<p>First real paragraph.</p>" ∧
  extractFirstImage example_html = "a.png" ∧
  extractTitleAndBody example_html
    = Some ("Title", "<p>First real paragraph.</p>", "a.png").
Proof. repeat split; vm_compute; reflexivity. Qed.

(** ** The order of the index *)

Section order_theorems.
Context `{GoLibs}.

(** C4.  Whatever sequence of full rebuilds, pushes, batch extractions and
    changes of the world the program goes through from its start, after
    each of them the index is ordered by [Mtime], latest first.  (A push
    leaves the header [posts] as it was and writes through it; the order
    survives because what the header shows afterwards is a sorted prefix,
    or the sorted rest followed by the former last post.) *)
Theorem index_sorted_after_every_operation
    (w : World) (cfg : Config) (ops : list Op) (σ : GoState) :
  exec ops (boot w cfg) = Done tt σ → sorted_by_Mtime_desc (index σ).
Proof.
  intros Hrun. by eapply (exec_invariant (λ _, True)).
Qed.

(** X4.  The order is kept from any state whose index is ordered, not
    only from the start of the program: an index loaded ordered from the
    index file stays ordered through every sequence of operations. *)
Theorem index_sorted_preserved (σ0 : GoState) (ops : list Op) (σ : GoState) :
  slice_wf (heap σ0) (posts σ0) →
  sorted_by_Mtime_desc (index σ0) →
  exec ops σ0 = Done tt σ →
  sorted_by_Mtime_desc (index σ).
Proof.
  intros Hwf Hs Hrun. unfold exec in Hrun.
  eapply (for_range_invariant _ _ _ (λ op τ τ' Hτ Hop,
            exec_op_invariant (λ _, True) (config σ0) op τ τ' I
              (λ _ _ _, I) Hop Hτ));
    [|exact Hrun].
  split_and!; [done..|by apply Forall_true|done].
Qed.

End order_theorems.

Lemma index_sorted_after_every_operation_witness :
  ∃ σ, exec example_ops (boot example_world example_config) = Done tt σ ∧
       length (index σ) = 2 ∧ sorted_by_Mtime_desc (index σ).
Proof.
  eexists. split; [vm_compute; reflexivity|]. split; [reflexivity|].
  eapply (index_sorted_after_every_operation example_world example_config
            example_ops).
  vm_compute. reflexivity.
Defined.

Lemma index_sorted_preserved_witness :
  ∃ σ, exec [OpGitUpdate "/a/git-receive-pack" "a"] tie_state = Done tt σ ∧
       length (index σ) = 2 ∧ sorted_by_Mtime_desc (index σ).
Proof.
  destruct (exec [OpGitUpdate "/a/git-receive-pack" "a"] tie_state)
    as [[] σ| |] eqn:Hrun; [|vm_compute in Hrun; discriminate..].
  exists σ. split; [done|]. split.
  - vm_compute in Hrun. by simplify_eq.
  - eapply (index_sorted_preserved tie_state); [| |exact Hrun].
    + exists [tie_a; tie_b]. repeat split. simpl. lia.
    + intros [|[|i]] [|[|j]] x y Hij Hx Hy; simplify_eq/=; try lia.
      reflexivity.
Defined.

(** ** The states of the stored records *)

Section state_theorems.
Context `{GoLibs}.

(** C2, as the code has it.  From the start of the program and through
    any sequence of operations no record of the index has the state
    [delete].  A call of [updatePost] (a push, or the first pass of the
    full rebuild) stores nothing but [public], [private] and the
    configured default state: when the slice it is given has only such
    records, so have the slice it returns and what the old header shows.
    The default state is whatever string the configuration holds, so
    [public] and [private] are not the only states of the index. *)
Theorem stored_states :
  (∀ w cfg ops σ,
     exec ops (boot w cfg) = Done tt σ →
     Forall (λ p, State p ≠ "delete") (index σ)) ∧
  (∀ name s σ r σ',
     slice_wf (heap σ) s →
     Forall (state_ok (config σ)) (elems (heap σ) s) →
     updatePost name s σ = Done r σ' →
     Forall (state_ok (config σ)) (elems (heap σ') r) ∧
     Forall (state_ok (config σ)) (elems (heap σ') s)).
Proof.
  split.
  - intros w cfg ops σ Hrun.
    eapply (exec_invariant (λ p, State p ≠ "delete")); [done| |exact Hrun].
    by intros name post (_ & ? & _).
  - intros name s σ r σ' Hwf Hok Hrun.
    apply updatePost_Done in Hrun
      as (post & err & σ1 & Hget & Hh & Hr & _).
    destruct (heap_update_views (decision post err) name _ _ Hwf)
      as (_ & _ & Hviews).
    rewrite Hh, Hr.
    eapply update_views_Forall; [exact Hviews|exact Hok|].
    intros post' Hd.
    by destruct (decision_Some (config σ) _ _ _ _ _ _ Hget eq_refl Hd)
      as (_ & _ & ?).
Qed.

End state_theorems.

Lemma stored_states_counterexample :
  ∃ σ p, exec [OpCheckAllPosts] (boot example_world draft_config) = Done tt σ ∧
         p ∈ index σ ∧ State p = "draft" ∧
         State p ≠ "public" ∧ State p ≠ "private".
Proof.
  eexists _, _. split; [vm_compute; reflexivity|].
  split; [apply list_elem_of_here|done].
Defined.

Lemma stored_states_witness :
  ∃ σ, exec example_ops (boot example_world example_config) = Done tt σ ∧
       index σ ≠ [] ∧
       Forall (λ p, State p ≠ "delete") (index σ).
Proof.
  eexists. split; [vm_compute; reflexivity|]. split; [done|].
  eapply (proj1 stored_states example_world example_config example_ops).
  vm_compute. reflexivity.
Defined.

(** ** The batch extraction *)

Section extract_theorems.
Context `{GoLibs}.

Lemma extractGitData_clonable name σ readme date :
  gitFS (world σ) !! name = Some (GDir (Some readme) date) →
  extractGitData name σ
  = Done tt (set_world (set_dataFS <[name := DDir readme]>) σ).
Proof.
  intros Hg. unfold extractGitData, os_Stat_data, os_RemoveAll_data,
    git_clone, os_RemoveAll_dotgit, bind, gets, modify, ret.
  destruct σ as [[d g ck tk wr] pj cfg hp ps pub]. simpl in *.
  destruct (d !! name) eqn:Hd; simpl; rewrite Hg; simpl; [|done].
  unfold set_world, set_dataFS. simpl. by rewrite insert_delete_eq.
Qed.

Lemma extractGitData_not_clonable name σ :
  ¬ clonable (gitFS (world σ)) name →
  extractGitData name σ
  = Fatal "Failed to clone the repository"
      (set_world (set_dataFS (delete name)) σ).
Proof.
  intros Hg. unfold extractGitData, os_Stat_data, os_RemoveAll_data,
    git_clone, os_RemoveAll_dotgit, bind, gets, modify, ret, log_Fatalf.
  destruct σ as [[d g ck tk wr] pj cfg hp ps pub]. simpl in *.
  assert (match g !! name with
          | Some (GDir (Some _) _) => False
          | _ => True
          end) as Hcase.
  { destruct (g !! name) as [[|[r|] dt]|] eqn:E; try done.
    apply Hg. by exists r, dt. }
  destruct (d !! name) eqn:Hd; simpl;
    destruct (g !! name) as [[|[r|] dt]|]; try done;
    unfold set_world, set_dataFS; simpl; by rewrite delete_id.
Qed.

Lemma extract_loop_Done l σ :
  (∀ k, (k, true) ∈ l → clonable (gitFS (world σ)) k) →
  ∃ σ1, for_range l extract_body σ = Done tt σ1 ∧
        gitFS (world σ1) = gitFS (world σ) ∧
        (∀ k, (k, true) ∉ l →
              dataFS (world σ1) !! k = dataFS (world σ) !! k) ∧
        (∀ k readme date, (k, true) ∈ l →
              gitFS (world σ) !! k = Some (GDir (Some readme) date) →
              dataFS (world σ1) !! k = Some (DDir readme)).
Proof.
  revert σ. induction l as [|[name isdir] l IH]; intros σ Hall.
  - exists σ. split_and!; [done..|]. intros k ?? []%elem_of_nil.
  - rewrite for_range_cons. unfold bind, extract_body at 1. simpl.
    destruct isdir.
    + destruct (Hall name) as (readme & date & Hg); [left|].
      rewrite (extractGitData_clonable _ _ _ _ Hg).
      set (σ' := set_world (set_dataFS <[name := DDir readme]>) σ).
      destruct (IH σ') as (σ1 & Hrun & Hgit & Hframe & Hdone).
      { intros k Hk. apply Hall. by right. }
      exists σ1. split_and!; [done|done|..].
      * intros k Hk. rewrite Hframe by (intros ?; apply Hk; by right).
        subst σ'. simpl. apply lookup_insert_ne.
        intros ->. apply Hk. left.
      * intros k r dt Hk Hgk.
        destruct (decide ((k, true) ∈ l)) as [Hin|Hnin].
        { by eapply Hdone. }
        apply elem_of_cons in Hk as [[= ->]|?]; [|done].
        rewrite Hframe by done. subst σ'. simpl.
        rewrite lookup_insert_eq. congruence.
    + unfold ret. destruct (IH σ) as (σ1 & Hrun & Hgit & Hframe & Hdone).
      { intros k Hk. apply Hall. by right. }
      exists σ1. split_and!; [done|done|..].
      * intros k Hk. apply Hframe. intros ?; apply Hk; by right.
      * intros k r dt Hk Hgk.
        apply elem_of_cons in Hk as [[=]|?]. by eapply Hdone.
Qed.

Lemma os_ReadDir_repo_NoDup σ l :
  os_ReadDir_repo σ = Done l σ → NoDup l.*1.
Proof.
  unfold os_ReadDir_repo, gets. intros [= <-].
  rewrite <-list_fmap_compose.
  assert (fst ∘ prod_map id gentry_IsDir = (fst : string * gentry → string))
    as -> by done.
  rewrite merge_sort_Permutation. apply NoDup_fst_map_to_list.
Qed.

(** C8, as the code has it.  An extraction failure is not recovered: at
    the first repository of [git/] whose clone fails,
    [extractAllGitData] ends the process through [log.Fatalf].  The
    repositories listed before it have been extracted, and those listed
    after it are left as they were. *)
Theorem extractAllGitData_stops_at_first_failure σ l1 name l2 :
  os_ReadDir_repo σ = Done (l1 ++ (name, true) :: l2) σ →
  (∀ k, (k, true) ∈ l1 → clonable (gitFS (world σ)) k) →
  ¬ clonable (gitFS (world σ)) name →
  ∃ σ', extractAllGitData σ = Fatal "Failed to clone the repository" σ' ∧
        (∀ k readme date, (k, true) ∈ l1 →
           gitFS (world σ) !! k = Some (GDir (Some readme) date) →
           dataFS (world σ') !! k = Some (DDir readme)) ∧
        (∀ k isdir, (k, isdir) ∈ l2 →
           dataFS (world σ') !! k = dataFS (world σ) !! k).
Proof.
  intros Hdir Hok Hbad.
  pose proof (os_ReadDir_repo_NoDup _ _ Hdir) as Hnd.
  unfold extractAllGitData, bind. rewrite Hdir.
  change (λ file : string * bool, if file.2 then extractGitData file.1 else ret ())
    with extract_body.
  destruct (extract_loop_Done l1 σ Hok) as (σ1 & Hrun & Hgit & Hframe & Hdone).
  assert (∀ (l' : list (string * bool)) τ,
            for_range (l1 ++ l') extract_body τ
            = bind (for_range l1 extract_body) (λ _, for_range l' extract_body) τ)
    as Happ.
  { clear. induction l1 as [|x l1 IH]; intros l' τ; simpl.
    - done.
    - unfold bind in *. destruct (extract_body x τ); [|done..]. apply IH. }
  rewrite Happ. unfold bind at 1. rewrite Hrun.
  rewrite for_range_cons. unfold bind, extract_body at 1. simpl.
  rewrite extractGitData_not_clonable by (by rewrite Hgit).
  eexists. split; [done|]. simpl.
  rewrite fmap_app, fmap_cons in Hnd. simpl in Hnd.
  apply NoDup_app in Hnd as (Hnd1 & Hdisj & Hnd2).
  apply NoDup_cons in Hnd2 as [Hname _].
  split.
  - intros k r dt Hk Hgk. rewrite lookup_delete_ne; [by eapply Hdone|].
    intros ->. apply (Hdisj k); [|left].
    apply list_elem_of_fmap. by exists (k, true).
  - intros k isdir Hk.
    assert (k ∈ l2.*1) as Hk2.
    { apply list_elem_of_fmap. by exists (k, isdir). }
    rewrite lookup_delete_ne by (by intros ->).
    apply Hframe. intros Hk1. apply (Hdisj k); [|by right].
    apply list_elem_of_fmap. by exists (k, true).
Qed.

End extract_theorems.

Lemma extractAllGitData_counterexample :
  ∃ σ', exec [OpExtractAllGitData; OpCheckAllPosts]
          (boot broken_world example_config)
        = Fatal "Failed to clone the repository" σ' ∧
        clonable (gitFS (world σ')) "c" ∧
        dataFS (world σ') !! "c" = None ∧
        index σ' = [].
Proof.
  eexists. split; [vm_compute; reflexivity|].
  split; [|done]. by eexists _, _.
Defined.

Lemma extractAllGitData_stops_witness :
  ∃ σ', extractAllGitData (boot broken_world example_config)
        = Fatal "Failed to clone the repository" σ' ∧
        dataFS (world σ') !! "a" = Some (DDir (Some ("hello" +:+ nl))) ∧
        dataFS (world σ') !! "c" = None.
Proof.
  destruct (extractAllGitData_stops_at_first_failure
              (boot broken_world example_config)
              [("a", true)] "b" [("c", true)]) as (σ' & Hrun & Ha & Hc).
  - vm_compute. reflexivity.
  - intros k ->%list_elem_of_singleton%(inj (λ x, (x, true))).
    by eexists _, _.
  - intros (r & d & Hb). vm_compute in Hb. discriminate.
  - exists σ'. split_and!; [done|by eapply Ha; [left|]|].
    rewrite (Hc "c" true) by left. done.
Defined.

(** ** The record of a readable document *)

Section banner_theorems.
Context `{GoLibs}.

Lemma substring_length n m s :
  String.length (String.substring n m s) = m `min` (String.length s - n).
Proof.
  revert n m. induction s as [|c s IH]; intros [|n] [|m];
    cbn [String.substring String.length]; rewrite ?IH; lia.
Qed.

Lemma from_length k s : String.length (from k s) = String.length s - k.
Proof. unfold from. rewrite substring_length. lia. Qed.

Lemma Index_bound s sub i :
  Index s sub = Some i → i + String.length sub ≤ String.length s.
Proof.
  unfold Index. intros Hi.
  destruct (decide (sub = "")) as [->|Hne].
  - destruct s; simpl in Hi; simplify_eq; simpl; lia.
  - apply String.index_correct1 in Hi.
    apply (f_equal String.length) in Hi. rewrite substring_length in Hi.
    assert (String.length sub ≠ 0) by (by destruct sub).
    lia.
Qed.

(** The paragraph scan gives no result only when it reaches a [<p>] with
    no [</p>] after it, where the Go loop runs for ever: the rounds
    allowed are never used up. *)
Lemma extractFirstParagraph_loop_None rounds html index body :
  String.length html ≤ rounds + index →
  extractFirstParagraph_loop rounds html index body = None →
  ∃ i p, Index (from i html) "<p>" = Some p ∧
         Index (from (i + p) html) "</p>" = None.
Proof.
  revert index body. induction rounds as [|rounds IH]; intros index body Hlen;
    simpl;
    destruct (Index (from index html) "<p>") as [p|] eqn:Hp; try done;
    destruct (Index (from (index + p) html) "</p>") as [e|] eqn:He;
    try (intros _; by exists index, p);
    destruct (Contains _ "<img"); try done;
    apply Index_bound in He; rewrite from_length in He; simpl in He.
  - lia.
  - apply IH. lia.
Qed.

Lemma extractFirstParagraph_None html :
  extractFirstParagraph html = None →
  ∃ i p, Index (from i html) "<p>" = Some p ∧
         Index (from (i + p) html) "</p>" = None.
Proof. apply extractFirstParagraph_loop_None. lia. Qed.

Lemma extractFirstImage_no_image html :
  ¬ occurs "<img" html → extractFirstImage html = "".
Proof.
  intros Hno. apply Contains_not_occurs in Hno; [|done].
  unfold Contains in Hno. unfold extractFirstImage, Split.
  destruct (String.length html); simpl; [done|].
  by destruct (Index html "<img").
Qed.

(** C10.  For a post whose [README.md] is readable, [getPostInfo] returns
    (unless the paragraph scan of the rendered page runs for ever) a
    record whose banner is ["data/" + name + "/" + s], where [s] is the
    source of the first image of the page: the banner is never empty, and
    is ["data/" + name + "/"] when the page has no image.  The stub of a
    post with no readable document has the empty banner. *)
Theorem getPostInfo_banner name σ :
  match dataFS (world σ) !! name with
  | Some (DDir (Some md)) =>
      let html := blackfriday_Run md in
      (extractFirstParagraph html = None ∧ getPostInfo name σ = Hang) ∨
      (∃ post σ',
         getPostInfo name σ = Done (post, None) σ' ∧
         Banner post = "data/" +:+ name +:+ "/" +:+ extractFirstImage html ∧
         Banner post ≠ "" ∧
         (¬ occurs "<img" html → Banner post = "data/" +:+ name +:+ "/"))
  | Some _ =>
      ∃ post σ', getPostInfo name σ = Done (post, None) σ' ∧ Banner post = ""
  | None => ∃ err, getPostInfo name σ = Done (Post_zero, Some err) σ
  end.
Proof.
  rewrite getPostInfo_eq.
  destruct (dataFS (world σ) !! name) as [[|[md|]]|]; simpl.
  - by eexists _, _.
  - destruct (extractFirstParagraph (blackfriday_Run md)) as [body|];
      [right|by left].
    eexists _, _. split; [done|]. simpl. split_and!; [done|done|].
    intros Hno. rewrite (extractFirstImage_no_image _ Hno).
    by rewrite !string_app_nil_r.
  - by eexists _, _.
  - by eexists.
Qed.

End banner_theorems.

(** ** The sort *)

Section sort_theorems.
Context `{GoLibs}.

Lemma sortPosts_Done s σ :
  sortPosts s σ = Done s (set_heap (heap_sort (heap σ) s Mtime_less) σ).
Proof. done. Qed.

Lemma NoDup_fmap_elem_inj {A B} (f : A → B) (l : list A) x y :
  NoDup (f <$> l) → x ∈ l → y ∈ l → f x = f y → x = y.
Proof.
  induction l as [|z l IH]; intros Hnd Hx Hy Hf; [by apply elem_of_nil in Hx|].
  rewrite fmap_cons in Hnd. apply NoDup_cons in Hnd as [Hz Hnd].
  apply elem_of_cons in Hx as [->|Hx]; apply elem_of_cons in Hy as [->|Hy];
    auto.
  - destruct Hz. rewrite Hf. by apply list_elem_of_fmap_2.
  - destruct Hz. rewrite <-Hf. by apply list_elem_of_fmap_2.
Qed.

Lemma not_older_antisym x y : not_older x y → not_older y x → Mtime x = Mtime y.
Proof. unfold not_older. intros ??. by apply (anti_symm String.le). Qed.

(** C5, as the code has it.  [sortPosts] reorders the elements of the
    slice where they stand, latest first, and keeps them all.
    [sort.Slice] promises no more: it is not a stable sort.  When no two
    posts have the same [Mtime], the result is the only ordered
    arrangement of them. *)
Theorem sortPosts_order (s : slice) (σ : GoState) :
  slice_wf (heap σ) s →
  ∃ σ', sortPosts s σ = Done s σ' ∧
        elems (heap σ') s ≡ₚ elems (heap σ) s ∧
        sorted_by_Mtime_desc (elems (heap σ') s) ∧
        (NoDup (Mtime <$> elems (heap σ) s) →
         ∀ l, l ≡ₚ elems (heap σ) s → sorted_by_Mtime_desc l →
              l = elems (heap σ') s).
Proof.
  intros Hwf. eexists. split; [apply sortPosts_Done|].
  destruct (heap_sort_wf _ _ Hwf) as [_ He]. cbn [heap set_heap]. rewrite He.
  split_and!.
  - apply sort_Slice_perm.
  - apply sortM_sorted.
  - intros Hnd l Hl Hs.
    eapply (StronglySorted_unique_strong not_older).
    + intros x y Hx Hy Hxy Hyx.
      eapply (NoDup_fmap_elem_inj Mtime); [exact Hnd| | |].
      * by rewrite <-Hl.
      * unfold sortM in Hy. by rewrite sort_Slice_perm in Hy.
      * by apply not_older_antisym.
    + by apply sorted_by_Mtime_desc_strongly.
    + apply sorted_by_Mtime_desc_strongly, sortM_sorted.
    + rewrite Hl. symmetry. apply sort_Slice_perm.
Qed.

End sort_theorems.

(** [sort.Slice] on the thirteen posts: [b], the latest, comes first, and
    the partition around the post in the middle, [g], has brought [g]
    before [a], [c], [d], [e] and [f], which are of the same second and
    stood before it. *)
Lemma sortPosts_order_counterexample :
  (∀ xorshift_Next,
     GoSort.Slice Mtime_less xorshift_Next thirteen = Some thirteen_sorted ∧
     ∃ σ', @sortPosts (go_libs xorshift_Next) (Slice 1 13 13) thirteen_state
             = Done (Slice 1 13 13) σ' ∧
           elems (heap σ') (Slice 1 13 13) = thirteen_sorted) ∧
  elems (heap thirteen_state) (Slice 1 13 13) = thirteen ∧
  (thirteen !! 0 = Some (same_second "a") ∧
   thirteen !! 6 = Some (same_second "g")) ∧
  (thirteen_sorted !! 1 = Some (same_second "g") ∧
   thirteen_sorted !! 6 = Some (same_second "a")) ∧
  Mtime (same_second "a") = Mtime (same_second "g").
Proof.
  split; [|done]. intros next.
  assert (GoSort.Slice Mtime_less next thirteen = Some thirteen_sorted) as Hs
    by (vm_compute; reflexivity).
  split; [done|]. eexists. split; [apply (@sortPosts_Done (go_libs next))|].
  cbn [heap set_heap].
  destruct (@heap_sort_wf (go_libs next) (heap thirteen_state) (Slice 1 13 13))
    as [_ ->].
  { exists thirteen. repeat split. simpl. lia. }
  change (Slice_in_order next Mtime_less thirteen = thirteen_sorted).
  unfold Slice_in_order. rewrite Hs. vm_compute. reflexivity.
Defined.

Lemma sortPosts_order_witness :
  ∃ σ', sortPosts (Slice 1 2 2) tie_state = Done (Slice 1 2 2) σ' ∧
        sorted_by_Mtime_desc (elems (heap σ') (Slice 1 2 2)).
Proof.
  destruct (sortPosts_order (Slice 1 2 2) tie_state) as (σ' & ? & _ & ? & _).
  - exists [tie_a; tie_b]. repeat split. simpl. lia.
  - by exists σ'.
Defined.

(** ** The push hook and the index file *)

Section push_facts.
Context `{GoLibs}.

(** A removal through the header of the caller: the record that was last
    is still seen through it, and the length is the same.  So a push
    that removes the last post of the index (the oldest one, or the only
    one) leaves it in [posts]. *)
Lemma update_views_delete_keeps_last name v vr vs x :
  update_views None name v vr vs →
  last v = Some x → is_Some (find_name name v) →
  x ∈ vs ∧ length vs = length v.
Proof.
  intros Hu Hx [j Hj]. destruct Hu as [i y _ Hi Hy| | | |]; simplify_eq.
  assert (i < length v) as Hlt.
  { by destruct (find_name_Some _ _ _ Hi) as (? & _ & _ & ?). }
  split.
  - apply elem_of_app. right. apply list_elem_of_here.
  - rewrite length_app, sortM_length, length_delete by (by apply lookup_lt_is_Some).
    simpl. lia.
Qed.

(** What [updatePost] does when the write of the index file fails: the
    file keeps its content, and nothing of the failure is in what the
    call returns or leaves in memory.  [checkAllPosts] returns the error
    of its own write. *)
Lemma after_decision_writable d name w :
  writable (after_decision d name w) = writable w.
Proof. by destruct d. Qed.

Lemma updatePost_write_error name s σ r σ' :
  updatePost name s σ = Done r σ' → writable (world σ') = false →
  postListJson σ' = postListJson σ ∧
  publicPosts σ' = filter (λ p, is_public p = true) (elems (heap σ') r).
Proof.
  intros Hrun Hw.
  apply updatePost_Done in Hrun
    as (post & err & σ1 & _ & _ & _ & _ & _ & Hpub & Hworld & Hfile).
  rewrite Hworld, after_decision_writable in Hw. rewrite Hw in Hfile.
  done.
Qed.

Lemma checkAllPosts_write_error σ err σ' :
  checkAllPosts σ = Done err σ' →
  err = if writable (world σ') then None else Some ErrWrite.
Proof.
  unfold checkAllPosts. intros Hrun.
  apply bind_Done in Hrun as (files & σ0 & _ & Hrun).
  apply bind_Done in Hrun as ([] & σ1 & _ & Hrun).
  apply bind_Done in Hrun as ([] & σ2 & _ & Hrun).
  unfold sortPosts, sort_in_place, derive_publicPosts, slice_elems,
    os_WriteFile_postList, bind, gets, modify, ret in Hrun.
  simpl in Hrun.
  destruct (writable (world σ2)) eqn:Hw; simplify_eq/=; by rewrite Hw.
Qed.
End push_facts.

(** C1.  The only post of the index is removed by a push whose first line
    is [<!-- delete -->]: both directories are gone and the post is in
    neither [publicPosts] nor the index file, but the global [posts]
    still holds its record, because [gitUpdate] drops the slice
    [updatePost] returns. *)
Theorem gitUpdate_delete_leaves_record :
  ∃ σ p, exec delete_ops (boot single_world example_config) = Done tt σ ∧
         index σ = [p] ∧ Name p = "a" ∧
         publicPosts σ = [] ∧ postListJson σ = Some [] ∧
         dataFS (world σ) !! "a" = None ∧ gitFS (world σ) !! "a" = None.
Proof.
  eexists _, _. split; [vm_compute; reflexivity|].
  split; [reflexivity|]. done.
Qed.

(** C3.  The first push of a public post to a program started on an empty
    index: [publicPosts] holds the post and the index does not, so the
    public subset is not the public part of the index. *)
Theorem gitUpdate_publicPosts_not_of_index :
  ∃ σ p, push "a" (boot single_world example_config) = Done tt σ ∧
         index σ = [] ∧ publicPosts σ = [p] ∧ Name p = "a" ∧
         publicPosts σ ≠ filter (λ p, is_public p = true) (index σ).
Proof.
  eexists _, _. split; [vm_compute; reflexivity|].
  split; [reflexivity|]. split; [reflexivity|]. done.
Qed.

(** C7.  With a disk that refuses the write, the full rebuild returns the
    error, and a push returns as it does on success: the index file is
    not written and nothing says so. *)
Theorem updatePost_write_error_dropped :
  (∃ σ, checkAllPosts (boot readonly_world example_config)
        = Done (Some ErrWrite) σ) ∧
  (∃ r σ p, updatePost "a" nil_slice (boot readonly_world example_config)
            = Done r σ ∧
            elems (heap σ) r = [p] ∧ Name p = "a" ∧ publicPosts σ = [p] ∧
            postListJson σ = None).
Proof.
  split.
  - eexists. vm_compute. reflexivity.
  - eexists _, _, _. split; [vm_compute; reflexivity|].
    split; [reflexivity|]. done.
Qed.

(** ** [updatePost] and [checkAllPosts] on the slice they work on

    What the claims on the index say holds of the slice [updatePost]
    returns, and of the index wherever that slice is assigned to [posts],
    as [checkAllPosts] does. *)

Section function_level.
Context `{GoLibs}.

(** X1.  The slice [updatePost] returns is ordered by [Mtime], latest
    first, and [publicPosts] is its public part, in its order. *)
Theorem updatePost_returns_ordered name s σ r σ' :
  slice_wf (heap σ) s →
  updatePost name s σ = Done r σ' →
  slice_wf (heap σ') r ∧
  sorted_by_Mtime_desc (elems (heap σ') r) ∧
  publicPosts σ' = filter (λ p, is_public p = true) (elems (heap σ') r).
Proof.
  intros Hwf Hrun.
  apply updatePost_Done in Hrun
    as (post & err & σ1 & _ & Hh & Hr & _ & _ & Hpub & _).
  destruct (heap_update_views (decision post err) name _ _ Hwf)
    as (Hwfr & _ & Hviews).
  rewrite Hpub, Hh, Hr. split_and!; [done| |done].
  eapply proj1, update_views_sorted. exact Hviews.
Qed.

(** X2.  After a full rebuild the index is ordered by [Mtime], latest
    first, and [publicPosts] is its public part, in its order. *)
Theorem checkAllPosts_index σ err σ' :
  slice_wf (heap σ) (posts σ) →
  checkAllPosts σ = Done err σ' →
  sorted_by_Mtime_desc (index σ') ∧
  publicPosts σ' = filter (λ p, is_public p = true) (index σ').
Proof.
  intros Hwf Hrun.
  destruct (checkAllPosts_Done (λ _, True) _ _ _ Hrun Hwf)
    as (_ & _ & _ & ? & ?); try done.
  by apply Forall_true.
Qed.

Lemma find_name_delete name v i :
  NoDup (Name <$> v) → find_name name v = Some i →
  Forall (λ p, Name p ≠ name) (delete i v).
Proof.
  intros Hnd Hi.
  destruct (find_name_Some _ _ _ Hi) as (x & Hx & <- & Hlt).
  rewrite <-(take_drop_middle v i x Hx) in Hnd.
  rewrite delete_take_drop.
  rewrite fmap_app, fmap_cons in Hnd.
  apply NoDup_app in Hnd as (_ & Hdisj & Hnd).
  apply NoDup_cons in Hnd as [Hnot _].
  apply Forall_app. split; apply Forall_forall; intros p Hp Heq.
  - eapply Hdisj; [|left]. rewrite <-Heq. by apply list_elem_of_fmap_2.
  - apply Hnot. rewrite <-Heq. by apply list_elem_of_fmap_2.
Qed.

(** X3.  At the level of [updatePost]: for an index of distinct names and a
    readable document whose first line is [<!-- delete -->], the slice
    returned and [publicPosts] hold no entry of that name, and both
    directories are gone. *)
Theorem updatePost_delete name s σ r σ' md :
  slice_wf (heap σ) s →
  NoDup (Name <$> elems (heap σ) s) →
  dataFS (world σ) !! name = Some (DDir (Some md)) →
  is_first_line md "<!-- delete -->" →
  updatePost name s σ = Done r σ' →
  Forall (λ p, Name p ≠ name) (elems (heap σ') r) ∧
  Forall (λ p, Name p ≠ name) (publicPosts σ') ∧
  dataFS (world σ') !! name = None ∧
  gitFS (world σ') !! name = None.
Proof.
  intros Hwf Hnd Hdata Hfl Hrun.
  apply updatePost_Done in Hrun
    as (post & err & σ1 & Hget & Hh & Hr & _ & _ & Hpub & Hworld & _).
  assert (decision post err = None) as Hd.
  { rewrite getPostInfo_eq, Hdata in Hget. simpl in Hget.
    destruct (extractFirstParagraph _); [|done]. simplify_eq.
    unfold decision, postState. simpl. rewrite (firstLine_spec _ _ Hfl).
    done. }
  rewrite Hd in *.
  destruct (heap_update_views None name _ _ Hwf) as (_ & _ & Hviews).
  rewrite <-Hh, <-Hr in Hviews.
  assert (Forall (λ p, Name p ≠ name) (elems (heap σ') r)) as Hr'.
  { inversion Hviews as [i x _ Hi _ Hvr|_ Hi Hvr| | |]; simplify_eq.
    - apply sortM_Forall. by apply find_name_delete.
    - apply sortM_Forall. by apply find_name_None. }
  split_and!; [done| |rewrite Hworld..].
  - rewrite Hpub. apply Forall_forall. intros p [_ Hp]%list_elem_of_filter.
    by eapply (proj1 (Forall_forall _ _) Hr').
  - simpl. apply lookup_delete_eq.
  - simpl. apply lookup_delete_eq.
Qed.
End function_level.

Lemma updatePost_returns_ordered_witness :
  ∃ r σ', updatePost "a" nil_slice (boot single_world example_config)
          = Done r σ' ∧
          sorted_by_Mtime_desc (elems (heap σ') r).
Proof.
  eexists _, _. split; [vm_compute; reflexivity|].
  eapply (updatePost_returns_ordered "a" nil_slice
            (boot single_world example_config)).
  - by exists [].
  - vm_compute. reflexivity.
Defined.

Lemma checkAllPosts_index_witness :
  ∃ err σ', checkAllPosts (boot single_world example_config) = Done err σ' ∧
            length (index σ') = 1 ∧ sorted_by_Mtime_desc (index σ').
Proof.
  eexists _, _. split; [vm_compute; reflexivity|]. split; [reflexivity|].
  eapply (checkAllPosts_index (boot single_world example_config)).
  - by exists [].
  - vm_compute. reflexivity.
Defined.

Lemma updatePost_delete_witness :
  ∃ r σ', updatePost "a" (Slice 1 2 2) delete_state = Done r σ' ∧
          Forall (λ p, Name p ≠ "a") (elems (heap σ') r) ∧
          dataFS (world σ') !! "a" = None.
Proof.
  destruct (updatePost "a" (Slice 1 2 2) delete_state) as [r σ'| |] eqn:Hrun;
    [|vm_compute in Hrun; discriminate..].
  exists r, σ'. split; [done|].
  destruct (updatePost_delete "a" (Slice 1 2 2) delete_state r σ'
              ("<!-- delete -->" +:+ nl))
    as (Hr & _ & Hd & _); [..|exact Hrun|by split].
  - exists [tie_a; tie_b]. repeat split. simpl. lia.
  - apply (bool_decide_unpack _). vm_compute. exact I.
  - reflexivity.
  - split.
    + apply Contains_not_occurs; [done|]. vm_compute. reflexivity.
    + right. by exists "".
Defined.

(** ** Occurrences, first occurrences and pieces of strings *)

Section occurrence_facts.

Lemma has_char_app c a b : has_char c (a +:+ b) = has_char c a || has_char c b.
Proof.
  induction a as [|x a IH]; [done|].
  rewrite string_app_cons. simpl. by rewrite IH, orb_assoc.
Qed.

Lemma substring_0_all s : String.substring 0 (String.length s) s = s.
Proof. induction s as [|c s IH]; [done|]. simpl. by rewrite IH. Qed.

Lemma substring_nil n m : String.substring n m "" = "".
Proof. by destruct n, m. Qed.

Lemma from_0 s : from 0 s = s.
Proof. unfold from. rewrite Nat.sub_0_r. apply substring_0_all. Qed.

Lemma from_cons k c s : from (S k) (String c s) = from k s.
Proof. done. Qed.

Lemma from_app a s : from (String.length a) (a +:+ s) = s.
Proof.
  induction a as [|c a IH]; [apply from_0|].
  rewrite string_app_cons. simpl String.length. by rewrite from_cons.
Qed.

Lemma substring_from i j n s :
  String.substring j n (from i s) = String.substring (i + j) n s.
Proof.
  revert i. induction s as [|c s IH]; intros i.
  - unfold from. by rewrite !substring_nil.
  - destruct i as [|i]; [by rewrite from_0|].
    rewrite from_cons. simpl. apply IH.
Qed.

Lemma from_from i j s : from j (from i s) = from (i + j) s.
Proof.
  unfold from at 1 3. rewrite substring_from, from_length.
  f_equal. lia.
Qed.

Lemma substring_0_app_more a s k :
  String.substring 0 (String.length a + k) (a +:+ s)
  = a +:+ String.substring 0 k s.
Proof.
  induction a as [|c a IH]; [done|].
  rewrite !string_app_cons. simpl. by rewrite IH.
Qed.

(** A string is what comes before a position and what comes from it. *)
Lemma from_split k s :
  ∃ u, s = u +:+ from k s ∧ String.length u = k `min` String.length s.
Proof.
  revert k. induction s as [|c s IH]; intros k.
  - exists "". unfold from. rewrite substring_nil. split; [done|]. simpl. lia.
  - destruct k as [|k].
    + exists "". rewrite from_0. by split.
    + destruct (IH k) as (u & Hu & Hlen). exists (String c u).
      rewrite from_cons, string_app_cons, <-Hu. split; [done|]. simpl. lia.
Qed.

Lemma from_app_le k a s :
  k ≤ String.length a → from k (a +:+ s) = from k a +:+ s.
Proof.
  revert k. induction a as [|c a IH]; intros k Hk.
  - simpl in Hk. replace k with 0 by lia. by rewrite !from_0.
  - destruct k as [|k]; [by rewrite !from_0|].
    rewrite string_app_cons, !from_cons. apply IH. simpl in Hk. lia.
Qed.

Lemma occurs_app_r sub a s : occurs sub s → occurs sub (a +:+ s).
Proof.
  intros (u & v & ->). exists (a +:+ u), v. by rewrite string_app_assoc.
Qed.

Lemma occurs_app_l sub s b : occurs sub s → occurs sub (s +:+ b).
Proof.
  intros (u & v & ->). exists u, (v +:+ b). by rewrite !string_app_assoc.
Qed.

Lemma occurs_from sub k s : occurs sub (from k s) → occurs sub s.
Proof.
  intros Ho. destruct (from_split k s) as (u & Hu & _). rewrite Hu.
  by apply occurs_app_r.
Qed.

(** An occurrence in [String x s] is at its start or in [s]. *)
Lemma occurs_cons sub x s :
  occurs sub (String x s) →
  String.prefix sub (String x s) = true ∨ occurs sub s.
Proof.
  intros ([|y a] & b & Heq).
  - left. rewrite Heq, string_app_nil_l. apply prefix_app.
  - right. rewrite string_app_cons in Heq. injection Heq as _ ->.
    by exists a, b.
Qed.

(** When [sub] starts [a] followed by [d]..., it lies within [a] or runs
    over [d]. *)
Lemma prefix_app_cases sub a d s :
  String.prefix sub (a +:+ String d s) = true →
  (∃ r, a = sub +:+ r) ∨ (∃ v, sub = a +:+ String d v).
Proof.
  revert a. induction sub as [|c sub IH]; intros a Hp.
  - left. by exists a.
  - destruct a as [|x a].
    + right. rewrite string_app_nil_l in Hp. simpl in Hp.
      destruct (ascii_dec c d) as [->|]; [|done]. by exists sub.
    + rewrite string_app_cons in Hp. simpl in Hp.
      destruct (ascii_dec c x) as [->|]; [|done].
      destruct (IH a Hp) as [[r ->]|[v ->]]; [left|right].
      * by exists r.
      * by exists v.
Qed.

Lemma Index_cons x s sub :
  Index (String x s) sub
  = if String.prefix sub (String x s) then Some 0 else S <$> Index s sub.
Proof.
  unfold Index. simpl. destruct sub as [|c sub]; [done|].
  destruct (ascii_dec c x); [|by destruct (String.index 0 _ s)].
  destruct (String.prefix sub s); [done|].
  by destruct (String.index 0 _ s).
Qed.

(** The search for [c r] passes over a text [a] in which it does not
    occur, when what follows [a] starts with a byte that is not in [r]. *)
Lemma Index_skip a d s c r :
  has_char d r = false → ¬ occurs (String c r) a →
  Index (a +:+ String d s) (String c r)
  = (λ i, String.length a + i) <$> Index (String d s) (String c r).
Proof.
  intros Hd. induction a as [|x a IH]; intros Hno.
  - rewrite string_app_nil_l. by destruct (Index _ _).
  - rewrite string_app_cons, Index_cons.
    destruct (String.prefix (String c r) (String x (a +:+ String d s)))
      eqn:Hp.
    + rewrite <-string_app_cons in Hp.
      apply prefix_app_cases in Hp as [[q Hq]|[v Hv]].
      * destruct Hno. exists "", q. by rewrite string_app_nil_l.
      * rewrite string_app_cons in Hv. injection Hv as _ ->.
        rewrite has_char_app in Hd. simpl in Hd.
        rewrite Ascii.eqb_refl, orb_true_r in Hd. done.
    + rewrite IH.
      * destruct (Index (String d s) (String c r)); [|done]. done.
      * intros (u & v & ->). apply Hno. exists (String x u), v.
        by rewrite string_app_cons.
Qed.

(** The first occurrence of [c r], whose first byte is not repeated in
    it, after a text in which it does not occur. *)
Lemma Index_first a c r b :
  has_char c r = false → ¬ occurs (String c r) a →
  Index (a +:+ String c r +:+ b) (String c r) = Some (String.length a).
Proof.
  intros Hc Hno. rewrite string_app_cons, Index_skip by done.
  rewrite Index_cons, <-string_app_cons, prefix_app. simpl.
  f_equal. lia.
Qed.

Lemma rev_app_spec a b : String.rev_app a b = String.rev a +:+ b.
Proof.
  revert b. unfold String.rev.
  induction a as [|c a IH]; intros b; [done|]. simpl.
  rewrite IH, (IH (String c "")), string_app_assoc. done.
Qed.

Lemma rev_app a b : String.rev (a +:+ b) = String.rev b +:+ String.rev a.
Proof.
  induction a as [|c a IH].
  - by rewrite string_app_nil_l, string_app_nil_r.
  - rewrite string_app_cons. unfold String.rev at 1 3. simpl.
    rewrite !rev_app_spec, IH. by rewrite string_app_assoc.
Qed.

Lemma rev_rev a : String.rev (String.rev a) = a.
Proof.
  induction a as [|c a IH]; [done|].
  unfold String.rev at 2. simpl. rewrite rev_app_spec, rev_app, IH. done.
Qed.

(** [strings.TrimSpace] leaves what a tag opens and a tag closes as it
    is. *)
Lemma TrimLeft_go_lt fuel s :
  TrimLeft_go fuel spaces (String "<" s) = String "<" s.
Proof. destruct fuel; [done|]. simpl. vm_compute. reflexivity. Qed.

Lemma TrimLeft_go_gt fuel s :
  TrimLeft_go fuel (String.rev <$> spaces) (String ">" s) = String ">" s.
Proof. destruct fuel; [done|]. simpl. vm_compute. reflexivity. Qed.

Lemma rev_snoc s c : String.rev (s +:+ String c "") = String c (String.rev s).
Proof. by rewrite rev_app. Qed.

Lemma TrimSpace_tag s :
  TrimSpace ("<" +:+ s +:+ ">") = "<" +:+ s +:+ ">".
Proof.
  unfold TrimSpace. rewrite string_app_cons, string_app_nil_l.
  rewrite TrimLeft_go_lt.
  rewrite <-(string_app_cons "<" s ">"), rev_snoc, TrimLeft_go_gt.
  by rewrite <-rev_snoc, rev_rev.
Qed.

End occurrence_facts.

(** ** Pushes, one post at a time *)

Section push_properties.
Context `{GoLibs}.

(** [getPostInfo] reads the two trees and the configuration; of the world
    it changes the clock only. *)
Lemma getPostInfo_world name σ r σ1 :
  getPostInfo name σ = Done r σ1 →
  dataFS (world σ1) = dataFS (world σ) ∧
  gitFS (world σ1) = gitFS (world σ) ∧
  writable (world σ1) = writable (world σ) ∧
  config σ1 = config σ ∧ heap σ1 = heap σ ∧ posts σ1 = posts σ.
Proof.
  rewrite getPostInfo_eq. unfold latestCommitDate.
  destruct (dataFS (world σ) !! name) as [[|[md|]]|]; simpl;
    try destruct (extractFirstParagraph _); try done;
    destruct (gitFS (world σ) !! name) as [[|? [?|]]|];
    intros; by simplify_eq/=.
Qed.

Lemma filter_sorted (P : Post → Prop) `{!∀ p, Decision (P p)} l :
  sorted_by_Mtime_desc l → sorted_by_Mtime_desc (filter P l).
Proof.
  rewrite !sorted_by_Mtime_desc_strongly.
  induction 1 as [|x l Hl IH Hx]; [constructor|].
  rewrite filter_cons. destruct (decide (P x)); [|done].
  constructor; [done|].
  apply Forall_forall. intros y [_ Hy]%list_elem_of_filter.
  by eapply (proj1 (Forall_forall _ _) Hx).
Qed.

Lemma update_views_new_record post name v vr vs :
  update_views (Some post) name v vr vs → post ∈ vr.
Proof.
  inversion 1 as [| |post' i Hd Hi|post' Hd Hi|post' Hd Hi]; simplify_eq;
    unfold sortM; rewrite sort_Slice_perm.
  - apply list_elem_of_insert.
    by destruct (find_name_Some _ _ _ Hi) as (? & _ & _ & ?).
  - apply elem_of_app. right. apply list_elem_of_here.
  - apply elem_of_app. right. apply list_elem_of_here.
Qed.

(** The record [getPostInfo] makes for a directory of [data/] whose
    document does not ask for the removal is one [updatePost] stores. *)
Lemma getPostInfo_stored name σ readme post err σ1 :
  dataFS (world σ) !! name = Some (DDir readme) →
  state_of (config σ) readme ≠ "delete" →
  getPostInfo name σ = Done (post, err) σ1 →
  decision post err = Some post ∧ Name post = name ∧
  State post = state_of (config σ) readme.
Proof.
  intros Hdir Hst. rewrite getPostInfo_eq, Hdir.
  destruct readme as [md|]; simpl in *.
  - destruct (extractFirstParagraph _); [|done]. intros ?; simplify_eq.
    unfold decision. simpl.
    by destruct (String.eqb_spec (postState md (PostDefaultState (config σ)))
                   "delete").
  - intros ?; by simplify_eq.
Qed.

Lemma sortM_elem p l : p ∈ sortM l ↔ p ∈ l.
Proof. unfold sortM. by rewrite sort_Slice_perm. Qed.

(** What the header of the caller shows after [updatePost] was there
    before, or is the record that was stored. *)
Lemma update_views_from d name v vr vs p :
  update_views d name v vr vs → p ∈ vs →
  p ∈ v ∨ d = Some p.
Proof.
  intros Hu Hp.
  assert (∀ i q, p ∈ <[i := q]> v → p ∈ v ∨ q = p) as Hins.
  { intros i q Hq. apply list_elem_of_lookup in Hq as [j Hj].
    apply list_lookup_insert_Some in Hj as [(_ & ? & _)|[_ Hj]]; [by right|].
    left. by eapply list_elem_of_lookup_2. }
  destruct Hu as [i x _ Hi Hx|_ Hi|post i -> Hi|post -> Hi|post -> Hi].
  - left. apply elem_of_app in Hp as [Hp|Hp].
    + rewrite sortM_elem in Hp. by apply list_elem_of_delete_inv in Hp.
    + apply list_elem_of_singleton in Hp as ->.
      by apply last_Some_elem_of.
  - left. by rewrite sortM_elem in Hp.
  - rewrite sortM_elem in Hp. destruct (Hins _ _ Hp) as [?| ->]; auto.
  - apply elem_of_take in Hp as (j & Hj & _).
    apply list_elem_of_lookup_2 in Hj. rewrite sortM_elem in Hj.
    apply elem_of_app in Hj as [?| ->%list_elem_of_singleton]; auto.
  - by left.
Qed.

Lemma boot_wf w cfg : slice_wf (heap (boot w cfg)) (posts (boot w cfg)).
Proof. by exists []. Qed.

(** X5.  A push leaves the header of the global [posts] as it is: the
    index has as many records after it as before, whether the push
    brought a new post, a new version of one, or the request to remove
    one; and a record it shows afterwards was there before, or carries
    the name that was pushed. *)
Theorem gitUpdate_index_length urlPath name σ σ' :
  slice_wf (heap σ) (posts σ) →
  gitUpdate urlPath name σ = Done tt σ' →
  posts σ' = posts σ ∧ length (index σ') = length (index σ) ∧
  ∀ p, p ∈ index σ' → p ∈ index σ ∨ Name p = name.
Proof.
  intros Hwf Hrun.
  apply gitUpdate_Done in Hrun as (Hp & _ & Hwf' & Hcase); [|done].
  split_and!; [done| |].
  - unfold index. rewrite !slice_wf_elems_length by done. by rewrite Hp.
  - intros p Hin. destruct Hcase as [->|(d & vr & Hviews & Hd & _)]; [by left|].
    destruct (update_views_from _ _ _ _ _ _ Hviews Hin) as [?|Hnew];
      [by left|right].
    by destruct (Hd p Hnew).
Qed.

(** X6.  A request that ends in [git-receive-pack] for an entry of
    [git/] that cannot be cloned, and is not [.pages], ends the process:
    the working copy of that name has been removed by then, and the
    index, [publicPosts] and the index file are as they were.  (The
    index file is under [data/.pages], which the extraction of [.pages]
    removes.) *)
Theorem gitUpdate_not_clonable urlPath name σ e :
  HasSuffix urlPath "git-receive-pack" = true →
  name ≠ ".pages" →
  gitFS (world σ) !! name = Some e →
  ¬ clonable (gitFS (world σ)) name →
  ∃ σ', gitUpdate urlPath name σ = Fatal "Failed to clone the repository" σ' ∧
        dataFS (world σ') !! name = None ∧
        index σ' = index σ ∧ publicPosts σ' = publicPosts σ ∧
        postListJson σ' = postListJson σ.
Proof.
  intros Hsuf _ _ Hno. unfold gitUpdate, bind. rewrite Hsuf.
  rewrite extractGitData_not_clonable by done.
  eexists. split; [done|]. simpl. split_and!; [|done..].
  apply lookup_delete_eq.
Qed.

(** X7.  A push for one name leaves the working copy and the repository
    of every other name as they were. *)
Theorem gitUpdate_other_directories urlPath name σ σ' other :
  other ≠ name →
  gitUpdate urlPath name σ = Done tt σ' →
  dataFS (world σ') !! other = dataFS (world σ) !! other ∧
  gitFS (world σ') !! other = gitFS (world σ) !! other.
Proof.
  intros Hne. unfold gitUpdate.
  destruct (HasSuffix urlPath "git-receive-pack");
    [|unfold ret; by intros [= <-]].
  intros Hrun.
  apply bind_Done in Hrun as ([] & σ1 & Hext & Hrun).
  apply bind_Done in Hrun as (ps & σ2 & Hps & Hrun).
  unfold gets in Hps. injection Hps as <- <-.
  apply bind_Done in Hrun as (r & σ3 & Hupd & Hrun).
  unfold ret in Hrun. injection Hrun as <-.
  apply updatePost_Done in Hupd
    as (post & err & σ4 & Hget & _ & _ & _ & _ & _ & Hworld & _).
  apply getPostInfo_world in Hget as (Hd & Hg & _).
  assert (dataFS (world σ1) !! other = dataFS (world σ) !! other ∧
          gitFS (world σ1) = gitFS (world σ)) as [Hd1 Hg1].
  { destruct (gitFS (world σ) !! name) as [[|[readme|] date]|] eqn:Hrepo.
    2:{ rewrite (extractGitData_clonable _ _ _ _ Hrepo) in Hext.
        simplify_eq. simpl. by rewrite lookup_insert_ne. }
    all: rewrite extractGitData_not_clonable in Hext; [done|].
    all: intros (? & ? & ?); congruence. }
  rewrite Hworld. destruct (decision post err); simpl.
  - by rewrite Hd, Hg, Hg1.
  - rewrite !lookup_delete_ne by done. by rewrite Hd, Hg, Hg1.
Qed.

(** X8.  After a push of a post that clones and does not ask for its
    removal, on a disk that takes the write, the index file holds the
    list [updatePost] has made: it is ordered by [Mtime], latest first,
    it has the record of the pushed post, and [publicPosts] is its public
    part. *)
Theorem gitUpdate_persists_post urlPath name σ σ' readme date :
  slice_wf (heap σ) (posts σ) →
  HasSuffix urlPath "git-receive-pack" = true →
  gitFS (world σ) !! name = Some (GDir (Some readme) date) →
  state_of (config σ) readme ≠ "delete" →
  writable (world σ) = true →
  gitUpdate urlPath name σ = Done tt σ' →
  ∃ p l, postListJson σ' = Some l ∧ p ∈ l ∧ Name p = name ∧
         State p = state_of (config σ) readme ∧
         sorted_by_Mtime_desc l ∧
         publicPosts σ' = filter (λ p, is_public p = true) l.
Proof.
  intros Hwf Hsuf Hrepo Hst Hwr. unfold gitUpdate. rewrite Hsuf.
  intros Hrun.
  apply bind_Done in Hrun as ([] & σ1 & Hext & Hrun).
  rewrite (extractGitData_clonable _ _ _ _ Hrepo) in Hext.
  injection Hext as <-.
  apply bind_Done in Hrun as (ps & σ2 & Hps & Hrun).
  unfold gets in Hps. injection Hps as <- <-.
  apply bind_Done in Hrun as (r & σ3 & Hupd & Hrun).
  unfold ret in Hrun. injection Hrun as <-.
  apply updatePost_Done in Hupd
    as (post & err & σ4 & Hget & Hh & Hr & _ & _ & Hpub & _ & Hfile).
  pose proof (getPostInfo_world _ _ _ _ Hget) as (_ & _ & Hw & _).
  eapply getPostInfo_stored in Hget as (Hd & Hn & Hs);
    [|simpl; apply lookup_insert_eq|done].
  cbn [heap posts set_world world writable config] in *.
  rewrite Hd in *.
  destruct (heap_update_views (Some post) name (heap σ) (posts σ) Hwf)
    as (_ & _ & Hviews).
  rewrite <-Hh, <-Hr in Hviews.
  exists post, (elems (heap σ3) r).
  split_and!; [|by eapply update_views_new_record|done|done| |done].
  - rewrite Hfile. simpl in Hw. by rewrite Hw, Hwr.
  - eapply proj1, update_views_sorted. exact Hviews.
Qed.

End push_properties.

Lemma gitUpdate_index_length_witness :
  ∃ σ', push "a" (boot single_world example_config) = Done tt σ' ∧
        length (index σ') = 0.
Proof.
  destruct (push "a" (boot single_world example_config)) as [[] σ'| |]
    eqn:Hrun; [|vm_compute in Hrun; discriminate..].
  exists σ'. split; [done|].
  destruct (gitUpdate_index_length ("/" +:+ "a" +:+ "/git-receive-pack") "a"
              (boot single_world example_config) σ' (boot_wf _ _) Hrun)
    as (_ & -> & _).
  reflexivity.
Defined.

Lemma gitUpdate_not_clonable_witness :
  ∃ σ', gitUpdate "/b/git-receive-pack" "b" (boot broken_world example_config)
        = Fatal "Failed to clone the repository" σ' ∧
        dataFS (world σ') !! "b" = None.
Proof.
  destruct (gitUpdate_not_clonable "/b/git-receive-pack" "b"
              (boot broken_world example_config) (GDir None None))
    as (σ' & Hrun & Hb & _).
  - vm_compute. reflexivity.
  - discriminate.
  - reflexivity.
  - intros (r & d & Hb). vm_compute in Hb. discriminate.
  - by exists σ'.
Defined.

Lemma gitUpdate_other_directories_witness :
  ∃ σ', push "a" (boot example_world example_config) = Done tt σ' ∧
        dataFS (world σ') !! "b" = Some (DDir (Some ("hello" +:+ nl))).
Proof.
  destruct (push "a" (boot example_world example_config)) as [[] σ'| |]
    eqn:Hrun; [|vm_compute in Hrun; discriminate..].
  exists σ'. split; [done|].
  destruct (gitUpdate_other_directories
              ("/" +:+ "a" +:+ "/git-receive-pack") "a"
              (boot example_world example_config) σ' "b" ltac:(done) Hrun)
    as [-> _].
  reflexivity.
Defined.

Lemma gitUpdate_persists_post_witness :
  ∃ σ' p l, push "a" (boot single_world example_config) = Done tt σ' ∧
            postListJson σ' = Some l ∧ p ∈ l ∧ Name p = "a" ∧
            State p = "public".
Proof.
  destruct (push "a" (boot single_world example_config)) as [[] σ'| |]
    eqn:Hrun; [|vm_compute in Hrun; discriminate..].
  destruct (gitUpdate_persists_post
              ("/" +:+ "a" +:+ "/git-receive-pack") "a"
              (boot single_world example_config) σ'
              (Some ("<!-- public -->" +:+ nl)) (Some "2024-01-01 10:00:00")
              (boot_wf _ _))
    as (p & l & Hfile & Hp & Hn & Hs & _);
    [vm_compute; reflexivity|reflexivity|by vm_compute|reflexivity|exact Hrun|].
  by exists σ', p, l.
Defined.

(** ** The full rebuild, loop by loop *)

Section loops.

Lemma for_range_invariant_elem {A} (I : GoState → Prop) (body : A → Run unit) l :
  (∀ x σ σ', x ∈ l → I σ → body x σ = Done tt σ' → I σ') →
  ∀ σ σ', I σ → for_range l body σ = Done tt σ' → I σ'.
Proof.
  induction l as [|x l IH]; intros Hbody σ σ' HI Hrun.
  - rewrite for_range_nil in Hrun. by simplify_eq.
  - rewrite for_range_cons in Hrun.
    apply bind_Done in Hrun as ([] & σ1 & Hx & Hl).
    eapply IH; [|eapply (Hbody x); [left|exact HI|exact Hx]|exact Hl].
    intros y τ τ' Hy. apply Hbody. by right.
Qed.

(** A loop that keeps [I], and whose round for [x] establishes [K], which
    every round keeps: after the loop over a list that holds [x], [K]. *)
Lemma for_range_establish {A} (I K : GoState → Prop) (body : A → Run unit)
    l x :
  x ∈ l →
  (∀ y σ σ', I σ → body y σ = Done tt σ' → I σ') →
  (∀ σ σ', I σ → body x σ = Done tt σ' → K σ') →
  (∀ y σ σ', I σ → K σ → body y σ = Done tt σ' → K σ') →
  ∀ σ σ', I σ → for_range l body σ = Done tt σ' → I σ' ∧ K σ'.
Proof.
  intros Hx HI Hest HK. induction l as [|y l IH]; intros σ σ' Hσ Hrun.
  - by apply elem_of_nil in Hx.
  - rewrite for_range_cons in Hrun.
    apply bind_Done in Hrun as ([] & σ1 & Hy & Hl).
    destruct (elem_of_cons l x y) as [[->|Hin] _]; [done|..].
    + eapply (for_range_invariant (λ τ, I τ ∧ K τ)); [|split|exact Hl].
      * intros z τ τ' [Hτ HKτ] Hz. split.
        -- exact (HI z τ τ' Hτ Hz).
        -- exact (HK z τ τ' Hτ HKτ Hz).
      * exact (HI y σ σ1 Hσ Hy).
      * exact (Hest σ σ1 Hσ Hy).
    + exact (IH Hin σ1 σ' (HI y σ σ1 Hσ Hy) Hl).
Qed.

End loops.

Section rebuild_facts.
Context `{GoLibs}.

Lemma data_listing_elem w name e :
  dataFS w !! name = Some e → (name, dentry_IsDir e) ∈ data_listing w.
Proof.
  intros He. unfold data_listing.
  apply list_elem_of_fmap. exists (name, e). split; [done|].
  rewrite merge_sort_Permutation. by apply elem_of_map_to_list.
Qed.

Lemma data_listing_inv w name isdir :
  (name, isdir) ∈ data_listing w → is_Some (dataFS w !! name).
Proof.
  unfold data_listing. intros ([k e] & [= -> ->] & Hin)%list_elem_of_fmap.
  rewrite merge_sort_Permutation in Hin.
  apply elem_of_map_to_list in Hin. by exists e.
Qed.

Lemma data_listing_entry w name isdir :
  (name, isdir) ∈ data_listing w →
  ∃ e, dataFS w !! name = Some e ∧ isdir = dentry_IsDir e.
Proof.
  unfold data_listing. intros ([k e] & [= -> ->] & Hin)%list_elem_of_fmap.
  rewrite merge_sort_Permutation in Hin.
  apply elem_of_map_to_list in Hin. by exists e.
Qed.

(** What [updatePost] returns was in the slice before, or is the record
    that was stored. *)
Lemma update_views_returned d name v vr vs p :
  update_views d name v vr vs → p ∈ vr → p ∈ v ∨ d = Some p.
Proof.
  intros Hu Hp.
  destruct Hu as [i x _ Hi Hx|_ Hi|post i -> Hi|post -> Hi|post -> Hi];
    rewrite sortM_elem in Hp.
  - left. by apply list_elem_of_delete_inv in Hp.
  - by left.
  - apply list_elem_of_lookup in Hp as [j Hj].
    apply list_lookup_insert_Some in Hj as [(_ & -> & _)|[_ Hj]]; [by right|].
    left. by eapply list_elem_of_lookup_2.
  - apply elem_of_app in Hp as [?| ->%list_elem_of_singleton]; auto.
  - apply elem_of_app in Hp as [?| ->%list_elem_of_singleton]; auto.
Qed.

Lemma update_views_keeps d name v vr vs p :
  update_views d name v vr vs → p ∈ v → Name p ≠ name → p ∈ vr.
Proof.
  intros Hu Hp Hne.
  assert (∀ i, find_name name v = Some i → ∃ x, v !! i = Some x ∧ x ≠ p)
    as Hfound.
  { intros i Hi. destruct (find_name_Some _ _ _ Hi) as (x & Hx & Hn & _).
    exists x. split; [done|]. by intros ->. }
  destruct Hu as [i x _ Hi _|_ Hi|post i _ Hi|post _ Hi|post _ Hi];
    unfold sortM; rewrite sort_Slice_perm; try done.
  - destruct (Hfound i Hi) as (y & Hy & Hyp).
    rewrite <-(take_drop_middle v i y Hy) in Hp.
    rewrite delete_take_drop.
    rewrite elem_of_app, elem_of_cons in Hp. rewrite elem_of_app.
    destruct Hp as [?|[->|?]]; [by left|done|by right].
  - destruct (Hfound i Hi) as (y & Hy & Hyp).
    rewrite <-(take_drop_middle v i y Hy) in Hp.
    rewrite insert_take_drop by (by eapply lookup_lt_Some).
    rewrite elem_of_app, elem_of_cons in Hp.
    rewrite elem_of_app, elem_of_cons.
    destruct Hp as [?|[->|?]]; [by left|done|by right; right].
  - apply elem_of_app. by left.
  - apply elem_of_app. by left.
Qed.

Lemma update_views_NoDup d name v vr vs :
  update_views d name v vr vs →
  NoDup (Name <$> v) → (∀ post, d = Some post → Name post = name) →
  NoDup (Name <$> vr).
Proof.
  intros Hu Hnd Hd.
  assert (∀ post, d = Some post → find_name name v = None →
            NoDup (Name <$> v ++ [post])) as Happ.
  { intros post Hpost Hi. rewrite fmap_app. apply NoDup_app.
    split_and!; [done| |apply NoDup_singleton].
    intros n Hn [->|[]%elem_of_nil]%elem_of_cons.
    apply list_elem_of_fmap in Hn as (q & Hq & Hin).
    apply find_name_None in Hi.
    eapply (proj1 (Forall_forall _ _) Hi); [exact Hin|].
    by rewrite <-Hq, (Hd post Hpost). }
  destruct Hu as [i x _ Hi _|_ Hi|post i Hpost Hi|post Hpost Hi|post Hpost Hi];
    unfold sortM; rewrite sort_Slice_perm; try done; try by apply Happ.
  - eapply sublist_NoDup; [exact Hnd|apply fmap_sublist, sublist_delete].
  - rewrite list_fmap_insert, (Hd post Hpost).
    destruct (find_name_Some _ _ _ Hi) as (x & Hx & Hn & _).
    rewrite list_insert_id; [done|]. by rewrite list_lookup_fmap, Hx, <-Hn.
Qed.

Lemma filter_all {A} (P : A → Prop) `{!∀ x, Decision (P x)} (l : list A) :
  Forall P l → filter P l = l.
Proof.
  induction 1 as [|x l Hx _ IH]; [done|].
  by rewrite filter_cons, decide_True, IH.
Qed.

(** The upsert, on a slice of distinct names: the new record and the
    records of the other names. *)
Lemma update_views_upsert post name v vr vs :
  update_views (Some post) name v vr vs →
  NoDup (Name <$> v) →
  vr ≡ₚ post :: filter (λ q, Name q ≠ name) v.
Proof.
  intros Hu Hnd.
  inversion Hu as [| |post' i Hd Hi|post' Hd Hi|post' Hd Hi]; simplify_eq;
    unfold sortM; rewrite sort_Slice_perm.
  - destruct (find_name_Some _ _ _ Hi) as (x & Hx & Hn & Hlt).
    pose proof (find_name_delete _ _ _ Hnd Hi) as Hrest.
    rewrite (delete_Permutation v i x Hx) at 2.
    rewrite filter_cons, decide_False by (by intros ?).
    rewrite (filter_all _ _ Hrest).
    rewrite insert_take_drop, delete_take_drop by done.
    by rewrite Permutation_middle.
  - rewrite (filter_all _ _ (find_name_None _ _ Hi)).
    by rewrite Permutation_app_comm.
  - rewrite (filter_all _ _ (find_name_None _ _ Hi)).
    by rewrite Permutation_app_comm.
Qed.

Lemma is_public_State p : is_public p = true ↔ State p = "public".
Proof. apply String.eqb_eq. Qed.

Lemma filter_public_ok l :
  sorted_by_Mtime_desc l →
  Forall (λ p, State p = "public") (filter (λ p, is_public p = true) l) ∧
  sorted_by_Mtime_desc (filter (λ p, is_public p = true) l).
Proof.
  intros Hs. split; [|by apply filter_sorted].
  apply Forall_forall. intros p [Hp _]%list_elem_of_filter.
  by apply is_public_State.
Qed.

(** One round of the first loop. *)
Lemma reconcile_body_Done name isdir τ τ' :
  slice_wf (heap τ) (posts τ) →
  reconcile_body (name, isdir) τ = Done tt τ' →
  config τ' = config τ ∧ slice_wf (heap τ') (posts τ') ∧
  ((isdir = false ∧ τ' = τ) ∨
   (isdir = true ∧
    ∃ post err τ1 vs,
      getPostInfo name τ = Done (post, err) τ1 ∧
      update_views (decision post err) name (index τ) (index τ') vs ∧
      world τ' = after_decision (decision post err) name (world τ1))).
Proof.
  intros Hwf Hrun. unfold reconcile_body in Hrun. simpl in Hrun.
  destruct isdir.
  2:{ unfold ret in Hrun. injection Hrun as <-. split_and!; auto. }
  apply bind_Done in Hrun as (ps & τ0 & Hps & Hrun).
  unfold gets in Hps. injection Hps as <- <-.
  apply bind_Done in Hrun as (r & τ2 & Hupd & Hrun).
  unfold modify in Hrun. injection Hrun as <-.
  apply updatePost_Done in Hupd
    as (post & err & τ1 & Hget & Hh & Hr & _ & Hc & _ & Hworld & _).
  destruct (heap_update_views (decision post err) name _ _ Hwf)
    as (Hwfr & _ & Hviews).
  unfold index. cbn [heap posts config world set_posts].
  rewrite Hh, Hr. split_and!; [done..|]. right. split; [done|].
  by eexists post, err, τ1, _.
Qed.

(** One round of the second loop: the zero post is appended when the
    entry is not there any more. *)
Lemma discover_body_Done name isdir τ τ' :
  slice_wf (heap τ) (posts τ) →
  discover_body (name, isdir) τ = Done tt τ' →
  config τ' = config τ ∧ slice_wf (heap τ') (posts τ') ∧
  dataFS (world τ') = dataFS (world τ) ∧
  gitFS (world τ') = gitFS (world τ) ∧
  writable (world τ') = writable (world τ) ∧
  index τ' = index τ ++
    (if decide (dataFS (world τ) !! name = None) then [Post_zero] else []).
Proof.
  intros Hwf Hrun. unfold discover_body in Hrun. simpl in Hrun.
  apply bind_Done in Hrun as ([post err] & τ1 & Hget & Hrun).
  pose proof (getPostInfo_world _ _ _ _ Hget)
    as (Hd & Hg & Hwr & Hc & Hh & Hp).
  apply getPostInfo_Done in Hget as [(-> & -> & Hnone)|(-> & _ & Hsome & _)].
  - rewrite bool_decide_true in Hrun by done.
    unfold go_append, bind, gets, modify, ret in Hrun.
    injection Hrun as <-.
    unfold index. cbn [heap posts config world set_posts set_heap].
    rewrite Hh, Hp.
    destruct (heap_append_wf (heap τ) (posts τ) [Post_zero] Hwf) as [Hw' He].
    rewrite decide_True by done. by split_and!.
  - rewrite bool_decide_false in Hrun by (by intros []).
    unfold ret in Hrun. injection Hrun as <-.
    rewrite decide_False by (by intros Hn; rewrite Hn in Hsome; destruct Hsome).
    unfold index. rewrite Hh, Hp, app_nil_r. by split_and!.
Qed.

(** The second loop keeps the records, the two trees and the disk. *)
Lemma discover_loop_Done l σ σ1 :
  slice_wf (heap σ) (posts σ) →
  for_range l discover_body σ = Done tt σ1 →
  config σ1 = config σ ∧ slice_wf (heap σ1) (posts σ1) ∧
  dataFS (world σ1) = dataFS (world σ) ∧ gitFS (world σ1) = gitFS (world σ) ∧
  writable (world σ1) = writable (world σ) ∧
  ∀ p, p ∈ index σ → p ∈ index σ1.
Proof.
  intros Hwf.
  apply (for_range_invariant
           (λ τ, config τ = config σ ∧ slice_wf (heap τ) (posts τ) ∧
                 dataFS (world τ) = dataFS (world σ) ∧
                 gitFS (world τ) = gitFS (world σ) ∧
                 writable (world τ) = writable (world σ) ∧
                 ∀ p, p ∈ index σ → p ∈ index τ));
    [|done].
  intros [name isdir] τ τ' (Hc & Hw & Hd & Hg & Hwr & Hi) Hbody.
  destruct (discover_body_Done _ _ _ _ Hw Hbody)
    as (Hc' & Hw' & Hd' & Hg' & Hwr' & Hi').
  split_and!; [congruence|done|congruence|congruence|congruence|].
  intros p Hp. rewrite Hi'. apply elem_of_app. left. by apply Hi.
Qed.


(** The full rebuild, phase by phase. *)
Lemma checkAllPosts_phases σ err σ' :
  slice_wf (heap σ) (posts σ) →
  checkAllPosts σ = Done err σ' →
  ∃ σ1 σ2,
    for_range (data_listing (world σ)) reconcile_body σ = Done tt σ1 ∧
    for_range (data_listing (world σ)) discover_body σ1 = Done tt σ2 ∧
    (slice_wf (heap σ2) (posts σ2) →
     index σ' = sortM (index σ2) ∧ slice_wf (heap σ') (posts σ')) ∧
    world σ' = world σ2 ∧ config σ' = config σ2 ∧
    publicPosts σ' = filter (λ p, is_public p = true) (index σ') ∧
    postListJson σ' = (if writable (world σ2) then Some (index σ')
                       else postListJson σ2) ∧
    err = (if writable (world σ2) then None else Some ErrWrite).
Proof.
  intros Hwf Hrun. unfold checkAllPosts in Hrun.
  apply bind_Done in Hrun as (files & σ0 & Hfiles & Hrun).
  unfold os_ReadDir_data, gets in Hfiles. injection Hfiles as <- <-.
  apply bind_Done in Hrun as ([] & σ1 & Hloop1 & Hrun).
  apply bind_Done in Hrun as ([] & σ2 & Hloop2 & Hrun).
  exists σ1, σ2. split; [exact Hloop1|]. split; [exact Hloop2|].
  unfold sortPosts, sort_in_place, derive_publicPosts, slice_elems,
    os_WriteFile_postList, bind, gets, modify, ret in Hrun.
  simpl in Hrun.
  destruct (writable (world σ2)) eqn:Hw; injection Hrun as <- <-;
    unfold index; cbn; (split_and!; [|done..]);
    intros Hwf2; destruct (heap_sort_wf (heap σ2) (posts σ2) Hwf2);
    done.
Qed.

(** A directory of [data/] whose document does not ask for its removal
    has its record in the index after the rebuild. *)
Lemma checkAllPosts_records σ err σ' name readme :
  slice_wf (heap σ) (posts σ) →
  dataFS (world σ) !! name = Some (DDir readme) →
  state_of (config σ) readme ≠ "delete" →
  checkAllPosts σ = Done err σ' →
  ∃ p, p ∈ index σ' ∧ Name p = name ∧
       State p = state_of (config σ) readme ∧
       dataFS (world σ') !! name = Some (DDir readme).
Proof.
  intros Hwf Hdir Hst Hrun.
  destruct (checkAllPosts_phases _ _ _ Hwf Hrun)
    as (σ1 & σ2 & Hloop1 & Hloop2 & Hidx & Hw & _).
  set (I := λ τ : GoState,
         config τ = config σ ∧ slice_wf (heap τ) (posts τ) ∧
         dataFS (world τ) !! name = Some (DDir readme)).
  set (K := λ τ : GoState,
         ∃ p, p ∈ index τ ∧ Name p = name ∧
              State p = state_of (config σ) readme).
  assert (∀ τ τ1 post err', I τ →
            getPostInfo name τ = Done (post, err') τ1 →
            decision post err' = Some post ∧ Name post = name ∧
            State post = state_of (config σ) readme) as Hnew.
  { intros τ τ1 post err' (Hc & _ & Hd) Hget.
    eapply getPostInfo_stored in Hget; [|exact Hd|by rewrite Hc].
    by rewrite Hc in Hget. }
  assert (∀ y τ τ', I τ → reconcile_body y τ = Done tt τ' → I τ') as HI.
  { intros [m isdir] τ τ' Hτ Hbody.
    pose proof Hτ as (Hc & Hw' & Hd).
    destruct (reconcile_body_Done _ _ _ _ Hw' Hbody)
      as (Hc' & Hw'' & [[_ ->]|(_ & post & err' & τ1 & vs & Hget & _ & Hwd)]);
      [done|].
    split_and!; [congruence|done|]. rewrite Hwd.
    destruct (getPostInfo_world _ _ _ _ Hget) as (Hd1 & _).
    destruct (decide (m = name)) as [->|Hne].
    - destruct (Hnew _ _ _ _ Hτ Hget) as (-> & _). simpl. by rewrite Hd1.
    - destruct (decision post err'); simpl; [by rewrite Hd1|].
      rewrite lookup_delete_ne by done. by rewrite Hd1. }
  destruct (for_range_establish I K reconcile_body
              (data_listing (world σ)) (name, true)) with (σ := σ) (σ' := σ1)
    as [(Hc1 & Hw1 & Hd1) HK1]; [ |exact HI| | |done|exact Hloop1|].
  { apply (data_listing_elem _ _ _ Hdir). }
  { intros τ τ' Hτ Hbody. pose proof Hτ as (_ & Hw' & _).
    destruct (reconcile_body_Done _ _ _ _ Hw' Hbody)
      as (_ & _ & [[[=] _]|(_ & post & err' & τ1 & vs & Hget & Hviews & _)]).
    destruct (Hnew _ _ _ _ Hτ Hget) as (Hdec & Hn & Hs).
    rewrite Hdec in Hviews. exists post. split_and!; [|done..].
    by eapply update_views_new_record. }
  { intros [m isdir] τ τ' Hτ (p & Hp & Hn & Hs) Hbody.
    pose proof Hτ as (_ & Hw' & _).
    destruct (reconcile_body_Done _ _ _ _ Hw' Hbody)
      as (_ & _ & [[_ ->]|(_ & post & err' & τ1 & vs & Hget & Hviews & _)]).
    { by exists p. }
    destruct (decide (m = name)) as [->|Hne].
    - destruct (Hnew _ _ _ _ Hτ Hget) as (Hdec & Hn' & Hs').
      rewrite Hdec in Hviews. exists post. split_and!; [|done..].
      by eapply update_views_new_record.
    - exists p. split_and!; [|done..].
      eapply update_views_keeps; [exact Hviews|done|congruence]. }
  destruct (discover_loop_Done _ _ _ Hw1 Hloop2)
    as (_ & Hw2 & Hd2 & _ & _ & Hmem).
  destruct (Hidx Hw2) as [Hi' _].
  destruct HK1 as (p & Hp & Hn & Hs).
  exists p. split_and!; [|done..|by rewrite Hw, Hd2].
  rewrite Hi'. apply sortM_elem. by apply Hmem.
Qed.

End rebuild_facts.

Section rebuild_properties.
Context `{GoLibs}.

(** X9.  A full rebuild that returns [nil] has written the index to the
    index file: the file holds the records of the index, in its order. *)
Theorem checkAllPosts_index_file σ σ' :
  slice_wf (heap σ) (posts σ) →
  checkAllPosts σ = Done None σ' →
  postListJson σ' = Some (index σ').
Proof.
  intros Hwf Hrun.
  destruct (checkAllPosts_phases _ _ _ Hwf Hrun)
    as (σ1 & σ2 & _ & _ & _ & _ & _ & _ & Hfile & Herr).
  destruct (writable (world σ2)); [exact Hfile|discriminate Herr].
Qed.

(** X10.  After a full rebuild, every directory of [data/] whose document
    does not ask for its removal has a record in the index, with the
    state its first line gives ([private] when it has no [README.md]),
    and the directory is still there. *)
Theorem checkAllPosts_records_directory σ err σ' name readme :
  slice_wf (heap σ) (posts σ) →
  dataFS (world σ) !! name = Some (DDir readme) →
  state_of (config σ) readme ≠ "delete" →
  checkAllPosts σ = Done err σ' →
  ∃ p, p ∈ index σ' ∧ Name p = name ∧
       State p = state_of (config σ) readme ∧
       dataFS (world σ') !! name = Some (DDir readme).
Proof. apply checkAllPosts_records. Qed.

(** X11.  A full rebuild that meets a directory whose document asks for
    its removal removes the working copy and the repository, and leaves
    the zero post [Post{}] in the index: its second loop appends what
    [getPostInfo] returns with its error for the entry that is gone. *)
Theorem checkAllPosts_removal_leaves_zero_post σ err σ' name md :
  slice_wf (heap σ) (posts σ) →
  dataFS (world σ) !! name = Some (DDir (Some md)) →
  postState md (PostDefaultState (config σ)) = "delete" →
  checkAllPosts σ = Done err σ' →
  Post_zero ∈ index σ' ∧
  dataFS (world σ') !! name = None ∧ gitFS (world σ') !! name = None.
Proof.
  intros Hwf Hdir Hst Hrun.
  destruct (checkAllPosts_phases _ _ _ Hwf Hrun)
    as (σ1 & σ2 & Hloop1 & Hloop2 & Hidx & Hw & _).
  set (I := λ τ : GoState,
         config τ = config σ ∧ slice_wf (heap τ) (posts τ) ∧
         (dataFS (world τ) !! name = Some (DDir (Some md)) ∨
          dataFS (world τ) !! name = None)).
  set (K := λ τ : GoState,
         dataFS (world τ) !! name = None ∧ gitFS (world τ) !! name = None).
  assert (∀ τ τ1 post err', I τ →
            getPostInfo name τ = Done (post, err') τ1 →
            decision post err' = None) as Hdel.
  { intros τ τ1 post err' (Hc & _ & [Hd|Hd]) Hget;
      rewrite getPostInfo_eq, Hd in Hget; simpl in Hget.
    - destruct (extractFirstParagraph _); [|done]. injection Hget as <- <- _.
      unfold decision. simpl. by rewrite Hc, Hst.
    - by injection Hget as <- <- _. }
  destruct (for_range_establish I K reconcile_body
              (data_listing (world σ)) (name, true)) with (σ := σ) (σ' := σ1)
    as [(Hc1 & Hw1 & _) [Hd1 Hg1]]; [ | | | |by split_and!; auto|exact Hloop1|].
  { apply (data_listing_elem _ _ _ Hdir). }
  { intros [m isdir] τ τ' Hτ Hbody.
    pose proof Hτ as (Hc & Hw' & Hd).
    destruct (reconcile_body_Done _ _ _ _ Hw' Hbody)
      as (Hc' & Hw'' & [[_ ->]|(_ & post & err' & τ1 & vs & Hget & _ & Hwd)]);
      [done|].
    split_and!; [congruence|done|]. rewrite Hwd.
    destruct (getPostInfo_world _ _ _ _ Hget) as (Hd1 & _).
    destruct (decide (m = name)) as [->|Hne].
    - rewrite (Hdel _ _ _ _ Hτ Hget). right. simpl. apply lookup_delete_eq.
    - destruct (decision post err'); simpl; rewrite ?lookup_delete_ne by done;
        by rewrite Hd1. }
  { intros τ τ' Hτ Hbody. pose proof Hτ as (_ & Hw' & _).
    destruct (reconcile_body_Done _ _ _ _ Hw' Hbody)
      as (_ & _ & [[[=] _]|(_ & post & err' & τ1 & vs & Hget & _ & Hwd)]).
    rewrite (Hdel _ _ _ _ Hτ Hget) in Hwd. unfold K. rewrite Hwd. simpl.
    split; apply lookup_delete_eq. }
  { intros [m isdir] τ τ' Hτ [Hd Hg] Hbody. pose proof Hτ as (_ & Hw' & _).
    destruct (reconcile_body_Done _ _ _ _ Hw' Hbody)
      as (_ & _ & [[_ ->]|(_ & post & err' & τ1 & vs & Hget & _ & Hwd)]);
      [done|].
    destruct (getPostInfo_world _ _ _ _ Hget) as (Hd1 & Hg1 & _).
    unfold K. rewrite Hwd.
    destruct (decision post err'); simpl; rewrite ?Hd1, ?Hg1; [done|].
    split; apply lookup_delete_None; by right. }
  set (I2 := λ τ : GoState,
         slice_wf (heap τ) (posts τ) ∧ dataFS (world τ) !! name = None ∧
         gitFS (world τ) !! name = None).
  destruct (for_range_establish I2 (λ τ, Post_zero ∈ index τ) discover_body
              (data_listing (world σ)) (name, true)) with (σ := σ1) (σ' := σ2)
    as [(Hw2 & Hd2 & Hg2) Hz]; [ | | | |done|exact Hloop2|].
  { apply (data_listing_elem _ _ _ Hdir). }
  { intros [m isdir] τ τ' (Hw' & Hd & Hg) Hbody.
    destruct (discover_body_Done _ _ _ _ Hw' Hbody)
      as (_ & Hw'' & Hd' & Hg' & _).
    split_and!; [done|by rewrite Hd'|by rewrite Hg']. }
  { intros τ τ' (Hw' & Hd & Hg) Hbody.
    destruct (discover_body_Done _ _ _ _ Hw' Hbody)
      as (_ & _ & _ & _ & _ & Hi).
    rewrite Hi, decide_True by done.
    apply elem_of_app. right. apply list_elem_of_here. }
  { intros [m isdir] τ τ' (Hw' & _) Hz Hbody.
    destruct (discover_body_Done _ _ _ _ Hw' Hbody)
      as (_ & _ & _ & _ & _ & Hi).
    rewrite Hi. apply elem_of_app. by left. }
  destruct (Hidx Hw2) as [Hi' _].
  split_and!; [|by rewrite Hw..].
  rewrite Hi'. by apply sortM_elem.
Qed.

(** X12.  A record of the index whose directory is not in [data/] any
    more stays in the index through a full rebuild: the rebuild goes
    through the entries of [data/], not through the index. *)
Theorem checkAllPosts_keeps_stale_record σ err σ' p :
  slice_wf (heap σ) (posts σ) →
  p ∈ index σ →
  dataFS (world σ) !! Name p = None →
  checkAllPosts σ = Done err σ' →
  p ∈ index σ'.
Proof.
  intros Hwf Hp Hgone Hrun.
  destruct (checkAllPosts_phases _ _ _ Hwf Hrun)
    as (σ1 & σ2 & Hloop1 & Hloop2 & Hidx & _).
  assert (slice_wf (heap σ1) (posts σ1) ∧ p ∈ index σ1) as [Hw1 Hp1].
  { revert Hloop1.
    apply (for_range_invariant_elem
             (λ τ, slice_wf (heap τ) (posts τ) ∧ p ∈ index τ)); [|done].
    intros [m isdir] τ τ' Hm [Hw' Hp'] Hbody.
    destruct (reconcile_body_Done _ _ _ _ Hw' Hbody)
      as (_ & Hw'' & [[_ ->]|(_ & post & err' & τ1 & vs & _ & Hviews & _)]);
      [done|].
    split; [done|]. eapply update_views_keeps; [exact Hviews|done|].
    intros Heq. apply data_listing_inv in Hm as [e He].
    rewrite <-Heq in He. congruence. }
  destruct (discover_loop_Done _ _ _ Hw1 Hloop2)
    as (_ & Hw2 & _ & _ & _ & Hmem).
  destruct (Hidx Hw2) as [-> _]. apply sortM_elem. by apply Hmem.
Qed.

(** X27.  Every record a full rebuild leaves in the index was in the
    index before, or is the zero post, or carries the name of a
    directory of [data/] and the state the first line of its document
    gives, which is not [delete]. *)
Theorem checkAllPosts_index_sound σ err σ' p :
  slice_wf (heap σ) (posts σ) →
  checkAllPosts σ = Done err σ' →
  p ∈ index σ' → rebuilt_from σ p.
Proof.
  intros Hwf Hrun Hp.
  destruct (checkAllPosts_phases _ _ _ Hwf Hrun)
    as (σ1 & σ2 & Hloop1 & Hloop2 & Hidx & _).
  set (I := λ τ : GoState,
         config τ = config σ ∧ slice_wf (heap τ) (posts τ) ∧
         dataFS (world τ) ⊆ dataFS (world σ) ∧
         Forall (rebuilt_from σ) (index τ)).
  assert (I σ1) as (Hc1 & Hw1 & Hsub1 & HQ1).
  { revert Hloop1. apply (for_range_invariant_elem I).
    2:{ split_and!; [done..|]. apply Forall_forall. intros q Hq. by left. }
    intros [m isdir] τ τ' Hm (Hc & Hw & Hsub & HQ) Hbody.
    destruct (reconcile_body_Done _ _ _ _ Hw Hbody)
      as (Hc' & Hw' & [[_ ->]|(-> & post & e & τ1 & vs & Hget & Hviews & Hwd)]);
      [done|].
    destruct (getPostInfo_world _ _ _ _ Hget) as (Hd1 & _).
    split_and!; [congruence|done|..].
    - rewrite Hwd. destruct (decision post e); simpl; rewrite Hd1; [done|].
      etrans; [apply delete_subseteq|done].
    - apply Forall_forall. intros q Hq.
      destruct (update_views_returned _ _ _ _ _ _ Hviews Hq) as [Hold|Hnew].
      { by eapply (proj1 (Forall_forall _ _) HQ). }
      right; right.
      apply data_listing_entry in Hm as (e0 & He0 & Hdir).
      destruct e0 as [|readme]; [done|]. exists readme.
      unfold decision in Hnew.
      destruct (bool_decide (e ≠ None)) eqn:He; [done|].
      destruct (String.eqb_spec (State post) "delete") as [|Hnd]; [done|].
      simpl in Hnew. injection Hnew as ->.
      rewrite getPostInfo_eq in Hget.
      destruct (dataFS (world τ) !! m) as [e1|] eqn:He1.
      2:{ injection Hget as <- <- _. done. }
      pose proof (lookup_weaken _ _ _ _ He1 Hsub) as He1'.
      rewrite He0 in He1'. injection He1' as <-.
      destruct readme as [md|]; simpl in Hget;
        [destruct (extractFirstParagraph _); [|done]|];
        injection Hget as <- _ _; simpl in *; rewrite <-?Hc;
        by split_and!. }
  destruct (discover_loop_Done _ _ _ Hw1 Hloop2) as (_ & Hw2 & _).
  assert (Forall (rebuilt_from σ) (index σ2)) as HQ2.
  { assert (slice_wf (heap σ2) (posts σ2) ∧
            Forall (rebuilt_from σ) (index σ2)) as [_ ?]; [|done].
    revert Hloop2. apply (for_range_invariant
      (λ τ, slice_wf (heap τ) (posts τ) ∧ Forall (rebuilt_from σ) (index τ)));
      [|done].
    intros [m isdir] τ τ' [Hw HQ] Hbody.
    destruct (discover_body_Done _ _ _ _ Hw Hbody)
      as (_ & Hw' & _ & _ & _ & ->).
    split; [done|]. apply Forall_app. split; [done|].
    destruct (decide _); [|constructor].
    constructor; [by right; left|constructor]. }
  destruct (Hidx Hw2) as [Hi' _]. rewrite Hi', sortM_elem in Hp.
  by eapply (proj1 (Forall_forall _ _) HQ2).
Qed.


(** X13.  [updatePost] keeps the names distinct: called on a slice in
    which no two records have the same name, it returns such a slice. *)
Theorem updatePost_names_distinct name s σ r σ' :
  slice_wf (heap σ) s →
  NoDup (Name <$> elems (heap σ) s) →
  updatePost name s σ = Done r σ' →
  NoDup (Name <$> elems (heap σ') r).
Proof.
  intros Hwf Hnd Hrun.
  apply updatePost_Done in Hrun
    as (post & err & σ1 & Hget & Hh & Hr & _).
  destruct (heap_update_views (decision post err) name _ _ Hwf)
    as (_ & _ & Hviews).
  rewrite Hh, Hr. eapply update_views_NoDup; [exact Hviews|done|].
  intros post' Hd.
  by destruct (decision_Some _ _ _ _ _ _ _ Hget eq_refl Hd) as (? & _).
Qed.

(** X26.  On a slice of distinct names, for a directory whose document
    does not ask for its removal, [updatePost] returns the record of the
    directory together with the records of the other names, and nothing
    else. *)
Theorem updatePost_upsert name s σ r σ' readme :
  slice_wf (heap σ) s →
  NoDup (Name <$> elems (heap σ) s) →
  dataFS (world σ) !! name = Some (DDir readme) →
  state_of (config σ) readme ≠ "delete" →
  updatePost name s σ = Done r σ' →
  ∃ post, Name post = name ∧ State post = state_of (config σ) readme ∧
          elems (heap σ') r
          ≡ₚ post :: filter (λ q, Name q ≠ name) (elems (heap σ) s).
Proof.
  intros Hwf Hnd Hdir Hst Hrun.
  apply updatePost_Done in Hrun
    as (post & err & σ1 & Hget & Hh & Hr & _).
  destruct (getPostInfo_stored _ _ _ _ _ _ Hdir Hst Hget) as (Hd & Hn & Hs).
  destruct (heap_update_views (decision post err) name _ _ Hwf)
    as (_ & _ & Hviews).
  rewrite Hd in Hviews, Hh, Hr. rewrite Hh, Hr.
  exists post. split_and!; [done..|].
  by eapply update_views_upsert.
Qed.

(** X14.  Whatever the program goes through from its start, every post
    of [publicPosts] has the state [public], and [publicPosts] is ordered
    by [Mtime], latest first. *)
Theorem publicPosts_public_and_ordered w cfg ops σ :
  exec ops (boot w cfg) = Done tt σ →
  Forall (λ p, State p = "public") (publicPosts σ) ∧
  sorted_by_Mtime_desc (publicPosts σ).
Proof.
  intros Hrun. unfold exec in Hrun.
  set (I := λ τ : GoState,
         (config τ = cfg ∧ slice_wf (heap τ) (posts τ) ∧
          Forall (λ _, True) (index τ) ∧ sorted_by_Mtime_desc (index τ)) ∧
         Forall (λ p, State p = "public") (publicPosts τ) ∧
         sorted_by_Mtime_desc (publicPosts τ)).
  assert (I σ) as [_ ?]; [|done].
  revert Hrun. apply (for_range_invariant I).
  - intros op τ τ' [Hτ Hpub] Hop. split.
    { by eapply (exec_op_invariant (λ _, True) cfg op τ τ'). }
    destruct Hτ as (_ & Hwf & _).
    destruct op; simpl in Hop.
    + apply bind_Done in Hop as (err & τ1 & Hchk & Hret).
      unfold ret in Hret. injection Hret as <-.
      destruct (checkAllPosts_Done (λ _, True) _ _ _ Hchk Hwf)
        as (_ & _ & _ & Hs & ->); try done.
      { by apply Forall_true. }
      by apply filter_public_ok.
    + apply gitUpdate_Done in Hop as (_ & _ & _ & Hcase); [|done].
      destruct Hcase as [->|(d & vr & Hviews & _ & ->)]; [done|].
      apply filter_public_ok. eapply proj1, update_views_sorted.
      exact Hviews.
    + pose proof (world_only_extractAllGitData τ) as Hw. rewrite Hop in Hw.
      by destruct Hw as [w1 ->].
    + unfold modify in Hop. by injection Hop as <-.
  - split_and!; [done|by exists []|by constructor| |by constructor|];
      by intros i j x y _ ?.
Qed.

End rebuild_properties.

Lemma checkAllPosts_index_file_witness :
  ∃ σ', checkAllPosts (boot single_world example_config) = Done None σ' ∧
        postListJson σ' = Some (index σ').
Proof.
  destruct (checkAllPosts (boot single_world example_config))
    as [[e|] σ'| |] eqn:Hrun; [vm_compute in Hrun; discriminate| |
                               vm_compute in Hrun; discriminate..].
  exists σ'. split; [done|].
  exact (checkAllPosts_index_file _ _ (boot_wf _ _) Hrun).
Defined.

Lemma checkAllPosts_records_directory_witness :
  ∃ err σ' p, checkAllPosts (boot single_world example_config) = Done err σ' ∧
              p ∈ index σ' ∧ Name p = "a" ∧ State p = "public".
Proof.
  destruct (checkAllPosts (boot single_world example_config))
    as [err σ'| |] eqn:Hrun; [|vm_compute in Hrun; discriminate..].
  destruct (checkAllPosts_records_directory
              (boot single_world example_config) err σ' "a"
              (Some ("<!-- public -->" +:+ nl)) (boot_wf _ _))
    as (p & Hp & Hn & Hs & _); [reflexivity|by vm_compute|exact Hrun|].
  by exists err, σ', p.
Defined.

Lemma checkAllPosts_removal_leaves_zero_post_witness :
  ∃ err σ', checkAllPosts delete_state = Done err σ' ∧
            Post_zero ∈ index σ' ∧ dataFS (world σ') !! "a" = None.
Proof.
  destruct (checkAllPosts delete_state) as [err σ'| |] eqn:Hrun;
    [|vm_compute in Hrun; discriminate..].
  destruct (checkAllPosts_removal_leaves_zero_post delete_state err σ' "a"
              ("<!-- delete -->" +:+ nl))
    as (Hz & Hd & _); [|reflexivity|by vm_compute|exact Hrun|].
  - exists [tie_a; tie_b]. repeat split. simpl. lia.
  - by exists err, σ'.
Defined.

Lemma checkAllPosts_keeps_stale_record_witness :
  ∃ err σ', checkAllPosts stale_state = Done err σ' ∧ tie_b ∈ index σ'.
Proof.
  destruct (checkAllPosts stale_state) as [err σ'| |] eqn:Hrun;
    [|vm_compute in Hrun; discriminate..].
  exists err, σ'. split; [done|].
  apply (checkAllPosts_keeps_stale_record stale_state err σ' tie_b);
    [|by right; left|reflexivity|exact Hrun].
  exists [tie_a; tie_b]. repeat split. simpl. lia.
Defined.

Lemma checkAllPosts_index_sound_witness :
  ∃ err σ', checkAllPosts (boot single_world example_config) = Done err σ' ∧
            length (index σ') = 1 ∧
            Forall (rebuilt_from (boot single_world example_config))
              (index σ').
Proof.
  destruct (checkAllPosts (boot single_world example_config))
    as [err σ'| |] eqn:Hrun; [|vm_compute in Hrun; discriminate..].
  exists err, σ'. split_and!; [done| |].
  - vm_compute in Hrun. by injection Hrun as _ <-.
  - apply Forall_forall. intros p Hp.
    by apply (checkAllPosts_index_sound _ err σ' p (boot_wf _ _)).
Defined.

Lemma updatePost_names_distinct_witness :
  ∃ r σ', updatePost "a" (Slice 1 2 2) tie_state = Done r σ' ∧
          NoDup (Name <$> elems (heap σ') r).
Proof.
  destruct (updatePost "a" (Slice 1 2 2) tie_state) as [r σ'| |] eqn:Hrun;
    [|vm_compute in Hrun; discriminate..].
  exists r, σ'. split; [done|].
  apply (updatePost_names_distinct "a" (Slice 1 2 2) tie_state);
    [| |exact Hrun].
  - exists [tie_a; tie_b]. repeat split. simpl. lia.
  - apply (bool_decide_unpack _). vm_compute. exact I.
Defined.

Lemma updatePost_upsert_witness :
  ∃ r σ' post, updatePost "a" (Slice 1 2 2) tie_state = Done r σ' ∧
               Name post = "a" ∧ State post = "public" ∧
               elems (heap σ') r ≡ₚ [post; tie_b].
Proof.
  destruct (updatePost "a" (Slice 1 2 2) tie_state) as [r σ'| |] eqn:Hrun;
    [|vm_compute in Hrun; discriminate..].
  destruct (updatePost_upsert "a" (Slice 1 2 2) tie_state r σ'
              (Some ("<!-- public -->" +:+ nl)))
    as (post & Hn & Hs & Hperm); [| |reflexivity|by vm_compute|exact Hrun|].
  - exists [tie_a; tie_b]. repeat split. simpl. lia.
  - apply (bool_decide_unpack _). vm_compute. exact I.
  - by exists r, σ', post.
Defined.

Lemma publicPosts_public_and_ordered_witness :
  ∃ σ, exec example_ops (boot example_world example_config) = Done tt σ ∧
       Forall (λ p, State p = "public") (publicPosts σ) ∧
       sorted_by_Mtime_desc (publicPosts σ).
Proof.
  destruct (exec example_ops (boot example_world example_config))
    as [[] σ| |] eqn:Hrun; [|vm_compute in Hrun; discriminate..].
  exists σ. split; [done|].
  by apply (publicPosts_public_and_ordered example_world example_config
              example_ops).
Defined.

(** ** What the extraction reads from a page *)

Section extraction_facts.

Lemma paragraph_length t : String.length (paragraph t) = String.length t + 7.
Proof. unfold paragraph. rewrite !string_app_length. simpl. lia. Qed.

Lemma paragraph_tag t : paragraph t = "<" +:+ ("p>" +:+ t +:+ "</p") +:+ ">".
Proof. unfold paragraph. by rewrite !string_app_assoc. Qed.

Lemma from_app_ge k a s :
  String.length a ≤ k → from k (a +:+ s) = from (k - String.length a) s.
Proof.
  intros Hk. replace k with (String.length a + (k - String.length a)) at 1
    by lia.
  by rewrite <-from_from, from_app.
Qed.

Lemma Index_absent s sub : sub ≠ "" → ¬ occurs sub s → Index s sub = None.
Proof.
  intros Hne Hno. apply Contains_not_occurs in Hno; [|done].
  unfold Contains in Hno. by destruct (Index s sub).
Qed.

Lemma no_close_in_open t : ¬ occurs "</p>" t → ¬ occurs "</p>" ("<p>" +:+ t).
Proof.
  intros Hno Ho.
  repeat (apply occurs_cons in Ho as [Hp|Ho]; [by simpl in Hp|]).
  done.
Qed.

Lemma no_open_after k t g :
  0 < k → ¬ occurs "<p>" (t +:+ "</p>" +:+ g) →
  ¬ occurs "<p>" (from k (paragraph t +:+ g)).
Proof.
  intros Hk Hno Ho. destruct k as [|k]; [lia|].
  unfold paragraph in Ho. rewrite !string_app_assoc in Ho.
  rewrite string_app_cons, from_cons in Ho.
  apply occurs_from in Ho.
  repeat (apply occurs_cons in Ho as [Hp|Ho]; [by simpl in Hp|]).
  done.
Qed.

(** One round of the loop of [extractFirstParagraph], at a position from
    which the next [<p>] opens the paragraph of [t]. *)
Lemma extractFirstParagraph_loop_step rounds html i body v t b :
  from i html = v +:+ paragraph t +:+ b →
  ¬ occurs "<p>" v → ¬ occurs "</p>" t →
  extractFirstParagraph_loop rounds html i body
  = if Contains (paragraph t) "<img" then
      match rounds with
      | 0 => None
      | S rounds' =>
          extractFirstParagraph_loop rounds' html
            (i + String.length (paragraph t)) (paragraph t)
      end
    else Some (paragraph t).
Proof.
  intros Hw Hv Ht.
  assert (Index (from i html) "<p>" = Some (String.length v)) as Hp.
  { rewrite Hw. unfold paragraph. rewrite !string_app_assoc.
    by apply (Index_first v "<" "p>"). }
  assert (from (i + String.length v) html = paragraph t +:+ b) as Hfrom.
  { by rewrite <-from_from, Hw, from_app. }
  assert (Index (from (i + String.length v) html) "</p>"
          = Some (3 + String.length t)) as He.
  { rewrite Hfrom. unfold paragraph.
    rewrite <-(string_app_assoc "<p>" t), string_app_assoc.
    rewrite (Index_first ("<p>" +:+ t) "<" "/p>");
      [|done|by apply no_close_in_open].
    by rewrite string_app_length. }
  assert (TrimSpace
            (substr html (i + String.length v)
               (i + String.length v + (3 + String.length t) + 4))
          = paragraph t) as Hbody.
  { unfold substr.
    replace (i + String.length v + (3 + String.length t) + 4
             - (i + String.length v))
      with (String.length (paragraph t)) by (rewrite paragraph_length; lia).
    rewrite <-substring_from, Hw, substring_app_mid.
    rewrite paragraph_tag. apply TrimSpace_tag. }
  pose proof (paragraph_length t) as HP.
  destruct rounds as [|rounds]; cbn [extractFirstParagraph_loop];
    rewrite Hp, He, Hbody;
    destruct (Contains (paragraph t) "<img"); try done.
  f_equal. lia.
Qed.

Lemma extractFirstParagraph_loop_chosen rounds html i body v ps :
  from i html = v +:+ paragraphs ps →
  ¬ occurs "<p>" v → Forall paragraph_ok ps →
  String.length html ≤ rounds + i →
  extractFirstParagraph_loop rounds html i body = Some (chosen ps body).
Proof.
  revert i body v ps.
  induction rounds as [|rounds IH]; intros i body v ps Hw Hv Hps Hlen.
  all: destruct ps as [|[t g] ps].
  all: try (rewrite string_app_nil_r in Hw;
            assert (Index (from i html) "<p>" = None) as Hnone
              by (rewrite Hw; by apply Index_absent);
            simpl; by rewrite Hnone).
  all: apply Forall_cons in Hps as [[Ht Hg] Hps]; simpl in Ht, Hg.
  all: cbn [paragraphs] in Hw.
  all: rewrite (extractFirstParagraph_loop_step _ _ _ _ _ _ _ Hw Hv Ht).
  all: cbn [chosen]; unfold has_image; cbn [fst].
  all: destruct (Contains (paragraph t) "<img") eqn:Himg; [|done].
  - apply (f_equal String.length) in Hw.
    rewrite from_length, !string_app_length, paragraph_length in Hw. lia.
  - pose proof (paragraph_length t) as HP.
    destruct (decide (String.length (paragraph t) ≤ String.length v))
      as [Hle|Hgt].
    + assert (chosen ps (paragraph t)
              = chosen ((t, g) :: ps) (paragraph t)) as ->.
      { cbn [chosen]. unfold has_image. cbn [fst]. by rewrite Himg. }
      apply (IH _ _ (from (String.length (paragraph t)) v)).
      * by rewrite <-from_from, Hw, from_app_le by done.
      * intros Ho. by apply occurs_from in Ho.
      * by constructor.
      * lia.
    + apply (IH _ _ (from (String.length (paragraph t) - String.length v)
                       (paragraph t +:+ g))).
      * rewrite <-from_from, Hw. rewrite from_app_ge by lia.
        rewrite <-string_app_assoc.
        apply from_app_le. rewrite string_app_length. lia.
      * apply no_open_after; [lia|done].
      * done.
      * lia.
Qed.

Lemma chosen_excerpt ps body :
  chosen ps body
  = match list_find (λ p, has_image p = false) ps with
    | Some (_, p) => paragraph p.1
    | None => default body ((λ p, paragraph p.1) <$> last ps)
    end.
Proof.
  revert body. induction ps as [|p ps IH]; intros body; [done|].
  cbn [chosen list_find].
  destruct (decide (has_image p = false)) as [Hp|Hp].
  - by rewrite Hp.
  - apply not_false_is_true in Hp. rewrite Hp, IH.
    destruct (list_find _ ps) as [[j q]|]; simpl; [done|].
    rewrite last_cons. by destruct (last ps).
Qed.

End extraction_facts.

(** X15.  On a page made of paragraphs, [extractFirstParagraph] returns
    the first paragraph that holds no [<img]; when each paragraph holds
    one it returns the last paragraph, not the empty string; and the empty
    string when the page has no paragraph. *)
Theorem extractFirstParagraph_excerpt (g0 : string) (ps : list (string * string)) :
  ¬ occurs "<p>" g0 → Forall paragraph_ok ps →
  extractFirstParagraph (g0 +:+ paragraphs ps) = Some (excerpt ps).
Proof.
  intros Hg Hps. unfold extractFirstParagraph, excerpt.
  rewrite (extractFirstParagraph_loop_chosen _ _ 0 "" g0 ps);
    [by rewrite chosen_excerpt|by rewrite from_0|done|done|lia].
Qed.

(** A [<p>] with no [</p>] after it: the scan does not return. *)
Lemma extractFirstParagraph_no_close (a r : string) :
  ¬ occurs "<p>" a → ¬ occurs "</p>" r →
  extractFirstParagraph (a +:+ "<p>" +:+ r) = None.
Proof.
  intros Ha Hr. unfold extractFirstParagraph.
  assert (Index (from 0 (a +:+ "<p>" +:+ r)) "<p>" = Some (String.length a))
    as Hp.
  { rewrite from_0. by apply (Index_first a "<" "p>"). }
  assert (Index (from (String.length a) (a +:+ "<p>" +:+ r)) "</p>" = None)
    as He.
  { rewrite from_app. apply Index_absent; [done|].
    intros Ho.
    repeat (apply occurs_cons in Ho as [Hq|Ho]; [by simpl in Hq|]).
    done. }
  destruct (String.length (a +:+ "<p>" +:+ r));
    cbn [extractFirstParagraph_loop]; rewrite Hp; cbn [Nat.add];
    by rewrite He.
Qed.

(** X16.  On a page whose first [<p>] has no [</p>] after it, the loop of
    [extractFirstParagraph] never exits. *)
Theorem extractFirstParagraph_unclosed (a r : string) :
  ¬ occurs "<p>" a → ¬ occurs "</p>" r →
  extractFirstParagraph (a +:+ "<p>" +:+ r) = None.
Proof. apply extractFirstParagraph_no_close. Qed.

(** X17.  The title is the text between the first [<h1>] of the page and
    the first [</h1>] after it, with the white space around it
    removed. *)
Theorem extractH1Title_first_heading (a t b : string) :
  ¬ occurs "<h1>" a → ¬ occurs "</h1>" t →
  extractH1Title (a +:+ "<h1>" +:+ t +:+ "</h1>" +:+ b) = TrimSpace t.
Proof.
  intros Ha Ht. unfold extractH1Title.
  rewrite (Index_first a "<" "h1>") by done.
  rewrite from_app.
  rewrite <-(string_app_assoc "<h1>" t).
  rewrite (Index_first ("<h1>" +:+ t) "<" "/h1>"); [|done|].
  2:{ intros Ho.
      repeat (apply occurs_cons in Ho as [Hq|Ho]; [by simpl in Hq|]).
      done. }
  f_equal. unfold substr.
  replace (String.length a + String.length ("<h1>" +:+ t)
           - (String.length a + 4)) with (String.length t)
    by (rewrite string_app_length; simpl; lia).
  rewrite string_app_assoc, <-(string_app_assoc a "<h1>").
  replace (String.length a + 4) with (String.length (a +:+ "<h1>"))
    by (by rewrite string_app_length).
  apply substring_app_mid.
Qed.

(** X18.  The title is empty when the page has no [<h1>], and when its
    first [<h1>] has no [</h1>] after it. *)
Theorem extractH1Title_without_heading (html : string) :
  (¬ occurs "<h1>" html ∨
   ∃ a r, html = a +:+ "<h1>" +:+ r ∧ ¬ occurs "<h1>" a ∧
          ¬ occurs "</h1>" r) →
  extractH1Title html = "".
Proof.
  intros [Hno|(a & r & -> & Ha & Hr)]; unfold extractH1Title.
  - by rewrite Index_absent.
  - rewrite (Index_first a "<" "h1>") by done.
    rewrite from_app, Index_absent; [done..|].
    intros Ho.
    repeat (apply occurs_cons in Ho as [Hq|Ho]; [by simpl in Hq|]).
    done.
Qed.

Section image_facts.

Lemma src_attr : "src=" +:+ dq = String "s" ("rc=" +:+ dq).
Proof. done. Qed.

Lemma dq_char : dq = String (ascii_of_nat 34) "".
Proof. done. Qed.

(** The piece [strings.Split] gives after the first separator: the text
    up to the next [<img], or all of it. *)
Lemma Split_from_hd fuel attrs b :
  ¬ occurs "<img" attrs →
  ∃ b', hd "" (Split_from fuel (attrs +:+ ">" +:+ b) "<img")
        = attrs +:+ ">" +:+ b'.
Proof.
  intros Hno. change (">" +:+ b) with (String ">" b).
  destruct fuel as [|fuel]; cbn [Split_from hd]; [by exists b|].
  rewrite (Index_skip attrs ">" b "<" "img") by done.
  rewrite Index_cons. cbn [String.prefix].
  destruct (ascii_dec "<" ">"); [done|].
  destruct (Index b "<img") as [j|]; cbn [fmap option_fmap option_map hd];
    [|by exists b].
  exists (String.substring 0 j b). unfold substr.
  rewrite Nat.sub_0_r.
  replace (String.length attrs + S j) with (String.length attrs + (1 + j))
    by lia.
  by rewrite substring_0_app_more.
Qed.

Lemma Split_first a sep b c r :
  sep = String c r → has_char c r = false → ¬ occurs sep a →
  ∃ fuel, Split (a +:+ sep +:+ b) sep = a :: Split_from fuel b sep.
Proof.
  intros -> Hc Ha. unfold Split.
  destruct (String.length (a +:+ String c r +:+ b)) as [|fuel] eqn:Hlen.
  { rewrite !string_app_length in Hlen. simpl in Hlen. lia. }
  exists fuel. cbn [Split_from]. rewrite Index_first by done.
  unfold substr. rewrite Nat.sub_0_r, substring_0_app.
  replace (String.length a + String.length (String c r))
    with (String.length (a +:+ String c r)) by (by rewrite string_app_length).
  by rewrite <-string_app_assoc, from_app.
Qed.

End image_facts.

(** X19.  The banner source is the value of the first [src] attribute
    of the first [<img] of the page: the text between the quote that
    opens it and the next quote. *)
Theorem extractFirstImage_first_src (a x u y b : string) :
  ¬ occurs "<img" a →
  ¬ occurs "<img" (x +:+ "src=" +:+ dq +:+ u +:+ dq +:+ y) →
  ¬ occurs ">" (x +:+ "src=" +:+ dq +:+ u +:+ dq +:+ y) →
  ¬ occurs ("src=" +:+ dq) x → ¬ occurs dq u →
  extractFirstImage
    (a +:+ "<img" +:+ (x +:+ "src=" +:+ dq +:+ u +:+ dq +:+ y) +:+ ">" +:+ b)
  = u.
Proof.
  intros Ha Himg Hgt Hx Hu.
  set (attrs := x +:+ "src=" +:+ dq +:+ u +:+ dq +:+ y) in *.
  unfold extractFirstImage. cbv zeta.
  destruct (Split_first a "<img" (attrs +:+ ">" +:+ b) "<" "img")
    as [fuel ->]; [done..|].
  destruct (Split_from_hd fuel attrs b Himg) as [b' Hhd].
  destruct (Split_from fuel (attrs +:+ ">" +:+ b) "<img") as [|tag1 tags]
    eqn:Hsplit.
  { by destruct fuel; simpl in Hsplit; repeat case_match. }
  cbn [length Nat.ltb Nat.leb nth]. cbn [hd] in Hhd. subst tag1.
  change (">" +:+ b') with (String ">" b').
  rewrite Index_char_first by done.
  assert (substr (attrs +:+ String ">" b') 0 (String.length attrs) = attrs)
    as ->.
  { unfold substr. by rewrite Nat.sub_0_r, substring_0_app. }
  assert (Index attrs ("src=" +:+ dq) = Some (String.length x)) as ->.
  { subst attrs. rewrite <-(string_app_assoc "src=" dq).
    by apply (Index_first x "s" ("rc=" +:+ dq)). }
  assert (from (String.length x + 5) attrs = u +:+ dq +:+ y) as ->.
  { subst attrs. rewrite <-(string_app_assoc "src=" dq), <-string_app_assoc.
    replace (String.length x + 5)
      with (String.length (x +:+ "src=" +:+ dq))
      by (by rewrite string_app_length).
    apply from_app. }
  rewrite dq_char at 1 2. rewrite string_app_cons, string_app_nil_l.
  rewrite Index_char_first by (by rewrite <-dq_char).
  unfold substr. by rewrite Nat.sub_0_r, substring_0_app.
Qed.

(** Decides [¬ occurs sub s] on closed strings. *)
Ltac no_occurrence := apply Contains_not_occurs; [done|vm_compute; reflexivity].

Lemma extractFirstParagraph_excerpt_witness :
  extractFirstParagraph
    ("<h1>Title</h1>" +:+ nl +:+ paragraphs [(example_image, nl)])
  = Some (paragraph example_image).
Proof.
  apply (extractFirstParagraph_excerpt ("<h1>Title</h1>" +:+ nl)
           [(example_image, nl)]).
  - no_occurrence.
  - repeat constructor; simpl; no_occurrence.
Defined.

Lemma extractFirstParagraph_unclosed_witness :
  extractFirstParagraph ("<div>" +:+ "<p>" +:+ "text</div>" +:+ nl) = None.
Proof.
  apply (extractFirstParagraph_unclosed "<div>" ("text</div>" +:+ nl));
    no_occurrence.
Defined.

Lemma extractH1Title_first_heading_witness :
  extractH1Title
    ("<div>" +:+ "<h1>" +:+ " Title " +:+ "</h1>" +:+ "<h1>Second</h1>")
  = "Title".
Proof.
  rewrite (extractH1Title_first_heading "<div>" " Title " "<h1>Second</h1>");
    [vm_compute; reflexivity|no_occurrence..].
Defined.

Lemma extractH1Title_without_heading_witness :
  extractH1Title ("<p>" +:+ "<h1>" +:+ "Title</p>") = "".
Proof.
  apply extractH1Title_without_heading. right.
  exists "<p>", "Title</p>". split; [done|]. split; no_occurrence.
Defined.

Lemma extractFirstImage_first_src_witness :
  extractFirstImage example_html = "a.png".
Proof.
  apply (extractFirstImage_first_src
           ("<h1>Title</h1>" +:+ nl +:+ nl +:+ "<p>") " " "a.png"
           (" alt=" +:+ dq +:+ "img" +:+ dq +:+ " /")
           ("</p>" +:+ nl +:+ nl +:+ "<p>First real paragraph.</p>" +:+ nl));
    no_occurrence.
Defined.

(** ** The start of the program *)

Section startup_facts.
Context `{GoLibs}.



End startup_facts.

Section startup_properties.
Context `{GoLibs} `{GoJson}.

(** X20.  A start that skips the analysis returns, whatever the index
    file holds.  It touches neither the two trees nor the file; the index
    is what [json.Unmarshal] makes of the file (empty when the file is
    not there or does not decode), and [publicPosts] is the public part
    of the index, in its order. *)
Theorem AnaylzePosts_from_file w file cfg :
  AnaylzePostsOnStart cfg = false →
  ∃ σ, AnaylzePosts (start w file cfg) = Done tt σ ∧
       world σ = w ∧ postListJson σ = file ∧
       slice_wf (heap σ) (posts σ) ∧
       index σ = default [] (file ≫= json_Unmarshal) ∧
       publicPosts σ = filter (λ p, is_public p = true) (index σ).
Proof.
  intros Hcfg. unfold AnaylzePosts, GetPostsFromJson, os_ReadFile_postList,
    new_slice, derive_publicPosts, slice_elems, bind, gets, modify, ret.
  simpl. rewrite Hcfg.
  destruct file as [l|]; simpl; [destruct (json_Unmarshal l) as [d|]|];
    simpl; eexists; (split; [done|]); unfold index, elems, backing; simpl;
    try (split_and!; [done|done|by exists []|done|done]).
  pose proof (decoded_cap_enough (length d)) as Hcap.
  rewrite take_app_length.
  split_and!; [done|done| |done|done].
  eexists. split; [done|]. simpl.
  rewrite length_app, length_replicate. split; lia.
Qed.


End startup_properties.

Lemma AnaylzePosts_from_file_witness :
  ∃ σ, AnaylzePosts (start single_world (Some [tie_b; tie_a])
                       (mkConfig false "private")) = Done tt σ ∧
       index σ = [tie_b; tie_a] ∧ publicPosts σ = [tie_b; tie_a] ∧
       dataFS (world σ) = dataFS single_world.
Proof.
  destruct (AnaylzePosts_from_file single_world (Some [tie_b; tie_a])
              (mkConfig false "private") eq_refl)
    as (σ & Hrun & Hw & _ & _ & Hi & Hp).
  exists σ. split; [done|]. rewrite Hp, Hi, Hw. done.
Defined.


(** ** The pages served *)

Section pages_facts.
Context `{GoPath}.

Lemma Replace1_same s old : Replace1 s old old = s.
Proof. unfold Replace1. by rewrite String.eqb_refl. Qed.

Lemma replaceImagePaths_round_kept dirPath html tag :
  src_kept dirPath tag → replaceImagePaths_round dirPath html tag = html.
Proof.
  intros Hk. unfold replaceImagePaths_round. cbv zeta.
  unfold src_kept, img_src in Hk. cbv zeta in Hk.
  destruct (Index ("<img" +:+ tag) ("src=" +:+ dq)) as [i|]; [|done].
  destruct (Index (from (i + 5) ("<img" +:+ tag)) dq) as [j|]; [|done].
  destruct (Hk _ eq_refl) as [->|Hj]; [done|].
  destruct (HasPrefix _ "http"); [done|].
  by rewrite Hj, !Replace1_same.
Qed.

End pages_facts.

(** X22.  [replaceImagePaths] returns the page as it is when every image
    of it has a source it leaves alone: an absolute URL, or a path that
    [filepath.Join] gives back unchanged (and so when the page has no
    image). *)
Theorem replaceImagePaths_unchanged `{GoPath} (htmlContent dirPath : string) :
  Forall (src_kept dirPath) (tail (Split htmlContent "<img")) →
  replaceImagePaths htmlContent dirPath = htmlContent.
Proof.
  unfold replaceImagePaths. cbv zeta.
  generalize (tail (Split htmlContent "<img")) as tags.
  intros tags Hall. induction Hall as [|tag tags Htag _ IH]; [done|].
  simpl. by rewrite replaceImagePaths_round_kept.
Qed.

Section replace_facts.

Lemma prefix_refl s : String.prefix s s = true.
Proof. rewrite <-(string_app_nil_r s) at 2. apply prefix_app. Qed.

Lemma prefix_app_r sub s t :
  String.prefix sub s = true → String.prefix sub (s +:+ t) = true.
Proof.
  intros [r ->]%prefix_split. rewrite string_app_assoc. apply prefix_app.
Qed.

Lemma prefix_app_l p q s :
  String.prefix (p +:+ q) s = true → String.prefix p s = true.
Proof.
  intros [r ->]%prefix_split. rewrite string_app_assoc. apply prefix_app.
Qed.

(** A prefix of [a] followed by [t] that is no longer than [a] is one of
    [a]. *)
Lemma prefix_within sub a t :
  String.prefix sub (a +:+ t) = true →
  String.length sub ≤ String.length a → String.prefix sub a = true.
Proof.
  revert a. induction sub as [|c sub IH]; intros a Hp Hlen; [by destruct a|].
  destruct a as [|x a]; [simpl in Hlen; lia|].
  rewrite string_app_cons in Hp. simpl in *.
  destruct (ascii_dec c x); [|done]. apply IH; [done|lia].
Qed.

(** The first occurrence in a text is the first one in any text that
    starts with it. *)
Lemma Index_app_some s sub t p :
  Index s sub = Some p → Index (s +:+ t) sub = Some p.
Proof.
  revert p. induction s as [|x s IH]; intros p Hp.
  - destruct sub; [|done]. rewrite string_app_nil_l.
    unfold Index in *. simpl in Hp. injection Hp as <-. by destruct t.
  - rewrite string_app_cons, Index_cons. rewrite Index_cons in Hp.
    destruct (String.prefix sub (String x s)) eqn:Hpre.
    + rewrite <-string_app_cons, (prefix_app_r _ _ _ Hpre). done.
    + destruct (Index s sub) as [q|] eqn:Hq; [|done].
      simpl in Hp. injection Hp as <-.
      rewrite (IH q eq_refl).
      destruct (String.prefix sub (String x (s +:+ t))) eqn:Hpre'; [|done].
      rewrite <-string_app_cons in Hpre'.
      apply prefix_within in Hpre'; [congruence|].
      apply Index_bound in Hq. simpl. lia.
Qed.

(** A text that starts with [c r], whose first byte is not repeated in
    [c r], is first found where it stands after a text in which [c r]
    does not occur. *)
Lemma Index_whole a c r rest :
  has_char c r = false → ¬ occurs (String c r) a →
  Index (a +:+ String c r +:+ rest) (String c r +:+ rest)
  = Some (String.length a).
Proof.
  intros Hc. induction a as [|x a IH]; intros Hno.
  - rewrite string_app_nil_l, string_app_cons, Index_cons.
    by rewrite prefix_refl.
  - rewrite string_app_cons, Index_cons.
    destruct (String.prefix (String c r +:+ rest)
                (String x (a +:+ String c r +:+ rest))) eqn:Hp.
    + apply prefix_app_l in Hp.
      rewrite <-string_app_cons, (string_app_cons c r rest) in Hp.
      apply prefix_app_cases in Hp as [[q Hq]|[v Hv]].
      * destruct Hno. exists "", q. by rewrite string_app_nil_l.
      * rewrite string_app_cons in Hv. injection Hv as _ ->.
        rewrite has_char_app in Hc. simpl in Hc.
        rewrite Ascii.eqb_refl, orb_true_r in Hc. done.
    + rewrite IH; [done|].
      intros (u & v & ->). apply Hno. exists (String x u), v.
      by rewrite string_app_cons.
Qed.

Lemma Split_from_absent fuel s sep :
  sep ≠ "" → ¬ occurs sep s → Split_from fuel s sep = [s].
Proof.
  intros Hne Hno. destruct fuel; [done|]. simpl.
  by rewrite Index_absent.
Qed.

Lemma Replace1_at a old new b :
  old ≠ new → Index (a +:+ old +:+ b) old = Some (String.length a) →
  Replace1 (a +:+ old +:+ b) old new = a +:+ new +:+ b.
Proof.
  intros Hne Hi. unfold Replace1.
  destruct (String.eqb_spec old new) as [|_]; [done|].
  rewrite Hi. unfold substr. rewrite Nat.sub_0_r, substring_0_app.
  by rewrite <-from_from, !from_app.
Qed.

End replace_facts.

(** X24.  On a page with one image, whose source is relative and first
    occurs in its tag as the value of the [src] attribute,
    [replaceImagePaths] puts [filepath.Join(dirPath, src)] in the place
    of the source and leaves the rest of the page as it is. *)
Theorem replaceImagePaths_single_image `{GoPath} (a x u y dirPath : string) :
  ¬ occurs "<img" a →
  ¬ occurs "<img" (x +:+ "src=" +:+ dq +:+ u +:+ dq +:+ y) →
  ¬ occurs ("src=" +:+ dq) x → ¬ occurs dq u →
  HasPrefix u "http" = false →
  Index ("<img" +:+ x +:+ "src=" +:+ dq +:+ u) u
    = Some (String.length ("<img" +:+ x +:+ "src=" +:+ dq)) →
  replaceImagePaths
    (a +:+ "<img" +:+ x +:+ "src=" +:+ dq +:+ u +:+ dq +:+ y) dirPath
  = a +:+ "<img" +:+ x +:+ "src=" +:+ dq +:+ filepath_Join dirPath u +:+ dq
      +:+ y.
Proof.
  intros Ha Htag Hx Hu Hhttp Hfirst.
  set (tag := x +:+ "src=" +:+ dq +:+ u +:+ dq +:+ y) in *.
  unfold replaceImagePaths. cbv zeta.
  destruct (Split_first a "<img" tag "<" "img") as [fuel ->]; [done..|].
  rewrite Split_from_absent by done. cbn [tail foldl].
  unfold replaceImagePaths_round. cbv zeta.
  assert (Index ("<img" +:+ tag) ("src=" +:+ dq)
          = Some (String.length ("<img" +:+ x))) as ->.
  { subst tag. rewrite <-(string_app_assoc "<img" x).
    rewrite <-(string_app_assoc "src=" dq).
    apply (Index_first ("<img" +:+ x) "s" ("rc=" +:+ dq)); [done|].
    intros Ho.
    repeat (apply occurs_cons in Ho as [Hq|Ho]; [by simpl in Hq|]).
    exact (Hx Ho). }
  assert (from (String.length ("<img" +:+ x) + 5) ("<img" +:+ tag)
          = u +:+ dq +:+ y) as Hfrom.
  { subst tag. rewrite <-(string_app_assoc "<img" x).
    rewrite <-(string_app_assoc "src=" dq), <-string_app_assoc.
    replace (String.length ("<img" +:+ x) + 5)
      with (String.length (("<img" +:+ x) +:+ "src=" +:+ dq))
      by (by rewrite !string_app_length).
    apply from_app. }
  rewrite Hfrom.
  assert (Index (u +:+ dq +:+ y) dq = Some (String.length u)) as ->.
  { rewrite dq_char at 1 2. rewrite string_app_cons, string_app_nil_l.
    apply Index_char_first. by rewrite <-dq_char. }
  assert (substr ("<img" +:+ tag) (String.length ("<img" +:+ x) + 5)
            (String.length ("<img" +:+ x) + 5 + String.length u) = u) as ->.
  { unfold substr.
    replace (String.length ("<img" +:+ x) + 5 + String.length u
             - (String.length ("<img" +:+ x) + 5))
      with (String.length u) by lia.
    rewrite <-(Nat.add_0_r (String.length ("<img" +:+ x) + 5)).
    rewrite <-(substring_from (String.length ("<img" +:+ x) + 5) 0), Hfrom.
    apply substring_0_app. }
  rewrite Hhttp.
  set (rel := filepath_Join dirPath u).
  assert (Replace1 ("<img" +:+ tag) u rel
          = "<img" +:+ x +:+ "src=" +:+ dq +:+ rel +:+ dq +:+ y) as ->.
  { destruct (decide (u = rel)) as [<-|Hne]; [apply Replace1_same|].
    subst tag. set (pre := "<img" +:+ x +:+ "src=" +:+ dq) in *.
    assert (∀ v, "<img" +:+ x +:+ "src=" +:+ dq +:+ v +:+ dq +:+ y
                 = pre +:+ v +:+ dq +:+ y) as Hpre.
    { intros v. subst pre. by rewrite !string_app_assoc. }
    rewrite !Hpre. apply Replace1_at; [done|].
    rewrite <-string_app_assoc. apply Index_app_some.
    rewrite <-Hfirst. f_equal. subst pre. by rewrite !string_app_assoc. }
  set (new := "<img" +:+ x +:+ "src=" +:+ dq +:+ rel +:+ dq +:+ y).
  destruct (decide ("<img" +:+ tag = new)) as [Heq|Hne].
  { rewrite Heq, Replace1_same. by rewrite <-Heq. }
  rewrite <-(string_app_nil_r ("<img" +:+ tag)) at 1.
  rewrite Replace1_at; [by rewrite string_app_nil_r|done|].
  rewrite string_app_nil_r. by apply (Index_whole a "<" "img" tag).
Qed.

Lemma replaceImagePaths_unchanged_witness :
  replaceImagePaths example_html "" = example_html.
Proof.
  apply replaceImagePaths_unchanged.
  vm_compute tail. constructor; [|constructor].
  intros s Hs. vm_compute in Hs. injection Hs as <-. by right.
Defined.

Lemma replaceImagePaths_single_image_witness :
  replaceImagePaths
    ("<p>" +:+ "<img" +:+ " " +:+ "src=" +:+ dq +:+ "a.png" +:+ dq +:+ " /></p>")
    "posts"
  = "<p>" +:+ "<img" +:+ " " +:+ "src=" +:+ dq +:+ "posts/a.png" +:+ dq +:+
    " /></p>".
Proof.
  rewrite (replaceImagePaths_single_image "<p>" " " "a.png" " /></p>" "posts");
    try no_occurrence; vm_compute; reflexivity.
Defined.

(** ** Runs that never return *)

Section never_returns.
Context `{GoLibs}.

(** [getPostInfo] and [updatePost] have no [log.Fatalf]. *)
Lemma getPostInfo_no_Fatal name σ msg σ' : getPostInfo name σ ≠ Fatal msg σ'.
Proof.
  rewrite getPostInfo_eq.
  destruct (dataFS (world σ) !! name) as [[|[md|]]|]; simpl; try done.
  by destruct (extractFirstParagraph _).
Qed.

Lemma updatePost_no_Fatal name s σ msg σ' : updatePost name s σ ≠ Fatal msg σ'.
Proof.
  intros Hrun. unfold updatePost in Hrun. unfold bind at 1 in Hrun.
  destruct (getPostInfo name σ) as [[post err] σ1| |] eqn:Hget; [| |done].
  2:{ by apply getPostInfo_no_Fatal in Hget. }
  unfold deletePost, sortPosts, derive_publicPosts, go_append, slice_set,
    sort_in_place, slice_elems, os_RemoveAll_data, os_RemoveAll_repo,
    os_WriteFile_postList, bind, ret, gets, modify in Hrun.
  simpl in Hrun.
  destruct (bool_decide (err ≠ None) || String.eqb (State post) "delete");
    simpl in Hrun;
    destruct (find_name name (elems (heap σ1) s)); simpl in Hrun;
    destruct (writable (world σ1)); done.
Qed.

Lemma reconcile_loop_hangs l τ name md :
  (name, true) ∈ l →
  slice_wf (heap τ) (posts τ) →
  dataFS (world τ) !! name = Some (DDir (Some md)) →
  extractFirstParagraph (blackfriday_Run md) = None →
  for_range l reconcile_body τ = Hang.
Proof.
  intros Hin Hwf Hdir Hpage. revert τ Hwf Hdir.
  induction l as [|[m isdir] l IH]; intros τ Hwf Hdir.
  { by apply elem_of_nil in Hin. }
  rewrite for_range_cons. unfold bind at 1.
  destruct (decide ((m, isdir) = (name, true))) as [[= -> ->]|Hne].
  - unfold reconcile_body, bind, gets. simpl. unfold updatePost, bind.
    rewrite getPostInfo_eq, Hdir. simpl. by rewrite Hpage.
  - apply elem_of_cons in Hin as [?|Hin]; [congruence|].
    destruct (reconcile_body (m, isdir) τ) as [[] τ'| |] eqn:Hbody; [| |done].
    + destruct (reconcile_body_Done _ _ _ _ Hwf Hbody)
        as (_ & Hwf' & [[_ ->]|(-> & post & e & τ1 & vs & Hget & _ & Hwd)]).
      { by apply IH. }
      apply IH; [done..|]. rewrite Hwd.
      destruct (getPostInfo_world _ _ _ _ Hget) as (Hd1 & _).
      assert (m ≠ name) by congruence.
      destruct (decision post e); simpl; rewrite ?lookup_delete_ne by done;
        by rewrite Hd1.
    + exfalso. unfold reconcile_body in Hbody. simpl in Hbody.
      destruct isdir; [|done].
      unfold bind, gets, modify in Hbody.
      destruct (updatePost m (posts τ) τ) as [r τ'| |] eqn:Hu; [done| |done].
      by apply updatePost_no_Fatal in Hu.
Qed.


(** X23.  A push of a post in whose rendered page the first [<p>] has no
    [</p>] after it never returns: the working copy is extracted, and
    [getPostInfo] stays in the loop of [extractFirstParagraph]. *)
Theorem gitUpdate_never_returns urlPath name σ md date a r :
  HasSuffix urlPath "git-receive-pack" = true →
  gitFS (world σ) !! name = Some (GDir (Some (Some md)) date) →
  blackfriday_Run md = a +:+ "<p>" +:+ r →
  ¬ occurs "<p>" a → ¬ occurs "</p>" r →
  gitUpdate urlPath name σ = Hang.
Proof.
  intros Hsuf Hrepo Hpage Ha Hr. unfold gitUpdate. rewrite Hsuf.
  unfold bind at 1. rewrite (extractGitData_clonable _ _ _ _ Hrepo).
  unfold bind at 1, gets at 1. unfold bind at 1, updatePost, bind at 1.
  rewrite getPostInfo_eq. simpl. rewrite lookup_insert_eq. simpl.
  by rewrite Hpage, extractFirstParagraph_no_close.
Qed.

(** X25.  A full rebuild over a directory in whose rendered page the
    first [<p>] has no [</p>] after it never returns. *)
Theorem checkAllPosts_never_returns σ name md a r :
  slice_wf (heap σ) (posts σ) →
  dataFS (world σ) !! name = Some (DDir (Some md)) →
  blackfriday_Run md = a +:+ "<p>" +:+ r →
  ¬ occurs "<p>" a → ¬ occurs "</p>" r →
  checkAllPosts σ = Hang.
Proof.
  intros Hwf Hdir Hpage Ha Hr.
  assert (for_range (data_listing (world σ)) reconcile_body σ = Hang) as Hloop.
  { apply (reconcile_loop_hangs _ _ name md); [|done..|].
    - apply (data_listing_elem _ _ _ Hdir).
    - rewrite Hpage. by apply extractFirstParagraph_no_close. }
  unfold checkAllPosts. unfold bind at 1. unfold os_ReadDir_data, gets at 1.
  unfold bind at 1.
  change (for_range _ _ σ)
    with (for_range (data_listing (world σ)) reconcile_body σ).
  by rewrite Hloop.
Qed.

End never_returns.



Lemma gitUpdate_never_returns_witness :
  @push block_libs "a" (@boot block_world example_config) = Hang.
Proof.
  apply (@gitUpdate_never_returns block_libs
           ("/" +:+ "a" +:+ "/git-receive-pack") "a"
           (boot block_world example_config) block_markdown
           (Some "2024-01-01 10:00:00") "<div>" ("text</div>" +:+ nl));
    [vm_compute; reflexivity|reflexivity|vm_compute; reflexivity|
     no_occurrence..].
Defined.

Lemma checkAllPosts_never_returns_witness :
  @checkAllPosts block_libs
    (boot (set_dataFS <["a" := DDir (Some block_markdown)]> block_world)
       example_config)
  = Hang.
Proof.
  apply (@checkAllPosts_never_returns block_libs _ "a" block_markdown
           "<div>" ("text</div>" +:+ nl));
    [apply boot_wf|reflexivity|vm_compute; reflexivity|no_occurrence..].
Defined.
